(** * Calculator tool server: the nine arithmetic tools of [calculator_server.py]

    The tools are declared on [float] parameters.  A Python [float] is an
    IEEE 754 binary64 value, so the embedding works on [spec_float] (the
    Standard Library's executable specification of binary floating point)
    at precision 53 and maximal exponent 1024.  An integer literal, or an
    integer argument converted to the declared parameter type, is the float
    [of_int z].

    The file has four layers of definitions: binary64 and the real number
    behind a float ([Float64]); the C library functions that CPython calls
    ([Libm]); the Python operators and [math] functions ([Python]); and the
    tools themselves ([Calculator]), one definition per function of the
    source, under the source's names.  The properties follow: first what
    rounding to nearest does to a real number, the error of each arithmetic
    operation, the values that need no rounding, and correct rounding (the
    nearest float, the even one on a tie); then the tools, one section per
    tool and property of the specification; then the test suite.  A last
    part goes further into the tools: results that are floats, integer
    arguments, accuracy and algebraic laws. *)

From Stdlib Require Import ZArith Bool String Lia Reals Lra Psatz.
From Stdlib Require Import SpecFloat.

Open Scope Z_scope.

(** ** binary64 *)

Module Float64.

Definition prec : Z := 53.
Definition emax : Z := 1024.

Abbreviation float := spec_float.

Definition is_nan (x : float) : bool :=
  match x with S754_nan => true | _ => false end.

Definition is_inf (x : float) : bool :=
  match x with S754_infinity _ => true | _ => false end.

Definition is_finite (x : float) : bool :=
  match x with S754_zero _ | S754_finite _ _ _ => true | _ => false end.

Definition is_zero (x : float) : bool :=
  match x with S754_zero _ => true | _ => false end.

(** The sign bit; [None] for a NaN, whose sign carries no meaning. *)
Definition sign (x : float) : option bool :=
  match x with
  | S754_zero s | S754_infinity s | S754_finite s _ _ => Some s
  | S754_nan => None
  end.

Definition valid (x : float) : bool := valid_binary prec emax x.

(** A normal number: finite, with all 53 bits of precision. *)
Definition is_normal (x : float) : bool :=
  match x with
  | S754_finite _ m _ => Zpos (digits2_pos m) =? prec
  | _ => false
  end.

(** Conversion of a Python [int] to [float]: round to nearest, ties to even. *)
Definition of_int (z : Z) : float := binary_normalize prec emax z 0 false.

Definition zero : float := S754_zero false.
Definition neg_zero : float := S754_zero true.
Definition one : float := of_int 1.
Definition inf : float := S754_infinity false.
Definition max_float : float := SFmax_float prec emax.

(** The least positive float, [2^-1074]. *)
Definition min_float : float := S754_finite false 1 (-1074).

Definition add := SFadd prec emax.
Definition sub := SFsub prec emax.
Definition mul := SFmul prec emax.
Definition div := SFdiv prec emax.
Definition sqrt := SFsqrt prec emax.
Definition abs := SFabs.
Definition opp := SFopp.
Definition eqb := SFeqb.
Definition ltb := SFltb.
Definition leb := SFleb.

(** [copysign (x, y)]: the magnitude of [x] with the sign of [y]. *)
Definition copysign (x y : float) : float :=
  match sign y with
  | Some true => opp (abs x)
  | _ => abs x
  end.

(** The integer a finite float denotes, when it denotes one. *)
Definition to_int (x : float) : option Z :=
  match x with
  | S754_zero _ => Some 0
  | S754_finite s m e =>
      let v :=
        match e with
        | Zneg p => if (Zpos m mod 2 ^ Zpos p =? 0) then Some (Zpos m / 2 ^ Zpos p) else None
        | _ => Some (Zpos m * 2 ^ e)
        end in
      option_map (cond_Zopp s) v
  | _ => None
  end.

(** *** The real number behind a float *)

Definition bpow (e : Z) : R := powerRZ 2 e.

(** The real number a finite float denotes (0 for the others). *)
Definition B2R (x : float) : R :=
  match x with
  | S754_finite s m e => (IZR (cond_Zopp s (Zpos m)) * bpow e)%R
  | _ => 0%R
  end.

Definition sgn (s : bool) : R := if s then (-1)%R else 1%R.

(** [x] and [y] are finite and at most [tol] apart. *)
Definition within (tol : R) (x y : float) : Prop :=
  is_finite x = true /\ is_finite y = true /\
  (Rabs (B2R x - B2R y) <= tol)%R.

(** The floating-point tolerance at magnitude [scale]: four units of
    round-off (each [2^-53]) relative to [scale], plus half the least
    subnormal. *)
Definition tolerance (scale : R) : R :=
  (bpow (-51) * scale + bpow (-1075))%R.

(** [x] approximates [y]: the same value (which covers the infinities), or
    within the tolerance at the magnitude of [y]. *)
Definition approx (x y : float) : Prop :=
  x = y \/ within (tolerance (Rabs (B2R y))) x y.

End Float64.

(** ** The C library functions that CPython calls *)

Module Libm.
Import Float64.

(** [fmod (x, y)]: the exact remainder of [x / y] truncated toward zero,
    with the sign of [x] (C99 7.12.10.1 and F.10.7.1).  The remainder of two
    floats is a float, so no rounding takes place: the mantissa is only
    aligned to its canonical exponent. *)
Definition fmod (x y : float) : float :=
  match x, y with
  | S754_nan, _ | _, S754_nan => S754_nan
  | S754_infinity _, _ => S754_nan
  | _, S754_zero _ => S754_nan
  | _, S754_infinity _ => x
  | S754_zero _, S754_finite _ _ _ => x
  | S754_finite sx mx ex, S754_finite _ my ey =>
      let e := Z.min ex ey in
      let r := Z.rem (Zpos (fst (shl_align mx ex e))) (Zpos (fst (shl_align my ey e))) in
      match r with
      | Zpos mr =>
          let '(mz, ez) := shl_align mr e (fexp prec emax (Zpos (digits2_pos mr) + e)) in
          S754_finite sx mz ez
      | _ => S754_zero sx
      end
  end.

(** Whether the positive numbers [m1 * 2^e1] and [m2 * 2^e2] are equal. *)
Definition same_value (m1 : positive) (e1 : Z) (m2 : positive) (e2 : Z) : bool :=
  let e := Z.min e1 e2 in
  Zpos m1 * 2 ^ (e1 - e) =? Zpos m2 * 2 ^ (e2 - e).

(** [x] to the integral power [n], where that power is itself a float:
    [None] where writing it as a float would take a rounding.  The candidate
    is the power rounded to nearest (for a negative [n], the rounded inverse
    of the power); it is the power when it has the same value. *)
Definition exact_power (x : float) (n : Z) : option float :=
  match x with
  | S754_finite s m e =>
      let sz := andb s (Z.odd n) in
      match n with
      | Z0 => Some one
      | Zpos p =>
          match binary_round prec emax sz (Pos.pow m p) (e * n) with
          | S754_finite sr mr er =>
              if same_value mr er (Pos.pow m p) (e * n)
              then Some (S754_finite sr mr er) else None
          | _ => None
          end
      | Zneg p =>
          match div one (S754_finite sz (Pos.pow m p) (e * Zpos p)) with
          | S754_finite sr mr er =>
              if same_value (mr * Pos.pow m p) (er + e * Zpos p) 1 0
              then Some (S754_finite sr mr er) else None
          | _ => None
          end
      end
  | _ => None
  end.

(** Whether [x] to the integral power [n] is too large for any float: at
    least [2^1024] in magnitude. *)
Definition power_overflows (x : float) (n : Z) : bool :=
  match x with
  | S754_finite _ m e =>
      match n with
      | Z0 => false
      | Zpos p =>
          let E := e * n in
          2 ^ (1024 + Z.max 0 (- E)) <=? Zpos (Pos.pow m p) * 2 ^ Z.max 0 E
      | Zneg p =>
          let E := e * Zpos p in
          Zpos (Pos.pow m p) * 2 ^ (1024 + Z.max 0 E) <=? 2 ^ Z.max 0 (- E)
      end
  | _ => false
  end.

Section Pow.

(** What the library returns on finite operands where the result has to be
    rounded: C leaves the accuracy of [pow] to the implementation, and a
    library need not round to nearest, so no computation on the operands
    gives these results. *)
Variable libm_pow : float -> float -> float.

(** [pow (x, y)] on finite operands (C99 7.12.7.4 and F.10.4.4).  For an
    integral exponent, a power that is itself a float is returned as it is
    (the libraries in use do so, and the tests of the repository rest on it
    at [power (2, 3)] and [power (2, -1)]), and a power too large for any
    float overflows to an infinity (C99 7.12.1); the other results are the
    library's. *)
Definition pow (x y : float) : float :=
  match y with
  | S754_zero _ => one
  | S754_finite sy _ _ =>
      match x with
      | S754_zero sx =>
          let odd := match to_int y with Some n => Z.odd n | None => false end in
          if sy then S754_infinity (andb sx odd) else S754_zero (andb sx odd)
      | S754_finite sx _ _ =>
          match to_int y with
          | Some n =>
              match exact_power x n with
              | Some r => r
              | None =>
                  if power_overflows x n then S754_infinity (andb sx (Z.odd n))
                  else libm_pow x y
              end
          | None => if sx then S754_nan else libm_pow x y
          end
      | _ => S754_nan
      end
  | _ => S754_nan
  end.

End Pow.

End Libm.

(** ** The Python operators and [math] functions the tools use *)

Module Python.
Import Float64.

Inductive exn : Type :=
  | ValueError (msg : string)
  | OverflowError (msg : string)
  | ZeroDivisionError (msg : string).

Inductive result (A : Type) : Type :=
  | Ok (v : A)
  | Raise (e : exn).

Arguments Ok {A} v.
Arguments Raise {A} e.

Definition raises {A : Type} (r : result A) : bool :=
  match r with Ok _ => false | Raise _ => true end.

(** [r == v] for the outcome [r] of a call: it returned, and the value
    compares equal to [v]. *)
Definition equals (r : result float) (v : float) : bool :=
  match r with Ok x => eqb x v | Raise _ => false end.

(** [a / b] on floats ([float_div] of CPython's floatobject.c). *)
Definition truediv (a b : float) : result float :=
  if eqb b zero then Raise (ZeroDivisionError "float division by zero")
  else Ok (div a b).

(** [a % b] on floats ([float_rem]): C's [fmod], then moved to the sign of
    the divisor. *)
Definition rem (a b : float) : result float :=
  if eqb b zero then Raise (ZeroDivisionError "float modulo")
  else
    let m := Libm.fmod a b in
    if negb (eqb m zero) then
      if negb (Bool.eqb (ltb b zero) (ltb m zero)) then Ok (add m b) else Ok m
    else Ok (copysign zero b).

(** [math.sqrt] ([math_1] of mathmodule.c around C's [sqrt]). *)
Definition math_sqrt (x : float) : result float :=
  let r := sqrt x in
  if is_nan r && negb (is_nan x) then Raise (ValueError "math domain error")
  else if is_inf r && is_finite x then Raise (ValueError "math domain error")
  else Ok r.

Section Pow.

Variable libm_pow : float -> float -> float.

(** What [math.pow] returns when an operand is infinite or NaN; C's [pow] is
    not called. *)
Definition pow_special (x y : float) : float :=
  if is_nan x then (if eqb y zero then one else x)
  else if is_nan y then (if eqb x one then one else y)
  else if is_inf x then
    let odd_y := is_finite y && eqb (Libm.fmod (abs y) (of_int 2)) one in
    if ltb zero y then (if odd_y then x else abs x)
    else if eqb y zero then one
    else (if odd_y then copysign zero x else zero)
  else if is_inf y then
    if eqb (abs x) one then one
    else if ltb zero y && ltb one (abs x) then y
    else if ltb y zero && ltb (abs x) one then opp y
    else zero
  else zero.

(** How [math.pow] ends on the result [r] of C's [pow] at the finite base
    [x]: a NaN is a domain error, an infinity a domain error at base zero
    and a range error elsewhere. *)
Definition pow_outcome (x r : float) : result float :=
  if is_nan r then Raise (ValueError "math domain error")
  else if is_inf r then
    if eqb x zero then Raise (ValueError "math domain error")
    else Raise (OverflowError "math range error")
  else Ok r.

(** [math.pow] ([math_pow_impl]): C's [pow] is called on finite operands
    only. *)
Definition math_pow (x y : float) : result float :=
  if negb (is_finite x) || negb (is_finite y) then Ok (pow_special x y)
  else pow_outcome x (Libm.pow libm_pow x y).

End Pow.

End Python.

(** ** calculator_server.py *)

Module Calculator.
Import Float64 Python.

Definition add (a b : float) : result float := Ok (Float64.add a b).

Definition subtract (a b : float) : result float := Ok (Float64.sub a b).

Definition multiply (a b : float) : result float := Ok (Float64.mul a b).

Definition divide (a b : float) : result float :=
  if eqb b (of_int 0) then Raise (ValueError "Cannot divide by zero")
  else truediv a b.

Definition power (libm_pow : float -> float -> float) (base exponent : float)
  : result float :=
  math_pow libm_pow base exponent.

Definition modulo (a b : float) : result float :=
  if eqb b (of_int 0) then Raise (ValueError "Cannot perform modulo with zero divisor")
  else rem a b.

Definition square_root (number : float) : result float :=
  if ltb number (of_int 0) then
    Raise (ValueError "Cannot calculate square root of a negative number")
  else math_sqrt number.

Definition absolute (number : float) : result float := Ok (Float64.abs number).

Definition percentage (value percent : float) : result float :=
  truediv (Float64.mul value percent) (of_int 100).

End Calculator.

(** ** Specification of rounding *)

Import Float64.

(** The position of the real [v] relative to [m * 2^e]: on it, or strictly
    between it and [(m + 1) * 2^e], then below, on or above the midpoint. *)
Definition inbetween (m e : Z) (l : location) (v : R) : Prop :=
  match l with
  | loc_Exact => v = (IZR m * bpow e)%R
  | loc_Inexact c =>
      (IZR m * bpow e < v < (IZR m + 1) * bpow e)%R /\
      match c with
      | Lt => (v < (IZR m + / 2) * bpow e)%R
      | Eq => (v = (IZR m + / 2) * bpow e)%R
      | Gt => ((IZR m + / 2) * bpow e < v)%R
      end
  end.

Definition inb (mrs : shr_record) (e : Z) (v : R) : Prop :=
  inbetween (shr_m mrs) e (loc_of_shr_record mrs) v.

(** What [binary_round_aux] may return for the integer [m2] chosen at
    exponent [e1]. *)
Inductive rounded (sx : bool) (e1 m2 : Z) : float -> Prop :=
  | rounded_zero : m2 = 0 -> rounded sx e1 m2 (S754_zero sx)
  | rounded_finite m e :
      e1 <= e -> Zpos m * 2 ^ (e - e1) = m2 ->
      bounded prec emax m e = true ->
      rounded sx e1 m2 (S754_finite sx m e)
  | rounded_infinity :
      (bpow emax <= IZR m2 * bpow e1)%R ->
      rounded sx e1 m2 (S754_infinity sx).

(** ** Specification of correct rounding *)

(** Whether the mantissa of a float is even; a zero counts as even. *)
Definition even_mantissa (x : float) : bool :=
  match x with
  | S754_finite _ m _ => Z.even (Zpos m)
  | _ => true
  end.

(** The float [r] is the real [x] rounded to nearest, ties to even: [r] is
    a finite float, no finite float is nearer to [x], and if another one is
    as near, the mantissa of [r] is even. *)
Definition correctly_rounded (x : R) (r : float) : Prop :=
  valid r = true /\ is_finite r = true /\
  (forall f, valid f = true -> is_finite f = true ->
     (Rabs (B2R r - x) <= Rabs (B2R f - x))%R) /\
  (forall f, valid f = true -> is_finite f = true -> B2R f <> B2R r ->
     Rabs (B2R f - x) = Rabs (B2R r - x) -> even_mantissa r = true).

(** The float [r] is what an IEEE 754 operation returns for the exact
    result [x]: [r] is finite exactly when [x] is below the overflow
    threshold (the largest float and half a unit in its last place,
    [2^1024 - 2^970]); a finite [r] is [x] correctly rounded; and an [r]
    that is not finite is the infinity of the sign of [x]. *)
Definition rounds_to (x : R) (r : float) : Prop :=
  (is_finite r = true <-> (Rabs x < bpow 1024 - bpow 970)%R) /\
  (is_finite r = true -> correctly_rounded x r) /\
  (is_finite r = false ->
   exists s, r = S754_infinity s /\ x = (sgn s * Rabs x)%R).

(** * Properties *)

Import Python.

(** ** Signs and NaN-freedom of rounding *)

Section RoundingSigns.

Variables prec emax : Z.

Lemma iter_pos_inv {A : Type} (P : A -> Prop) (f : A -> A) :
  (forall x, P x -> P (f x)) ->
  forall n x, P x -> P (iter_pos f n x).
Proof.
  intros Hf. induction n as [n IH | n IH | ]; intros x Hx; simpl; auto.
Qed.

Lemma shr_1_nonneg mrs : 0 <= shr_m mrs -> 0 <= shr_m (shr_1 mrs).
Proof.
  destruct mrs as [m r s]. simpl.
  destruct m as [ | [p | p | ] | p]; simpl; lia.
Qed.

Lemma shr_nonneg mrs e n : 0 <= shr_m mrs -> 0 <= shr_m (fst (shr mrs e n)).
Proof.
  intros H. destruct n as [ | p | p]; simpl; auto.
  apply (iter_pos_inv (fun r => 0 <= shr_m r)); auto using shr_1_nonneg.
Qed.

Lemma shr_record_of_loc_m m l : shr_m (shr_record_of_loc m l) = m.
Proof. destruct l as [ | [ | | ]]; reflexivity. Qed.

Lemma shr_fexp_nonneg m e l :
  0 <= m -> 0 <= shr_m (fst (shr_fexp prec emax m e l)).
Proof.
  intros H. unfold shr_fexp. apply shr_nonneg.
  now rewrite shr_record_of_loc_m.
Qed.

Lemma round_nearest_even_nonneg m l : 0 <= m -> 0 <= round_nearest_even m l.
Proof.
  intros H. destruct l as [ | [ | | ]]; simpl; try lia.
  destruct (Z.even m); lia.
Qed.

(** Rounding a non-negative mantissa never gives a NaN and keeps the sign
    it was given. *)
Lemma binary_round_aux_sign sx mx ex lx :
  0 <= mx -> sign (binary_round_aux prec emax sx mx ex lx) = Some sx.
Proof.
  intros H. unfold binary_round_aux.
  pose proof (shr_fexp_nonneg mx ex lx H) as H1.
  destruct (shr_fexp prec emax mx ex lx) as [mrs' e']. simpl in H1.
  pose proof (shr_fexp_nonneg _ e' loc_Exact
                (round_nearest_even_nonneg _ (loc_of_shr_record mrs') H1)) as H2.
  destruct (shr_fexp prec emax _ e' loc_Exact) as [mrs'' e'']. simpl in H2.
  destruct (shr_m mrs'') as [ | m | m]; try lia; simpl; auto.
  destruct (e'' <=? emax - prec); reflexivity.
Qed.

Lemma binary_round_sign sx mx ex :
  sign (binary_round prec emax sx mx ex) = Some sx.
Proof.
  unfold binary_round.
  destruct (shl_align mx ex _) as [mz ez].
  apply binary_round_aux_sign. lia.
Qed.

Lemma binary_normalize_sign m e sz :
  m <> 0 -> sign (binary_normalize prec emax m e sz) = Some (m <? 0).
Proof.
  intros H. destruct m as [ | p | p]; simpl; try congruence;
    apply binary_round_sign.
Qed.

End RoundingSigns.

(** ** Alignment of mantissas *)

Lemma pos_iter_xO m d : Zpos (Pos.iter xO m d) = Zpos m * 2 ^ Zpos d.
Proof.
  rewrite <- Z.shiftl_mul_pow2 by lia. simpl.
  apply (Pos.iter_swap_gen _ _ Zpos xO (Z.mul 2)). reflexivity.
Qed.

Lemma shl_align_le m e e' :
  e' <= e -> shl_align m e e' = (Z.to_pos (Zpos m * 2 ^ (e - e')), e').
Proof.
  intros H. unfold shl_align.
  destruct (e' - e) as [ | d | d] eqn:E; try lia.
  - replace (e - e') with 0 by lia. replace e' with e by lia.
    now rewrite Z.mul_1_r.
  - replace (e - e') with (Zpos d) by lia.
    now rewrite <- pos_iter_xO.
Qed.

Lemma shl_align_gt m e e' : e < e' -> shl_align m e e' = (m, e).
Proof.
  intros H. unfold shl_align.
  destruct (e' - e) as [ | d | d] eqn:E; try lia; reflexivity.
Qed.

Lemma shl_align_fst m e e' :
  e' <= e -> Zpos (fst (shl_align m e e')) = Zpos m * 2 ^ (e - e').
Proof.
  intros H. rewrite shl_align_le by assumption. cbn [fst].
  rewrite Z2Pos.id; [reflexivity | ].
  apply Z.mul_pos_pos; [lia | apply Z.pow_pos_nonneg; lia].
Qed.

(** ** Rounding to nearest, ties to even *)

Lemma bpow_gt_0 e : (0 < bpow e)%R.
Proof. apply powerRZ_lt. lra. Qed.

Lemma bpow_plus a b : bpow (a + b) = (bpow a * bpow b)%R.
Proof. apply powerRZ_add. lra. Qed.

Lemma bpow_1 : bpow 1 = 2%R.
Proof. unfold bpow. simpl. lra. Qed.

Lemma bpow_0 : bpow 0 = 1%R.
Proof. reflexivity. Qed.

Lemma bpow_succ e : bpow (e + 1) = (2 * bpow e)%R.
Proof. rewrite bpow_plus, bpow_1. ring. Qed.

Lemma bpow_pred e : bpow (e - 1) = (bpow e / 2)%R.
Proof.
  replace e with ((e - 1) + 1) at 2 by lia. rewrite bpow_succ. field.
Qed.

Lemma bpow_le a b : a <= b -> (bpow a <= bpow b)%R.
Proof.
  intros H. replace b with (a + (b - a)) by lia. rewrite bpow_plus.
  assert (1 <= bpow (b - a))%R.
  { assert (0 <= b - a) by lia. revert H0. generalize (b - a).
    apply (natlike_ind (fun z => 1 <= bpow z)%R).
    - rewrite bpow_0. lra.
    - intros x Hx IH. unfold Z.succ. rewrite bpow_succ. lra. }
  pose proof (bpow_gt_0 a). nra.
Qed.

Lemma bpow_lt a b : a < b -> (bpow a < bpow b)%R.
Proof.
  intros H. assert (bpow (a + 1) <= bpow b)%R by (apply bpow_le; lia).
  rewrite bpow_succ in H0. pose proof (bpow_gt_0 a). lra.
Qed.

Lemma IZR_pow2 n : 0 <= n -> IZR (2 ^ n) = bpow n.
Proof.
  revert n. apply natlike_ind.
  - reflexivity.
  - intros x Hx IH. rewrite Z.pow_succ_r by assumption.
    rewrite mult_IZR, IH. unfold Z.succ. rewrite bpow_succ. reflexivity.
Qed.

Lemma loc_of_shr_record_of_loc m l :
  loc_of_shr_record (shr_record_of_loc m l) = l.
Proof. destruct l as [ | [ | | ]]; reflexivity. Qed.

Lemma shr_1_m mrs : 0 <= shr_m mrs -> shr_m (shr_1 mrs) = shr_m mrs / 2.
Proof.
  destruct mrs as [m r s]. cbn [shr_m]. intros Hm.
  rewrite <- Z.div2_div.
  destruct m as [ | [p | p | ] | p]; try lia; reflexivity.
Qed.

Lemma IZR_xI p : IZR (Zpos p~1) = (2 * IZR (Zpos p) + 1)%R.
Proof. change (Zpos p~1) with (2 * Zpos p + 1). now rewrite plus_IZR, mult_IZR. Qed.

Lemma IZR_xO p : IZR (Zpos p~0) = (2 * IZR (Zpos p))%R.
Proof. change (Zpos p~0) with (2 * Zpos p). now rewrite mult_IZR. Qed.

Lemma shr_1_inb mrs e v :
  0 <= shr_m mrs -> inb mrs e v -> inb (shr_1 mrs) (e + 1) v.
Proof.
  destruct mrs as [m r s]. unfold inb. cbn [shr_m]. intros Hm H.
  pose proof (bpow_gt_0 e) as Hb.
  destruct m as [ | [p | p | ] | p]; try lia.
  - destruct r, s; cbn in *; rewrite bpow_succ; lra.
  - destruct r, s; cbn -[IZR] in *; rewrite IZR_xI in H; rewrite bpow_succ; nra.
  - destruct r, s; cbn -[IZR] in *; rewrite IZR_xO in H; rewrite bpow_succ; nra.
  - destruct r, s; cbn in *; rewrite bpow_succ; lra.
Qed.

Lemma shr_iter_m p : forall mrs,
  0 <= shr_m mrs -> shr_m (iter_pos shr_1 p mrs) = shr_m mrs / 2 ^ Zpos p.
Proof.
  assert (Hnn : forall m k, 0 <= m -> 0 <= m / 2 ^ Zpos k)
    by (intros; apply Z.div_pos; [lia | apply Z.pow_pos_nonneg; lia]).
  induction p as [p IH | p IH | ]; intros mrs Hm; cbn [iter_pos].
  - pose proof (shr_1_m _ Hm) as M1.
    assert (Hm1 : 0 <= shr_m (shr_1 mrs)) by (rewrite M1; apply Z.div_pos; lia).
    pose proof (IH _ Hm1) as M2.
    assert (Hm2 : 0 <= shr_m (iter_pos shr_1 p (shr_1 mrs))) by (rewrite M2; auto).
    rewrite (IH _ Hm2), M2, M1.
    rewrite !Z.div_div by (try apply Z.pow_pos_nonneg; lia).
    f_equal. replace (Zpos p~1) with (1 + Zpos p + Zpos p) by lia.
    rewrite !Z.pow_add_r by lia. lia.
  - pose proof (IH _ Hm) as M2.
    assert (Hm2 : 0 <= shr_m (iter_pos shr_1 p mrs)) by (rewrite M2; auto).
    rewrite (IH _ Hm2), M2.
    rewrite !Z.div_div by (try apply Z.pow_pos_nonneg; lia).
    f_equal. replace (Zpos p~0) with (Zpos p + Zpos p) by lia.
    rewrite !Z.pow_add_r by lia. lia.
  - now apply shr_1_m.
Qed.

Lemma shr_iter_nonneg p mrs :
  0 <= shr_m mrs -> 0 <= shr_m (iter_pos shr_1 p mrs).
Proof.
  intros Hm. rewrite shr_iter_m by assumption.
  apply Z.div_pos; [lia | apply Z.pow_pos_nonneg; lia].
Qed.

Lemma shr_iter_inb v p : forall mrs e,
  0 <= shr_m mrs -> inb mrs e v -> inb (iter_pos shr_1 p mrs) (e + Zpos p) v.
Proof.
  induction p as [p IH | p IH | ]; intros mrs e Hm H; cbn [iter_pos].
  - replace (e + Zpos p~1) with (e + 1 + Zpos p + Zpos p) by lia.
    assert (Hm1 : 0 <= shr_m (shr_1 mrs)) by (rewrite shr_1_m by assumption; apply Z.div_pos; lia).
    apply IH; [now apply shr_iter_nonneg | ].
    apply IH; [assumption | ]. now apply shr_1_inb.
  - replace (e + Zpos p~0) with (e + Zpos p + Zpos p) by lia.
    apply IH; [now apply shr_iter_nonneg | ]. now apply IH.
  - now apply shr_1_inb.
Qed.

Lemma shr_value m e l n :
  0 <= m ->
  shr_m (fst (shr (shr_record_of_loc m l) e n)) = m / 2 ^ Z.max n 0 /\
  snd (shr (shr_record_of_loc m l) e n) = e + Z.max n 0.
Proof.
  intros Hm. destruct n as [ | p | p]; cbn [shr fst snd].
  - rewrite shr_record_of_loc_m, Z.div_1_r. split; [reflexivity | lia].
  - rewrite shr_iter_m, shr_record_of_loc_m by now rewrite shr_record_of_loc_m.
    split; reflexivity.
  - rewrite shr_record_of_loc_m, Z.div_1_r. split; [reflexivity | lia].
Qed.

Lemma shr_correct m e l n v :
  0 <= m -> 0 <= n -> inbetween m e l v ->
  inb (fst (shr (shr_record_of_loc m l) e n)) (e + n) v.
Proof.
  intros Hm Hn H.
  assert (H0 : inb (shr_record_of_loc m l) e v)
    by (unfold inb; now rewrite shr_record_of_loc_m, loc_of_shr_record_of_loc).
  destruct n as [ | p | p]; try lia; cbn [shr fst snd].
  - now rewrite Z.add_0_r.
  - apply shr_iter_inb; [now rewrite shr_record_of_loc_m | assumption].
Qed.

(** *** Number of binary digits *)
Lemma digits2_pos_spec p :
  2 ^ (Zpos (digits2_pos p) - 1) <= Zpos p < 2 ^ Zpos (digits2_pos p).
Proof.
  induction p as [p IH | p IH | ]; cbn [digits2_pos].
  - rewrite Pos2Z.inj_succ. unfold Z.succ.
    replace (Zpos (digits2_pos p) + 1 - 1) with (Zpos (digits2_pos p) - 1 + 1) by lia.
    rewrite !Z.pow_add_r by lia. change (2 ^ 1) with 2. lia.
  - rewrite Pos2Z.inj_succ. unfold Z.succ.
    replace (Zpos (digits2_pos p) + 1 - 1) with (Zpos (digits2_pos p) - 1 + 1) by lia.
    rewrite !Z.pow_add_r by lia. change (2 ^ 1) with 2. lia.
  - simpl. lia.
Qed.

Lemma Zdigits2_spec m : 0 < m -> 2 ^ (Zdigits2 m - 1) <= m < 2 ^ Zdigits2 m.
Proof. destruct m as [ | p | p]; try lia. intros _. apply digits2_pos_spec. Qed.

Lemma Zdigits2_pos m : 0 < m -> 0 < Zdigits2 m.
Proof. destruct m; simpl; lia. Qed.

Lemma Zdigits2_unique m k : 0 < m -> 2 ^ (k - 1) <= m < 2 ^ k -> Zdigits2 m = k.
Proof.
  intros Hm Hk. pose proof (Zdigits2_spec m Hm) as Hd.
  pose proof (Zdigits2_pos m Hm) as Hp.
  assert (Hk1 : 0 < k).
  { destruct (Z_lt_le_dec 0 k) as [ | Hk0]; [assumption | exfalso].
    assert (2 ^ k <= 2 ^ 0) by (apply Z.pow_le_mono_r; lia).
    change (2 ^ 0) with 1 in H. lia. }
  destruct (Z.lt_trichotomy (Zdigits2 m) k) as [Hlt | [Heq | Hgt]]; [ | assumption | ]; exfalso.
  - assert (2 ^ Zdigits2 m <= 2 ^ (k - 1)) by (apply Z.pow_le_mono_r; lia). lia.
  - assert (2 ^ k <= 2 ^ (Zdigits2 m - 1)) by (apply Z.pow_le_mono_r; lia). lia.
Qed.

Lemma Zdigits2_div_pow2 m n :
  0 < m -> 0 <= n -> 0 < m / 2 ^ n -> Zdigits2 (m / 2 ^ n) = Zdigits2 m - n.
Proof.
  intros Hm Hn Hq. pose proof (Zdigits2_spec m Hm) as Hd.
  assert (Hp : 0 < 2 ^ n) by (apply Z.pow_pos_nonneg; lia).
  assert (Hge : 2 ^ n <= m).
  { destruct (Z_lt_le_dec m (2 ^ n)); [ | assumption].
    rewrite Z.div_small in Hq by lia. lia. }
  assert (Hdn : n < Zdigits2 m).
  { destruct (Z_lt_le_dec n (Zdigits2 m)); [assumption | exfalso].
    assert (2 ^ Zdigits2 m <= 2 ^ n) by (apply Z.pow_le_mono_r; lia). lia. }
  apply Zdigits2_unique; [assumption | split].
  - apply Z.div_le_lower_bound; [assumption | ].
    rewrite <- Z.pow_add_r by lia.
    replace (n + (Zdigits2 m - n - 1)) with (Zdigits2 m - 1) by lia. lia.
  - apply Z.div_lt_upper_bound; [assumption | ].
    rewrite <- Z.pow_add_r by lia.
    replace (n + (Zdigits2 m - n)) with (Zdigits2 m) by lia. lia.
Qed.

Lemma Zdigits2_pow2 k : 0 <= k -> Zdigits2 (2 ^ k) = k + 1.
Proof.
  intros Hk. apply Zdigits2_unique.
  - apply Z.pow_pos_nonneg; lia.
  - replace (k + 1 - 1) with k by lia. split; [lia | ].
    apply Z.pow_lt_mono_r; lia.
Qed.

Lemma Zdigits2_mul_pow2 m k :
  0 < m -> 0 <= k -> Zdigits2 (m * 2 ^ k) = Zdigits2 m + k.
Proof.
  intros Hm Hk. pose proof (Zdigits2_spec m Hm) as Hd.
  pose proof (Zdigits2_pos m Hm) as Hp.
  assert (0 < 2 ^ k) by (apply Z.pow_pos_nonneg; lia).
  apply Zdigits2_unique; [nia | ].
  replace (Zdigits2 m + k - 1) with ((Zdigits2 m - 1) + k) by lia.
  rewrite !Z.pow_add_r by lia. nia.
Qed.

(** *** Choice of the nearest mantissa *)
Lemma round_nearest_even_correct m e l v :
  inbetween m e l v ->
  (round_nearest_even m l = m \/ round_nearest_even m l = m + 1) /\
  (Rabs (IZR (round_nearest_even m l) * bpow e - v) <= bpow e / 2)%R /\
  (l = loc_Exact -> (IZR (round_nearest_even m l) * bpow e = v)%R).
Proof.
  intros H. pose proof (bpow_gt_0 e) as Hb.
  destruct l as [ | [ | | ]]; cbn [round_nearest_even inbetween] in *.
  - split; [auto | split; [ | auto]].
    rewrite H. unfold Rminus. rewrite Rplus_opp_r, Rabs_R0. lra.
  - destruct H as [H1 H2].
    destruct (Z.even m); (split; [auto | split; [ | discriminate]]).
    + rewrite H2. apply Rabs_le. nra.
    + rewrite H2, plus_IZR. apply Rabs_le. nra.
  - destruct H as [H1 H2].
    split; [auto | split; [ | discriminate]]. apply Rabs_le. nra.
  - destruct H as [H1 H2].
    split; [auto | split; [ | discriminate]]. rewrite plus_IZR. apply Rabs_le. nra.
Qed.

(** On a tie the even mantissa is chosen. *)
Lemma round_nearest_even_tie m e l v :
  inbetween m e l v ->
  Rabs (IZR (round_nearest_even m l) * bpow e - v) = (bpow e / 2)%R ->
  Z.even (round_nearest_even m l) = true.
Proof.
  intros H T. pose proof (bpow_gt_0 e) as Hb.
  destruct l as [ | [ | | ]]; cbn [round_nearest_even inbetween] in *.
  - exfalso. rewrite H in T. unfold Rminus in T.
    rewrite Rplus_opp_r, Rabs_R0 in T. lra.
  - destruct (Z.even m) eqn:E; [exact E | ].
    now rewrite Z.even_add, E.
  - exfalso. destruct H as [H1 H2]. rewrite Rabs_left in T; nra.
  - exfalso. destruct H as [H1 H2]. rewrite plus_IZR in T.
    rewrite Rabs_right in T; nra.
Qed.

Lemma fexp_eq k : fexp prec emax k = Z.max (k - 53) (-1074).
Proof. reflexivity. Qed.

(** The second shift of [binary_round_aux]: it only undoes a carry. *)
Lemma shr_fexp_carry m e :
  0 < m ->
  fexp prec emax (Zdigits2 m + e) = e \/
  (fexp prec emax (Zdigits2 m + e) = e + 1 /\ exists k, 1 <= k /\ m = 2 ^ k) ->
  exists m3 e3,
    shr_m (fst (shr_fexp prec emax m e loc_Exact)) = Zpos m3 /\
    snd (shr_fexp prec emax m e loc_Exact) = e3 /\
    e <= e3 /\ Zpos m3 * 2 ^ (e3 - e) = m /\
    canonical_mantissa prec emax m3 e3 = true.
Proof.
  intros Hm H. unfold shr_fexp.
  destruct (shr_value m e loc_Exact (fexp prec emax (Zdigits2 m + e) - e)) as [M S]; [lia | ].
  rewrite M, S. clear M S.
  destruct H as [H | (H & k & Hk & ->)]; rewrite H.
  - replace (e - e) with 0 by lia. change (Z.max 0 0) with 0. rewrite Z.div_1_r.
    destruct m as [ | p | p]; try lia.
    exists p, e.
    split; [reflexivity | split; [lia | split; [lia | split]]].
    + rewrite Z.sub_diag. lia.
    + unfold canonical_mantissa. apply Z.eqb_eq. exact H.
  - replace (e + 1 - e) with 1 by lia. change (Z.max 1 0) with 1. change (2 ^ 1) with 2.
    assert (E2 : 2 ^ k = 2 ^ (k - 1) * 2).
    { replace k with ((k - 1) + 1) at 1 by lia. now rewrite Z.pow_add_r by lia. }
    assert (Hp : 0 < 2 ^ (k - 1)) by (apply Z.pow_pos_nonneg; lia).
    rewrite Zdigits2_pow2 in H by lia.
    assert (D : Zdigits2 (2 ^ (k - 1)) = k)
      by (rewrite Zdigits2_pow2 by lia; lia).
    destruct (2 ^ (k - 1)) as [ | p | p] eqn:E; try lia.
    exists p, (e + 1).
    split; [ | split; [lia | split; [lia | split]]].
    + rewrite E2. apply Z.div_mul. lia.
    + replace (e + 1 - e) with 1 by lia. rewrite E2. reflexivity.
    + unfold canonical_mantissa. apply Z.eqb_eq.
      change (Zpos (digits2_pos p)) with (Zdigits2 (Zpos p)). rewrite D.
      rewrite <- H. f_equal. lia.
Qed.

(** After the first shift and the nearest-even choice the mantissa fits, up
    to a carry. *)
Lemma round_digits mx ex m2 :
  0 <= mx ->
  let e1 := fexp prec emax (Zdigits2 mx + ex) in
  ex <= e1 ->
  0 < m2 ->
  m2 = mx / 2 ^ (e1 - ex) \/ m2 = mx / 2 ^ (e1 - ex) + 1 ->
  fexp prec emax (Zdigits2 m2 + e1) = e1 \/
  (fexp prec emax (Zdigits2 m2 + e1) = e1 + 1 /\ exists k, 1 <= k /\ m2 = 2 ^ k).
Proof.
  intros Hmx e1 He Hm2 H.
  set (n := e1 - ex) in *. assert (Hn : 0 <= n) by lia.
  assert (Hp : 0 < 2 ^ n) by (apply Z.pow_pos_nonneg; lia).
  set (m1 := mx / 2 ^ n) in *.
  assert (Hm1 : 0 <= m1) by (apply Z.div_pos; lia).
  destruct (Z.eq_dec m1 0) as [Hz | Hnz].
  - (* everything was shifted out: the result is the least subnormal *)
    assert (m2 = 1) by lia. subst m2. left.
    assert (E1 : e1 = -1074).
    { destruct (Z.eq_dec mx 0) as [-> | Hx].
      - unfold e1 in *. cbn [Zdigits2] in *. rewrite fexp_eq in *. lia.
      - pose proof (Zdigits2_spec mx ltac:(lia)) as Hd.
        assert (mx < 2 ^ n).
        { destruct (Z_lt_le_dec mx (2 ^ n)); [assumption | exfalso].
          assert (1 <= m1) by (apply Z.div_le_lower_bound; lia). lia. }
        assert (Zdigits2 mx <= n).
        { destruct (Z_le_gt_dec (Zdigits2 mx) n); [assumption | exfalso].
          assert (2 ^ n <= 2 ^ (Zdigits2 mx - 1)) by (apply Z.pow_le_mono_r; lia). lia. }
        unfold n, e1 in *. rewrite fexp_eq in *. lia. }
    rewrite E1. reflexivity.
  - assert (D1 : Zdigits2 m1 = Zdigits2 mx - n).
    { apply Zdigits2_div_pow2; try lia.
      destruct (Z.eq_dec mx 0) as [-> | ]; [ | lia].
      unfold m1 in Hnz. rewrite Z.div_0_l in Hnz; lia. }
    assert (F1 : fexp prec emax (Zdigits2 m1 + e1) = e1).
    { rewrite D1. unfold n. replace (Zdigits2 mx - (e1 - ex) + e1) with (Zdigits2 mx + ex) by lia.
      reflexivity. }
    destruct H as [-> | ->]; [now left | ].
    pose proof (Zdigits2_spec m1 ltac:(lia)) as Hd.
    pose proof (Zdigits2_pos m1 ltac:(lia)) as Hdp.
    destruct (Z.eq_dec (m1 + 1) (2 ^ Zdigits2 m1)) as [Hc | Hc].
    + rewrite Hc. rewrite Zdigits2_pow2 by lia.
      rewrite fexp_eq in *.
      destruct (Z.eq_dec (Z.max (Zdigits2 m1 + 1 + e1 - 53) (-1074)) e1) as [ | Hne];
        [now left | right].
      split; [lia | ]. exists (Zdigits2 m1). split; [lia | reflexivity].
    + left. replace (Zdigits2 (m1 + 1)) with (Zdigits2 m1); [assumption | ].
      symmetry. apply Zdigits2_unique; lia.
Qed.

Lemma IZR_mul_pow2 m k e :
  0 <= k -> (IZR (m * 2 ^ k) * bpow e = IZR m * bpow (e + k))%R.
Proof.
  intros Hk. rewrite mult_IZR, IZR_pow2, bpow_plus by assumption. ring.
Qed.

(** What [binary_round_aux] returns: the mantissa [m2] chosen at the
    exponent [e1] is within half a unit of the value, the result has an
    even mantissa on a tie, and it is [m2] at [e1] up to normalisation. *)
Theorem binary_round_aux_spec sx mx ex lx v :
  0 <= mx -> ex <= fexp prec emax (Zdigits2 mx + ex) -> inbetween mx ex lx v ->
  exists m2,
    0 <= m2 /\
    (Rabs (IZR m2 * bpow (fexp prec emax (Zdigits2 mx + ex)) - v)
       <= bpow (fexp prec emax (Zdigits2 mx + ex)) / 2)%R /\
    (Rabs (IZR m2 * bpow (fexp prec emax (Zdigits2 mx + ex)) - v)
       = (bpow (fexp prec emax (Zdigits2 mx + ex)) / 2)%R ->
     even_mantissa (binary_round_aux prec emax sx mx ex lx) = true) /\
    (lx = loc_Exact -> ex = fexp prec emax (Zdigits2 mx + ex) ->
       (IZR m2 * bpow ex = v)%R) /\
    rounded sx (fexp prec emax (Zdigits2 mx + ex)) m2
      (binary_round_aux prec emax sx mx ex lx).
Proof.
  intros Hmx He Hv. set (e1 := fexp prec emax (Zdigits2 mx + ex)) in *.
  unfold binary_round_aux.
  change (shr_fexp prec emax mx ex lx)
    with (shr (shr_record_of_loc mx lx) ex (e1 - ex)).
  destruct (shr_value mx ex lx (e1 - ex) Hmx) as [M1 S1].
  pose proof (shr_correct mx ex lx (e1 - ex) v Hmx ltac:(lia) Hv) as I1.
  assert (X1 : lx = loc_Exact -> ex = e1 ->
               loc_of_shr_record (fst (shr (shr_record_of_loc mx lx) ex (e1 - ex))) = loc_Exact).
  { intros -> E. rewrite <- E, Z.sub_diag. reflexivity. }
  destruct (shr (shr_record_of_loc mx lx) ex (e1 - ex)) as [mrs1 e1'].
  cbn [fst snd] in *. rewrite Z.max_l in * by lia.
  replace (ex + (e1 - ex)) with e1 in * by lia. subst e1'.
  unfold inb in I1.
  destruct (round_nearest_even_correct _ _ _ _ I1) as (C2 & E2 & X2).
  pose proof (round_nearest_even_tie _ _ _ _ I1) as T2.
  set (m2 := round_nearest_even (shr_m mrs1) (loc_of_shr_record mrs1)) in *.
  assert (Hm1 : 0 <= shr_m mrs1) by (rewrite M1; apply Z.div_pos; [lia | apply Z.pow_pos_nonneg; lia]).
  exists m2. split; [lia | split; [exact E2 | ]].
  assert (X : lx = loc_Exact -> ex = e1 -> (IZR m2 * bpow ex)%R = v).
  { intros Hl Hex. rewrite Hex. apply X2. now apply X1. }
  destruct (Z.eq_dec m2 0) as [Hz | Hnz].
  - assert (E0 : shr_m (fst (shr_fexp prec emax m2 e1 loc_Exact)) = 0).
    { rewrite Hz. unfold shr_fexp.
      destruct (shr_value 0 e1 loc_Exact (fexp prec emax (Zdigits2 0 + e1) - e1))
        as [M3 _]; [lia | ].
      rewrite M3. apply Z.div_0_l, Z.pow_nonzero; lia. }
    destruct (shr_fexp prec emax m2 e1 loc_Exact) as [mrs3 e3].
    cbn [fst] in E0. rewrite E0.
    split; [reflexivity | split; [exact X | now apply rounded_zero]].
  - assert (Hpos : 0 < m2) by lia.
    assert (C2' : m2 = mx / 2 ^ (e1 - ex) \/ m2 = mx / 2 ^ (e1 - ex) + 1)
      by (rewrite <- M1; exact C2).
    pose proof (round_digits mx ex m2 Hmx He Hpos C2') as D.
    fold e1 in D.
    destruct (shr_fexp_carry m2 e1 Hpos D) as (m3 & e3 & M3 & S3 & L3 & V3 & K3).
    destruct (shr_fexp prec emax m2 e1 loc_Exact) as [mrs3 e3'].
    cbn [fst snd] in *. subst e3'. rewrite M3.
    destruct (e3 <=? emax - prec) eqn:B.
    + split; [ | split; [exact X | ]].
      * intros T. specialize (T2 T). cbn [even_mantissa].
        destruct (Z.eq_dec e3 e1) as [-> | Hne].
        { rewrite Z.sub_diag, Z.mul_1_r in V3. now rewrite V3. }
        (* a carry: the mantissa is 2^52 *)
        assert (E1 : -1074 <= e1) by (unfold e1; rewrite fexp_eq; lia).
        unfold canonical_mantissa in K3. apply Z.eqb_eq in K3.
        rewrite fexp_eq in K3.
        assert (D3 : Zdigits2 (Zpos m3) = 53) by (cbn [Zdigits2]; lia).
        assert (D2 : Zdigits2 m2 = 53 + (e3 - e1)).
        { rewrite <- V3, Zdigits2_mul_pow2 by lia. lia. }
        destruct D as [D | (_ & k & Hk & Ek)].
        { exfalso. rewrite fexp_eq in D. lia. }
        rewrite Ek, Zdigits2_pow2 in D2 by lia.
        assert (Zpos m3 = 2 ^ 52).
        { assert (E2' : 2 ^ k = 2 ^ 52 * 2 ^ (e3 - e1)).
          { rewrite <- Z.pow_add_r by lia. f_equal. lia. }
          rewrite Ek, E2' in V3.
          apply Z.mul_cancel_r in V3; [exact V3 | ].
          apply Z.pow_nonzero; lia. }
        now rewrite H.
      * apply rounded_finite with (1 := L3) (2 := V3).
        unfold bounded. now rewrite K3, B.
    + split; [reflexivity | split; [exact X | ]].
      apply rounded_infinity.
      apply Z.leb_gt in B. unfold emax, prec in B.
      unfold canonical_mantissa in K3. apply Z.eqb_eq in K3.
      rewrite fexp_eq in K3.
      pose proof (digits2_pos_spec m3) as Hd.
      assert (Zpos (digits2_pos m3) = 53) by lia.
      rewrite H in Hd. rewrite <- V3.
      rewrite IZR_mul_pow2 by lia. replace (e1 + (e3 - e1)) with e3 by lia.
      assert (bpow 52 <= IZR (Zpos m3))%R.
      { rewrite <- IZR_pow2 by lia. apply IZR_le. change (53 - 1) with 52 in Hd. lia. }
      assert (bpow 972 <= bpow e3)%R by (apply bpow_le; lia).
      change emax with (52 + 972). rewrite bpow_plus.
      pose proof (bpow_gt_0 52). pose proof (bpow_gt_0 972). nra.
Qed.

Theorem binary_round_aux_correct sx mx ex lx v :
  0 <= mx -> ex <= fexp prec emax (Zdigits2 mx + ex) -> inbetween mx ex lx v ->
  exists m2,
    (Rabs (IZR m2 * bpow (fexp prec emax (Zdigits2 mx + ex)) - v)
       <= bpow (fexp prec emax (Zdigits2 mx + ex)) / 2)%R /\
    (lx = loc_Exact -> ex = fexp prec emax (Zdigits2 mx + ex) ->
       (IZR m2 * bpow ex = v)%R) /\
    rounded sx (fexp prec emax (Zdigits2 mx + ex)) m2
      (binary_round_aux prec emax sx mx ex lx).
Proof.
  intros Hmx He Hv.
  destruct (binary_round_aux_spec sx mx ex lx v Hmx He Hv)
    as (m2 & _ & E & _ & X & Rd).
  exists m2. auto.
Qed.

Lemma Rabs_le_inv x a : (Rabs x <= a)%R -> (- a <= x <= a)%R.
Proof. unfold Rabs. destruct (Rcase_abs x); lra. Qed.

Lemma inbetween_lower m e l v : inbetween m e l v -> (IZR m * bpow e <= v)%R.
Proof. destruct l; simpl; [intros ->; lra | intros [[H _] _]; lra]. Qed.

Lemma Rabs_B2R_finite s m e :
  Rabs (B2R (S754_finite s m e)) = (IZR (Zpos m) * bpow e)%R.
Proof.
  cbn [B2R]. pose proof (bpow_gt_0 e) as Hb.
  assert (0 < IZR (Zpos m))%R by (apply IZR_lt; lia).
  destruct s; cbn [cond_Zopp].
  - rewrite opp_IZR. rewrite Rabs_left; nra.
  - rewrite Rabs_right; nra.
Qed.

Lemma rounded_abs sx e1 m2 r :
  0 <= m2 -> rounded sx e1 m2 r -> is_finite r = true ->
  Rabs (B2R r) = (IZR m2 * bpow e1)%R.
Proof.
  intros Hm [Hz | m e He Hv Hb | Hi] Hf; try discriminate.
  - rewrite Hz. cbn [B2R]. rewrite Rabs_R0. lra.
  - rewrite Rabs_B2R_finite. rewrite <- Hv, IZR_mul_pow2 by lia.
    f_equal. f_equal. lia.
Qed.

Lemma rounded_valid sx e1 m2 r : rounded sx e1 m2 r -> valid r = true.
Proof. intros [Hz | m e He Hv Hb | Hi]; auto. Qed.

Lemma rounded_sign sx e1 m2 r : rounded sx e1 m2 r -> sign r = Some sx.
Proof. intros [Hz | m e He Hv Hb | Hi]; auto. Qed.

Lemma bpow_digits_le m : 0 < m -> (bpow (Zdigits2 m - 1) <= IZR m)%R.
Proof.
  intros Hm. pose proof (Zdigits2_spec m Hm) as Hd. pose proof (Zdigits2_pos m Hm).
  rewrite <- IZR_pow2 by lia. apply IZR_le. lia.
Qed.

Lemma IZR_lt_bpow_digits m : 0 < m -> (IZR m < bpow (Zdigits2 m))%R.
Proof.
  intros Hm. pose proof (Zdigits2_spec m Hm) as Hd. pose proof (Zdigits2_pos m Hm).
  rewrite <- IZR_pow2 by lia. apply IZR_lt. lia.
Qed.

(** The standard model of rounding, read off [binary_round_aux_correct]. *)
Theorem binary_round_aux_error sx mx ex lx v :
  0 <= mx -> ex <= fexp prec emax (Zdigits2 mx + ex) -> inbetween mx ex lx v ->
  let r := binary_round_aux prec emax sx mx ex lx in
  valid r = true /\ sign r = Some sx /\
  (is_finite r = true ->
   (Rabs (Rabs (B2R r) - v) <= bpow (fexp prec emax (Zdigits2 mx + ex) - 1))%R) /\
  (is_finite r = true ->
   (Rabs (Rabs (B2R r) - v) <= Rmax (bpow (-53) * v) (bpow (-1075)))%R) /\
  (is_finite r = true -> lx = loc_Exact ->
   ex = fexp prec emax (Zdigits2 mx + ex) -> Rabs (B2R r) = v) /\
  (is_normal r = true ->
   (Rabs (Rabs (B2R r) - v) <= bpow (-53) * Rabs (B2R r))%R) /\
  (is_inf r = true ->
   (bpow emax <= v + Rmax (bpow (-53) * v) (bpow (-1075)))%R).
Proof.
  intros Hmx He Hv r.
  destruct (binary_round_aux_correct sx mx ex lx v Hmx He Hv) as (m2 & E & X & Rd).
  fold r in Rd. set (e1 := fexp prec emax (Zdigits2 mx + ex)) in *.
  assert (Hm2 : 0 <= m2).
  { destruct Rd as [Hz | m e Hle Hval Hb | Hi].
    - lia.
    - rewrite <- Hval. apply Z.mul_nonneg_nonneg; [lia | apply Z.pow_nonneg; lia].
    - pose proof (bpow_gt_0 emax). pose proof (bpow_gt_0 e1).
      apply le_IZR. nra. }
  pose proof (inbetween_lower _ _ _ _ Hv) as Hlow.
  rewrite <- bpow_pred in E.
  split; [exact (rounded_valid _ _ _ _ Rd) | ].
  split; [exact (rounded_sign _ _ _ _ Rd) | ].
  assert (Hulp : (bpow (e1 - 1) <= Rmax (bpow (-53) * v) (bpow (-1075)))%R).
  { destruct (Z.eq_dec e1 (-1074)) as [-> | Hne]; [apply Rmax_r | ].
    eapply Rle_trans; [ | apply Rmax_l].
    assert (Hx : 0 < mx).
    { destruct (Z.eq_dec mx 0) as [-> | ]; [ | lia].
      unfold e1 in *. cbn [Zdigits2] in *. rewrite fexp_eq in *. lia. }
    assert (E1 : e1 - 1 = -53 + (Zdigits2 mx + ex - 1))
      by (unfold e1 in *; rewrite fexp_eq in *; lia).
    rewrite E1, bpow_plus.
    apply Rmult_le_compat_l; [pose proof (bpow_gt_0 (-53)); lra | ].
    replace (Zdigits2 mx + ex - 1) with ((Zdigits2 mx - 1) + ex) by lia.
    rewrite bpow_plus. pose proof (bpow_digits_le mx Hx). pose proof (bpow_gt_0 ex).
    nra. }
  split; [ | split; [ | split; [ | split]]].
  - intros Hf. now rewrite (rounded_abs _ _ _ _ Hm2 Rd Hf).
  - intros Hf. rewrite (rounded_abs _ _ _ _ Hm2 Rd Hf).
    eapply Rle_trans; [exact E | exact Hulp].
  - intros Hf Hl Hex. rewrite (rounded_abs _ _ _ _ Hm2 Rd Hf).
    rewrite <- (X Hl Hex). now rewrite <- Hex.
  - intros Hn.
    destruct Rd as [Hz | m e Hle Hval Hb | Hi]; try discriminate.
    rewrite Rabs_B2R_finite.
    assert (Heq : (IZR (Zpos m) * bpow e = IZR m2 * bpow e1)%R).
    { rewrite <- Hval, IZR_mul_pow2 by lia. f_equal. f_equal. lia. }
    rewrite Heq. eapply Rle_trans; [exact E | ]. rewrite <- Heq.
    cbn [is_normal] in Hn. apply Z.eqb_eq in Hn.
    assert (bpow 52 <= IZR (Zpos m))%R.
    { change 52 with (53 - 1). unfold prec in Hn. rewrite <- Hn.
      apply (bpow_digits_le (Zpos m)). lia. }
    assert (bpow (e1 - 1) <= bpow (e - 1))%R by (apply bpow_le; lia).
    replace (e - 1) with (-53 + (52 + e)) in H0 by lia.
    rewrite !bpow_plus in H0.
    eapply Rle_trans; [exact H0 | ].
    apply Rmult_le_compat_l; [pose proof (bpow_gt_0 (-53)); lra | ].
    apply Rmult_le_compat_r; [pose proof (bpow_gt_0 e); lra | exact H].
  - intros Hi.
    destruct Rd as [Hz | m e Hle Hval Hb | Hinf]; try discriminate.
    apply Rabs_le_inv in E. lra.
Qed.

Lemma B2R_finite s m e :
  B2R (S754_finite s m e) = (sgn s * (IZR (Zpos m) * bpow e))%R.
Proof. cbn [B2R]. destruct s; cbn [cond_Zopp sgn]; [rewrite opp_IZR | ]; ring. Qed.

Lemma B2R_sign r s : sign r = Some s -> B2R r = (sgn s * Rabs (B2R r))%R.
Proof.
  destruct r as [s' | s' | | s' m e]; cbn [sign]; intros H; try discriminate;
    injection H as ->; try (cbn [B2R]; rewrite Rabs_R0; ring).
  rewrite Rabs_B2R_finite. apply B2R_finite.
Qed.

Lemma sgn_xorb a b : sgn (xorb a b) = (sgn a * sgn b)%R.
Proof. destruct a, b; cbn; ring. Qed.

Lemma Rabs_sgn_mult s x : Rabs (sgn s * x) = Rabs x.
Proof.
  destruct s; cbn [sgn].
  - replace (-1 * x)%R with (- x)%R by ring. apply Rabs_Ropp.
  - now rewrite Rmult_1_l.
Qed.

Lemma Rmax_normal v :
  (bpow (-1022) <= v)%R ->
  Rmax (bpow (-53) * v) (bpow (-1075)) = (bpow (-53) * v)%R.
Proof.
  intros H. apply Rmax_left.
  change (-1075) with (-53 + -1022). rewrite bpow_plus.
  apply Rmult_le_compat_l; [pose proof (bpow_gt_0 (-53)); lra | exact H].
Qed.

(** [binary_round] rounds [m * 2^e]; above the subnormal exponent the error
    is relative. *)
Lemma binary_round_error sx mx ex :
  let r := binary_round prec emax sx mx ex in
  let v := (IZR (Zpos mx) * bpow ex)%R in
  valid r = true /\ sign r = Some sx /\
  (is_finite r = true -> -1074 <= ex ->
   (Rabs (Rabs (B2R r) - v) <= bpow (-53) * v)%R).
Proof.
  intros r v. subst r. unfold binary_round.
  set (f := fexp prec emax (Zpos (digits2_pos mx) + ex)) in *.
  assert (Hv0 : (0 < v)%R).
  { unfold v. apply Rmult_lt_0_compat; [apply IZR_lt; lia | apply bpow_gt_0]. }
  destruct (Z_le_gt_dec f ex) as [Hf | Hf].
  - (* the mantissa is aligned to the left: no rounding *)
    assert (Hm : Zpos (fst (shl_align mx ex f)) = Zpos mx * 2 ^ (ex - f))
      by now apply shl_align_fst.
    assert (Hs : snd (shl_align mx ex f) = f) by now rewrite shl_align_le.
    destruct (shl_align mx ex f) as [mz ez]. cbn [fst snd] in *. subst ez.
    assert (Hd : fexp prec emax (Zdigits2 (Zpos mz) + f) = f).
    { rewrite Hm, Zdigits2_mul_pow2 by lia.
      replace (Zdigits2 (Zpos mx) + (ex - f) + f) with (Zpos (digits2_pos mx) + ex)
        by (cbn [Zdigits2]; lia).
      reflexivity. }
    assert (Hin : inbetween (Zpos mz) f loc_Exact v).
    { cbn [inbetween]. unfold v. rewrite Hm, IZR_mul_pow2 by lia.
      f_equal. f_equal. lia. }
    destruct (binary_round_aux_error sx (Zpos mz) f loc_Exact v) as (V & S & _ & _ & X & _);
      [lia | lia | exact Hin | ].
    split; [exact V | split; [exact S | ]].
    intros Hfin _. rewrite X by (auto; now rewrite Hd).
    unfold Rminus. rewrite Rplus_opp_r, Rabs_R0.
    pose proof (bpow_gt_0 (-53)). nra.
  - rewrite shl_align_gt by lia.
    assert (Hin : inbetween (Zpos mx) ex loc_Exact v) by reflexivity.
    destruct (binary_round_aux_error sx (Zpos mx) ex loc_Exact v) as (V & S & _ & E & _);
      [lia | cbn [Zdigits2]; fold f; lia | exact Hin | ].
    split; [exact V | split; [exact S | ]].
    intros Hfin Hex. specialize (E Hfin).
    rewrite Rmax_normal in E; [exact E | ].
    unfold f in Hf. rewrite fexp_eq in Hf.
    pose proof (bpow_digits_le (Zpos mx) ltac:(lia)) as Hd. cbn [Zdigits2] in Hd.
    assert (bpow (-1022) <= bpow (Zpos (digits2_pos mx) - 1 + ex))%R by (apply bpow_le; lia).
    rewrite bpow_plus in H. unfold v. pose proof (bpow_gt_0 ex). nra.
Qed.

Lemma binary_normalize_error m e sz :
  -1074 <= e ->
  let r := binary_normalize prec emax m e sz in
  valid r = true /\
  (is_finite r = true ->
   (Rabs (B2R r - IZR m * bpow e) <= bpow (-53) * Rabs (IZR m * bpow e))%R).
Proof.
  intros He r. pose proof (bpow_gt_0 e) as Hb. pose proof (bpow_gt_0 (-53)) as Hu.
  destruct m as [ | p | p]; cbn [binary_normalize] in r.
  - split; [reflexivity | intros _].
    cbn [B2R r]. rewrite Rmult_0_l, Rminus_0_r, Rabs_R0. lra.
  - destruct (binary_round_error false p e) as (V & S & E). fold r in V, S, E.
    split; [exact V | intros Hf]. specialize (E Hf He).
    rewrite (B2R_sign r false S). cbn [sgn]. rewrite Rmult_1_l.
    assert (0 < IZR (Zpos p))%R by (apply IZR_lt; lia).
    rewrite (Rabs_pos_eq (IZR (Zpos p) * bpow e)) by nra. exact E.
  - destruct (binary_round_error true p e) as (V & S & E). fold r in V, S, E.
    split; [exact V | intros Hf]. specialize (E Hf He).
    rewrite (B2R_sign r true S). cbn [sgn].
    assert (0 < IZR (Zpos p))%R by (apply IZR_lt; lia).
    change (Zneg p) with (- Zpos p). rewrite opp_IZR.
    replace (-1 * Rabs (B2R r) - - IZR (Zpos p) * bpow e)%R
      with (- (Rabs (B2R r) - IZR (Zpos p) * bpow e))%R by ring.
    rewrite Rabs_Ropp.
    replace (- IZR (Zpos p) * bpow e)%R with (- (IZR (Zpos p) * bpow e))%R by ring.
    rewrite Rabs_Ropp, (Rabs_pos_eq (IZR (Zpos p) * bpow e)) by nra. exact E.
Qed.

Lemma bounded_inv m e :
  bounded prec emax m e = true ->
  fexp prec emax (Zpos (digits2_pos m) + e) = e /\ -1074 <= e <= 971.
Proof.
  unfold bounded, canonical_mantissa. intros H.
  apply andb_true_iff in H. destruct H as [H1 H2].
  apply Z.eqb_eq in H1. apply Z.leb_le in H2. unfold emax, prec in H2.
  split; [exact H1 | ]. rewrite fexp_eq in H1. lia.
Qed.

Lemma IZR_cond_Zopp s z : IZR (cond_Zopp s z) = (sgn s * IZR z)%R.
Proof. destruct s; cbn [cond_Zopp sgn]; [rewrite opp_IZR | ]; ring. Qed.

Lemma Rabs_self_le x y u :
  (0 <= u)%R -> x = y -> (Rabs (x - y) <= u * Rabs y)%R.
Proof.
  intros Hu ->. unfold Rminus. rewrite Rplus_opp_r, Rabs_R0.
  pose proof (Rabs_pos y). nra.
Qed.

Theorem add_error x y :
  valid x = true -> valid y = true -> is_finite x = true -> is_finite y = true ->
  valid (add x y) = true /\
  (is_finite (add x y) = true ->
   (Rabs (B2R (add x y) - (B2R x + B2R y)) <= bpow (-53) * Rabs (B2R x + B2R y))%R).
Proof.
  intros Vx Vy Fx Fy. pose proof (bpow_gt_0 (-53)) as Hu.
  destruct x as [sx | sx | | sx mx ex]; try discriminate;
    destruct y as [sy | sy | | sy my ey]; try discriminate.
  - split; [destruct sx, sy; reflexivity | intros _].
    apply Rabs_self_le; [lra | ]. destruct sx, sy; cbn; ring.
  - split; [exact Vy | intros _]. apply Rabs_self_le; [lra | ].
    cbn [add SFadd B2R]. ring.
  - split; [exact Vx | intros _]. apply Rabs_self_le; [lra | ].
    cbn [add SFadd B2R]. ring.
  - cbn [valid valid_binary] in Vx, Vy.
    apply bounded_inv in Vx, Vy. destruct Vx as [_ Vx], Vy as [_ Vy].
    unfold add, SFadd.
    set (ez := Z.min ex ey).
    rewrite (shl_align_fst mx ex ez), (shl_align_fst my ey ez) by (unfold ez; lia).
    set (S := cond_Zopp sx (Zpos mx * 2 ^ (ex - ez)) + cond_Zopp sy (Zpos my * 2 ^ (ey - ez))).
    assert (HS : (IZR S * bpow ez = B2R (S754_finite sx mx ex) + B2R (S754_finite sy my ey))%R).
    { unfold S. rewrite plus_IZR, !IZR_cond_Zopp, !B2R_finite.
      rewrite Rmult_plus_distr_r, !Rmult_assoc.
      rewrite !IZR_mul_pow2 by (unfold ez; lia).
      replace (ez + (ex - ez)) with ex by lia.
      replace (ez + (ey - ez)) with ey by lia. reflexivity. }
    rewrite <- HS. apply binary_normalize_error. unfold ez. lia.
Qed.

Lemma sub_add_opp x y : sub x y = add x (opp y).
Proof.
  destruct x as [sx | sx | | sx mx ex], y as [sy | sy | | sy my ey];
    try reflexivity; destruct sx, sy; reflexivity.
Qed.

Lemma B2R_opp y : B2R (opp y) = (- B2R y)%R.
Proof.
  destruct y as [s | s | | s m e]; cbn [opp SFopp B2R]; try ring.
  destruct s; cbn [negb cond_Zopp]; rewrite ?opp_IZR; ring.
Qed.

Lemma valid_opp y : valid (opp y) = valid y.
Proof. destruct y; reflexivity. Qed.

Lemma is_finite_opp y : is_finite (opp y) = is_finite y.
Proof. destruct y; reflexivity. Qed.

Theorem sub_error x y :
  valid x = true -> valid y = true -> is_finite x = true -> is_finite y = true ->
  valid (sub x y) = true /\
  (is_finite (sub x y) = true ->
   (Rabs (B2R (sub x y) - (B2R x - B2R y)) <= bpow (-53) * Rabs (B2R x - B2R y))%R).
Proof.
  intros Vx Vy Fx Fy. rewrite sub_add_opp.
  unfold Rminus at 2 3. rewrite <- B2R_opp.
  apply add_error; auto; [now rewrite valid_opp | now rewrite is_finite_opp].
Qed.

Lemma Zdigits2_mul_ge a b :
  0 < a -> 0 < b -> Zdigits2 a + Zdigits2 b - 1 <= Zdigits2 (a * b).
Proof.
  intros Ha Hb.
  pose proof (Zdigits2_spec a Ha) as Da. pose proof (Zdigits2_spec b Hb) as Db.
  pose proof (Zdigits2_spec (a * b) ltac:(nia)) as Dab.
  pose proof (Zdigits2_pos a Ha). pose proof (Zdigits2_pos b Hb).
  pose proof (Zdigits2_pos (a * b) ltac:(nia)).
  destruct (Z_le_gt_dec (Zdigits2 a + Zdigits2 b - 1) (Zdigits2 (a * b))) as [ | Hgt];
    [assumption | exfalso].
  assert (2 ^ Zdigits2 (a * b) <= 2 ^ (Zdigits2 a - 1 + (Zdigits2 b - 1)))
    by (apply Z.pow_le_mono_r; lia).
  rewrite Z.pow_add_r in H2 by lia.
  assert (0 < 2 ^ (Zdigits2 a - 1)) by (apply Z.pow_pos_nonneg; lia).
  assert (0 < 2 ^ (Zdigits2 b - 1)) by (apply Z.pow_pos_nonneg; lia).
  nia.
Qed.

(** The product of two finite floats. *)
Theorem mul_error x y :
  valid x = true -> valid y = true -> is_finite x = true -> is_finite y = true ->
  valid (mul x y) = true /\
  (is_finite (mul x y) = true ->
   (Rabs (B2R (mul x y) - B2R x * B2R y)
      <= Rmax (bpow (-53) * Rabs (B2R x * B2R y)) (bpow (-1075)))%R) /\
  (is_normal (mul x y) = true ->
   (Rabs (B2R (mul x y) - B2R x * B2R y) <= bpow (-53) * Rabs (B2R (mul x y)))%R) /\
  (is_inf (mul x y) = true ->
   (bpow emax <= Rabs (B2R x * B2R y)
                 + Rmax (bpow (-53) * Rabs (B2R x * B2R y)) (bpow (-1075)))%R).
Proof.
  intros Vx Vy Fx Fy.
  assert (Hz : forall s, valid (S754_zero s) = true /\
    (is_finite (S754_zero s) = true ->
     (Rabs (B2R (S754_zero s) - 0) <= Rmax (bpow (-53) * Rabs 0) (bpow (-1075)))%R) /\
    (is_normal (S754_zero s) = true ->
     (Rabs (B2R (S754_zero s) - 0) <= bpow (-53) * Rabs (B2R (S754_zero s)))%R) /\
    (is_inf (S754_zero s) = true ->
     (bpow emax <= Rabs 0 + Rmax (bpow (-53) * Rabs 0) (bpow (-1075)))%R)).
  { intros s. split; [reflexivity | split; [intros _ | split; discriminate]].
    cbn [B2R]. rewrite Rminus_0_r, Rabs_R0.
    eapply Rle_trans; [ | apply Rmax_r]. pose proof (bpow_gt_0 (-1075)). lra. }
  destruct x as [sx | sx | | sx mx ex]; try discriminate;
    destruct y as [sy | sy | | sy my ey]; try discriminate;
    cbn [mul SFmul B2R]; rewrite ?Rmult_0_l, ?Rmult_0_r; try apply Hz.
  cbn [valid valid_binary] in Vx, Vy.
  apply bounded_inv in Vx, Vy. destruct Vx as [Cx Bx], Vy as [Cy By].
  set (V := (IZR (Zpos (mx * my)) * bpow (ex + ey))%R).
  assert (HV : (IZR (cond_Zopp sx (Zpos mx)) * bpow ex *
                (IZR (cond_Zopp sy (Zpos my)) * bpow ey)
                = sgn (xorb sx sy) * V)%R).
  { unfold V. rewrite !IZR_cond_Zopp, sgn_xorb, Pos2Z.inj_mul, mult_IZR, bpow_plus. ring. }
  assert (HV0 : (0 <= V)%R).
  { unfold V. apply Rmult_le_pos; [apply IZR_le; lia | pose proof (bpow_gt_0 (ex + ey)); lra]. }
  rewrite HV, Rabs_sgn_mult, (Rabs_pos_eq V HV0).
  assert (HA : ex + ey <= fexp prec emax (Zdigits2 (Zpos (mx * my)) + (ex + ey))).
  { pose proof (Zdigits2_mul_ge (Zpos mx) (Zpos my) ltac:(lia) ltac:(lia)) as Hd.
    change (Zpos mx * Zpos my) with (Zpos (mx * my)) in Hd.
    cbn [Zdigits2] in *. rewrite fexp_eq in *. lia. }
  destruct (binary_round_aux_error (xorb sx sy) (Zpos (mx * my)) (ex + ey) loc_Exact V)
    as (Vr & Sr & _ & E & _ & N & I); [lia | exact HA | reflexivity | ].
  set (r := binary_round_aux prec emax (xorb sx sy) (Zpos (mx * my)) (ex + ey) loc_Exact) in *.
  assert (Hr : (B2R r - sgn (xorb sx sy) * V = sgn (xorb sx sy) * (Rabs (B2R r) - V))%R).
  { rewrite (B2R_sign r _ Sr) at 1. ring. }
  rewrite Hr, Rabs_sgn_mult.
  split; [exact Vr | split; [exact E | split; [exact N | exact I]]].
Qed.

(** ** Division *)

Lemma new_location_correct n k q e :
  0 < n -> 0 <= k < n ->
  inbetween q e (new_location n k) ((IZR q + IZR k / IZR n) * bpow e).
Proof.
  intros Hn Hk. pose proof (bpow_gt_0 e) as Hb.
  assert (HN : (0 < IZR n)%R) by (apply IZR_lt; lia).
  set (t := (IZR k / IZR n)%R).
  assert (Ht : (t * IZR n = IZR k)%R) by (unfold t; field; lra).
  assert (Hlt : forall a b : Z, a < b -> (IZR a < IZR b)%R) by (intros; now apply IZR_lt).
  assert (H2k : IZR (2 * k) = (2 * IZR k)%R) by now rewrite mult_IZR.
  assert (Hbet : k <> 0 ->
            (IZR q * bpow e < (IZR q + t) * bpow e < (IZR q + 1) * bpow e)%R).
  { intros Hk0. assert (Hk1 : (0 < IZR k < IZR n)%R) by (split; apply IZR_lt; lia).
    assert (Ht01 : (0 < t < 1)%R) by (split; nra). split; nra. }
  assert (Hex : k = 0 -> ((IZR q + t) * bpow e = IZR q * bpow e)%R).
  { intros ->. assert (t = 0%R) by (unfold t; field; lra). rewrite H. ring. }
  unfold new_location.
  destruct (Z.even n) eqn:En; unfold new_location_even, new_location_odd;
    destruct (Z.eqb_spec k 0) as [Hk0 | Hk0]; cbn [inbetween]; auto;
    (split; [auto | ]).
  - destruct (Z.compare_spec (2 * k) n) as [Heq | Hl | Hg].
    + assert (t = / 2)%R by (apply (f_equal IZR) in Heq; rewrite H2k in Heq; nra).
      now rewrite H.
    + apply Hlt in Hl. rewrite H2k in Hl. assert (t < / 2)%R by nra. nra.
    + apply Hlt in Hg. rewrite H2k in Hg. assert (/ 2 < t)%R by nra. nra.
  - assert (Hodd : 2 * k <> n).
    { intros <-. rewrite Z.even_mul in En. discriminate. }
    destruct (Z.compare_spec (2 * k + 1) n) as [Heq | Hl | Hg].
    + assert (2 * k < n) by lia. apply Hlt in H. rewrite H2k in H.
      assert (t < / 2)%R by nra. nra.
    + assert (2 * k < n) by lia. apply Hlt in H. rewrite H2k in H.
      assert (t < / 2)%R by nra. nra.
    + assert (n < 2 * k) by lia. apply Hlt in H. rewrite H2k in H.
      assert (/ 2 < t)%R by nra. nra.
Qed.

Lemma Zdigits2_ge_pow2 q k : 0 <= k -> 2 ^ k <= q -> k + 1 <= Zdigits2 q.
Proof.
  intros Hk Hq. assert (0 < 2 ^ k) by (apply Z.pow_pos_nonneg; lia).
  pose proof (Zdigits2_spec q ltac:(lia)) as Hd.
  pose proof (Zdigits2_pos q ltac:(lia)).
  destruct (Z_le_gt_dec (k + 1) (Zdigits2 q)); [assumption | exfalso].
  assert (2 ^ Zdigits2 q <= 2 ^ k) by (apply Z.pow_le_mono_r; lia). lia.
Qed.

Lemma div_core_correct mx ex my ey :
  let '(q, e', l) := SFdiv_core_binary prec emax (Zpos mx) ex (Zpos my) ey in
  0 <= q /\ e' <= fexp prec emax (Zdigits2 q + e') /\
  inbetween q e' l (IZR (Zpos mx) * bpow ex / (IZR (Zpos my) * bpow ey)).
Proof.
  unfold SFdiv_core_binary.
  set (d1 := Zdigits2 (Zpos mx)). set (d2 := Zdigits2 (Zpos my)).
  set (e' := Z.min (fexp prec emax (d1 + ex - (d2 + ey))) (ex - ey)).
  set (s := ex - ey - e').
  assert (Hs : 0 <= s) by (unfold s, e'; lia).
  set (m' := match s with Z0 => Zpos mx | Zpos _ => Z.shiftl (Zpos mx) s | Zneg _ => 0 end).
  assert (Hm' : m' = Zpos mx * 2 ^ s).
  { unfold m'. destruct s as [ | p | p]; try lia.
    now rewrite Z.shiftl_mul_pow2. }
  pose proof (Z_div_mod m' (Zpos my) ltac:(lia)) as Hdm.
  destruct (Z.div_eucl m' (Zpos my)) as [q r]. destruct Hdm as [Hq Hr].
  assert (H2s : 0 < 2 ^ s) by (apply Z.pow_pos_nonneg; lia).
  assert (Hq0 : 0 <= q) by nia.
  pose proof (Zdigits2_spec (Zpos mx) ltac:(lia)) as D1. fold d1 in D1.
  pose proof (Zdigits2_spec (Zpos my) ltac:(lia)) as D2. fold d2 in D2.
  pose proof (Zdigits2_pos (Zpos mx) ltac:(lia)) as P1. fold d1 in P1.
  pose proof (Zdigits2_pos (Zpos my) ltac:(lia)) as P2. fold d2 in P2.
  assert (Dm' : 2 ^ (d1 - 1 + s) <= m').
  { rewrite Hm', Z.pow_add_r by lia. nia. }
  split; [exact Hq0 | split].
  - destruct (Z.eq_dec q 0) as [-> | Hqnz].
    + (* the quotient underflows *)
      assert (d1 - 1 + s < d2).
      { destruct (Z_lt_le_dec (d1 - 1 + s) d2); [assumption | exfalso].
        assert (2 ^ d2 <= 2 ^ (d1 - 1 + s)) by (apply Z.pow_le_mono_r; lia). lia. }
      cbn [Zdigits2]. unfold s, e' in *. rewrite ?fexp_eq in *. lia.
    + assert (Hdq : d1 + s - d2 <= Zdigits2 q).
      { destruct (Z_lt_le_dec (d1 + s - d2 - 1) 0) as [Hneg | Hnn].
        - pose proof (Zdigits2_pos q ltac:(lia)). lia.
        - replace (d1 + s - d2) with ((d1 + s - d2 - 1) + 1) by lia.
          apply Zdigits2_ge_pow2; [assumption | ].
          assert (2 ^ (d1 + s - d2 - 1) < q + 1); [ | lia].
          apply (Z.mul_lt_mono_pos_r (2 ^ d2)); [apply Z.pow_pos_nonneg; lia | ].
          rewrite <- Z.pow_add_r by lia.
          replace (d1 + s - d2 - 1 + d2) with (d1 - 1 + s) by lia. nia. }
      unfold s, e' in *. rewrite ?fexp_eq in *. lia.
  - assert (Hv : (IZR (Zpos mx) * bpow ex / (IZR (Zpos my) * bpow ey)
                  = (IZR q + IZR r / IZR (Zpos my)) * bpow e')%R).
    { assert (Hy : (0 < IZR (Zpos my))%R) by (apply IZR_lt; lia).
      pose proof (bpow_gt_0 ey) as Hey.
      assert (Hm : (IZR (Zpos mx) * bpow s = IZR (Zpos my) * IZR q + IZR r)%R).
      { rewrite <- IZR_pow2, <- mult_IZR, <- Hm', Hq by lia.
        now rewrite plus_IZR, mult_IZR. }
      replace ex with (s + e' + ey) by (unfold s; lia).
      rewrite !bpow_plus.
      replace (IZR (Zpos mx) * (bpow s * bpow e' * bpow ey) / (IZR (Zpos my) * bpow ey))%R
        with ((IZR (Zpos mx) * bpow s) * bpow e' / IZR (Zpos my))%R by (field; lra).
      rewrite Hm. field. lra. }
    rewrite Hv. apply new_location_correct; lia.
Qed.

(** The quotient of two finite non-zero floats. *)
Theorem div_error sx mx ex sy my ey :
  let x := S754_finite sx mx ex in
  let y := S754_finite sy my ey in
  valid (div x y) = true /\
  (is_finite (div x y) = true ->
   (Rabs (B2R (div x y) - B2R x / B2R y)
      <= Rmax (bpow (-53) * Rabs (B2R x / B2R y)) (bpow (-1075)))%R).
Proof.
  intros x y. unfold x, y, div, SFdiv.
  pose proof (div_core_correct mx ex my ey) as Hc.
  destruct (SFdiv_core_binary prec emax (Zpos mx) ex (Zpos my) ey) as [[q e'] l].
  destruct Hc as (Hq & HA & Hin).
  set (V := (IZR (Zpos mx) * bpow ex / (IZR (Zpos my) * bpow ey))%R) in *.
  assert (Hy : (0 < IZR (Zpos my) * bpow ey)%R)
    by (apply Rmult_lt_0_compat; [apply IZR_lt; lia | apply bpow_gt_0]).
  assert (Hx : (0 < IZR (Zpos mx) * bpow ex)%R)
    by (apply Rmult_lt_0_compat; [apply IZR_lt; lia | apply bpow_gt_0]).
  assert (HV0 : (0 <= V)%R).
  { unfold V. apply Rlt_le, Rdiv_lt_0_compat; assumption. }
  assert (HV : (B2R (S754_finite sx mx ex) / B2R (S754_finite sy my ey)
                = sgn (xorb sx sy) * V)%R).
  { rewrite !B2R_finite, sgn_xorb. unfold V.
    revert Hy. generalize (IZR (Zpos my) * bpow ey)%R (IZR (Zpos mx) * bpow ex)%R.
    intros Y X HY. destruct sx, sy; cbn [sgn]; field; lra. }
  rewrite HV, Rabs_sgn_mult, (Rabs_pos_eq V HV0).
  destruct (binary_round_aux_error (xorb sx sy) q e' l V Hq HA Hin)
    as (Vr & Sr & _ & E & _).
  set (r := binary_round_aux prec emax (xorb sx sy) q e' l) in *.
  assert (Hr : (B2R r - sgn (xorb sx sy) * V = sgn (xorb sx sy) * (Rabs (B2R r) - V))%R).
  { rewrite (B2R_sign r _ Sr) at 1. ring. }
  rewrite Hr, Rabs_sgn_mult. split; [exact Vr | exact E].
Qed.

(** ** Square root *)

Lemma sqrt_lt_sq x y : (0 <= x)%R -> (0 <= y)%R -> (x < y * y)%R -> (R_sqrt.sqrt x < y)%R.
Proof.
  intros Hx Hy H. rewrite <- (sqrt_square y Hy). apply sqrt_lt_1_alt. lra.
Qed.

Lemma sq_lt_sqrt x y : (0 <= y)%R -> (y * y < x)%R -> (y < R_sqrt.sqrt x)%R.
Proof.
  intros Hy H. rewrite <- (sqrt_square y Hy) at 1. apply sqrt_lt_1_alt. nra.
Qed.

Lemma div2_bounds k : 2 * Z.div2 k <= k <= 2 * Z.div2 k + 1.
Proof. rewrite Z.div2_div. Z.to_euclidean_division_equations. lia. Qed.

Lemma Zdigits2_sqrt m q r :
  0 < m -> m = q * q + r -> 0 <= r <= 2 * q ->
  Zdigits2 q = Z.div2 (Zdigits2 m + 1).
Proof.
  intros Hm Hq Hr. pose proof (Zdigits2_spec m Hm) as Hd.
  pose proof (Zdigits2_pos m Hm) as Hp.
  set (k := Zdigits2 m) in *. set (c := Z.div2 (k + 1)).
  assert (Hc : 2 * c - 1 <= k <= 2 * c)
    by (pose proof (div2_bounds (k + 1)); unfold c; lia).
  assert (Hc1 : 1 <= c) by lia.
  assert (P1 : 2 ^ (2 * c) = 2 ^ c * 2 ^ c)
    by (rewrite <- Z.pow_add_r by lia; f_equal; lia).
  assert (P2 : 2 ^ (2 * c - 2) = 2 ^ (c - 1) * 2 ^ (c - 1))
    by (rewrite <- Z.pow_add_r by lia; f_equal; lia).
  assert (L1 : 2 ^ k <= 2 ^ (2 * c)) by (apply Z.pow_le_mono_r; lia).
  assert (L2 : 2 ^ (2 * c - 2) <= 2 ^ (k - 1)) by (apply Z.pow_le_mono_r; lia).
  assert (Q1 : 0 < 2 ^ c) by (apply Z.pow_pos_nonneg; lia).
  assert (Q2 : 0 < 2 ^ (c - 1)) by (apply Z.pow_pos_nonneg; lia).
  assert (Hq0 : 0 < q).
  { destruct (Z.eq_dec q 0) as [-> | ]; lia. }
  apply Zdigits2_unique; [assumption | split].
  - destruct (Z_le_gt_dec (2 ^ (c - 1)) q); [assumption | exfalso]. nia.
  - destruct (Z_lt_le_dec q (2 ^ c)); [assumption | exfalso]. nia.
Qed.

Lemma sqrt_core_correct mx ex :
  let '(q, e', l) := SFsqrt_core_binary prec emax (Zpos mx) ex in
  0 <= q /\
  Zdigits2 q + e' = Z.div2 (Zdigits2 (Zpos mx) + ex + 1) /\
  e' <= fexp prec emax (Zdigits2 q + e') /\
  inbetween q e' l (R_sqrt.sqrt (IZR (Zpos mx) * bpow ex)).
Proof.
  unfold SFsqrt_core_binary.
  set (d := Zdigits2 (Zpos mx)).
  set (e' := Z.min (fexp prec emax (Z.div2 (d + ex + 1))) (Z.div2 ex)).
  set (s := ex - 2 * e').
  assert (Hs : 0 <= s) by (pose proof (div2_bounds ex); unfold s, e'; lia).
  set (m' := match s with Z0 => Zpos mx | Zpos _ => Z.shiftl (Zpos mx) s | Zneg _ => 0 end).
  assert (Hm' : m' = Zpos mx * 2 ^ s).
  { unfold m'. destruct s as [ | p | p]; try lia.
    now rewrite Z.shiftl_mul_pow2. }
  assert (H2s : 0 < 2 ^ s) by (apply Z.pow_pos_nonneg; lia).
  assert (Hm0 : 0 < m') by nia.
  pose proof (Z.sqrtrem_spec m' ltac:(lia)) as Hsq.
  destruct (Z.sqrtrem m') as [q r]. destruct Hsq as [Hq Hr].
  assert (Hq0 : 0 < q).
  { destruct (Z.eq_dec q 0) as [-> | ]; lia. }
  assert (Dq : Zdigits2 q = Z.div2 (d + s + 1)).
  { rewrite (Zdigits2_sqrt m' q r Hm0 Hq Hr), Hm', Zdigits2_mul_pow2 by lia.
    reflexivity. }
  assert (De : Zdigits2 q + e' = Z.div2 (d + ex + 1)).
  { rewrite Dq. unfold s.
    pose proof (div2_bounds (d + (ex - 2 * e') + 1)).
    pose proof (div2_bounds (d + ex + 1)). lia. }
  split; [lia | split; [exact De | split]].
  - rewrite De. unfold e'. lia.
  - pose proof (bpow_gt_0 e') as Hb.
    assert (HM : (0 < IZR m')%R) by (apply IZR_lt; lia).
    assert (Hv : R_sqrt.sqrt (IZR (Zpos mx) * bpow ex) = (R_sqrt.sqrt (IZR m') * bpow e')%R).
    { replace (IZR (Zpos mx) * bpow ex)%R with (IZR m' * (bpow e' * bpow e'))%R.
      - rewrite sqrt_mult by nra. rewrite sqrt_square by lra. reflexivity.
      - rewrite Hm', <- !bpow_plus, IZR_mul_pow2 by lia.
        f_equal. f_equal. unfold s. lia. }
    rewrite Hv.
    assert (HQ : (0 < IZR q)%R) by (apply IZR_lt; lia).
    assert (HMq : (IZR m' = IZR q * IZR q + IZR r)%R)
      by (rewrite Hq, plus_IZR, mult_IZR; reflexivity).
    assert (HR : (0 <= IZR r <= 2 * IZR q)%R).
    { split; [apply IZR_le; lia | ]. rewrite <- mult_IZR. apply IZR_le; lia. }
    destruct (Z.eqb_spec r 0) as [-> | Hr0]; cbn [inbetween].
    + rewrite HMq, Rplus_0_r, sqrt_square by lra. reflexivity.
    + assert (HR1 : (1 <= IZR r)%R) by (apply IZR_le; lia).
      assert (Hlo : (IZR q < R_sqrt.sqrt (IZR m'))%R) by (apply sq_lt_sqrt; nra).
      assert (Hhi : (R_sqrt.sqrt (IZR m') < IZR q + 1)%R) by (apply sqrt_lt_sq; nra).
      split; [split; nra | ].
      destruct (Z.leb_spec r q) as [Hle | Hgt].
      * assert (IZR r <= IZR q)%R by (apply IZR_le; lia).
        assert (R_sqrt.sqrt (IZR m') < IZR q + / 2)%R by (apply sqrt_lt_sq; nra). nra.
      * assert (IZR q + 1 <= IZR r)%R by (rewrite <- plus_IZR; apply IZR_le; lia).
        assert (IZR q + / 2 < R_sqrt.sqrt (IZR m'))%R by (apply sq_lt_sqrt; nra). nra.
Qed.

Lemma is_finite_cases r s :
  sign r = Some s -> is_inf r = false -> is_finite r = true.
Proof. destruct r; cbn; congruence. Qed.

Lemma bounded_lt_max m e :
  bounded prec emax m e = true -> (IZR (Zpos m) * bpow e < bpow 1024)%R.
Proof.
  intros H. apply bounded_inv in H. destruct H as [C B].
  rewrite fexp_eq in C.
  pose proof (IZR_lt_bpow_digits (Zpos m) ltac:(lia)) as Hd. cbn [Zdigits2] in Hd.
  assert (bpow (Zpos (digits2_pos m)) * bpow e <= bpow 1024)%R.
  { rewrite <- bpow_plus. apply bpow_le. lia. }
  pose proof (bpow_gt_0 e). nra.
Qed.

Lemma bounded_ge_min m e :
  bounded prec emax m e = true -> (bpow (-1074) <= IZR (Zpos m) * bpow e)%R.
Proof.
  intros H. apply bounded_inv in H. destruct H as [C B].
  assert (1 <= IZR (Zpos m))%R by (apply IZR_le; lia).
  assert (bpow (-1074) <= bpow e)%R by (apply bpow_le; lia).
  pose proof (bpow_gt_0 (-1074)). nra.
Qed.

Lemma bpow_sq e : (bpow e * bpow e = bpow (2 * e))%R.
Proof. rewrite <- bpow_plus. f_equal. lia. Qed.

(** The square root of a positive finite float. *)
Theorem sqrt_error mx ex :
  bounded prec emax mx ex = true ->
  let x := S754_finite false mx ex in
  valid (Float64.sqrt x) = true /\ sign (Float64.sqrt x) = Some false /\
  is_finite (Float64.sqrt x) = true /\
  (Rabs (B2R (Float64.sqrt x) - R_sqrt.sqrt (B2R x)) <= bpow (-53) * R_sqrt.sqrt (B2R x))%R /\
  (Rabs (B2R (Float64.sqrt x) - R_sqrt.sqrt (B2R x))
     <= bpow (fexp prec emax (Z.div2 (Zpos (digits2_pos mx) + ex + 1)) - 1))%R.
Proof.
  intros Hb x. unfold x, Float64.sqrt, SFsqrt.
  pose proof (sqrt_core_correct mx ex) as Hc.
  destruct (SFsqrt_core_binary prec emax (Zpos mx) ex) as [[q e'] l].
  destruct Hc as (Hq & De & HA & Hin).
  rewrite B2R_finite. cbn [sgn]. rewrite Rmult_1_l.
  set (X := (IZR (Zpos mx) * bpow ex)%R) in *.
  pose proof (bounded_lt_max mx ex Hb) as Xmax. fold X in Xmax.
  pose proof (bounded_ge_min mx ex Hb) as Xmin. fold X in Xmin.
  assert (X0 : (0 <= X)%R) by (pose proof (bpow_gt_0 (-1074)); lra).
  assert (Vlo : (bpow (-537) <= R_sqrt.sqrt X)%R).
  { rewrite <- (sqrt_square (bpow (-537))) by (pose proof (bpow_gt_0 (-537)); lra).
    apply sqrt_le_1_alt. rewrite bpow_sq. exact Xmin. }
  assert (Vhi : (R_sqrt.sqrt X < bpow 512)%R).
  { apply sqrt_lt_sq; [lra | pose proof (bpow_gt_0 512); lra | ].
    rewrite bpow_sq. exact Xmax. }
  destruct (binary_round_aux_error false q e' l (R_sqrt.sqrt X) Hq HA Hin)
    as (Vr & Sr & Eh & E & _ & _ & I).
  set (r := binary_round_aux prec emax false q e' l) in *.
  assert (Hn : Rmax (bpow (-53) * R_sqrt.sqrt X) (bpow (-1075)) = (bpow (-53) * R_sqrt.sqrt X)%R).
  { apply Rmax_normal. assert (bpow (-1022) <= bpow (-537))%R by (apply bpow_le; lia). lra. }
  rewrite Hn in *.
  assert (Fr : is_finite r = true).
  { apply (is_finite_cases r false Sr). destruct (is_inf r) eqn:Hi; [exfalso | reflexivity].
    specialize (I eq_refl).
    assert (bpow (-53) <= 1)%R by (change 1%R with (bpow 0); apply bpow_le; lia).
    assert (2 * bpow 512 <= bpow 1024)%R.
    { rewrite <- bpow_1, <- bpow_plus. apply bpow_le. lia. }
    unfold emax in I. pose proof (bpow_gt_0 (-53)). nra. }
  assert (Hr : B2R r = Rabs (B2R r)).
  { rewrite (B2R_sign r false Sr) at 1. cbn [sgn]. ring. }
  rewrite Hr. rewrite De in Eh.
  split; [exact Vr | split; [exact Sr | split; [exact Fr | split; auto]]].
Qed.

(** A float below a power of two is at most its predecessor. *)
Lemma float_below_pow m e k :
  bounded prec emax m e = true -> -1021 <= k ->
  (IZR (Zpos m) * bpow e < bpow k)%R ->
  (IZR (Zpos m) * bpow e <= bpow k - bpow (k - 53))%R.
Proof.
  intros Hb Hk Hlt. apply bounded_inv in Hb. destruct Hb as [C B].
  rewrite fexp_eq in C. set (d := Zpos (digits2_pos m)) in *.
  pose proof (digits2_pos_spec m) as Hd. fold d in Hd.
  pose proof (bpow_gt_0 e) as He.
  assert (Hde : d + e <= k).
  { destruct (Z_le_gt_dec (d + e) k); [assumption | exfalso].
    assert (bpow k <= bpow (d - 1 + e))%R by (apply bpow_le; lia).
    rewrite bpow_plus in H.
    assert (bpow (d - 1) <= IZR (Zpos m))%R
      by (rewrite <- IZR_pow2 by lia; apply IZR_le; lia).
    nra. }
  destruct (Z.eq_dec (d + e) k) as [Heq | Hne].
  - assert (E : e = k - 53) by lia.
    assert (IZR (Zpos m) <= bpow d - 1)%R.
    { rewrite <- IZR_pow2 by lia. rewrite <- minus_IZR. apply IZR_le. lia. }
    assert (bpow d * bpow e = bpow k)%R by (rewrite <- bpow_plus; f_equal; lia).
    rewrite <- E. nra.
  - assert (IZR (Zpos m) < bpow d)%R
      by (rewrite <- IZR_pow2 by lia; apply IZR_lt; lia).
    assert (bpow d * bpow e <= bpow (k - 1))%R
      by (rewrite <- bpow_plus; apply bpow_le; lia).
    assert (bpow (k - 53) <= bpow (k - 1))%R by (apply bpow_le; lia).
    rewrite bpow_pred in *. nra.
Qed.

(** Rounding never crosses a multiple of the unit in the last place. *)
Lemma binary_round_aux_le sx mx ex lx v K :
  0 <= mx -> ex <= fexp prec emax (Zdigits2 mx + ex) -> inbetween mx ex lx v ->
  (v <= IZR K * bpow (fexp prec emax (Zdigits2 mx + ex)))%R ->
  (IZR K * bpow (fexp prec emax (Zdigits2 mx + ex)) < bpow emax)%R ->
  is_finite (binary_round_aux prec emax sx mx ex lx) = true /\
  (Rabs (B2R (binary_round_aux prec emax sx mx ex lx))
     <= IZR K * bpow (fexp prec emax (Zdigits2 mx + ex)))%R.
Proof.
  intros Hmx He Hv HK Hmax.
  destruct (binary_round_aux_correct sx mx ex lx v Hmx He Hv) as (m2 & E & _ & Rd).
  set (e1 := fexp prec emax (Zdigits2 mx + ex)) in *.
  set (r := binary_round_aux prec emax sx mx ex lx) in *.
  pose proof (bpow_gt_0 e1) as Hb.
  apply Rabs_le_inv in E.
  assert (Hle : m2 <= K).
  { assert (IZR m2 < IZR (K + 1))%R; [rewrite plus_IZR; nra | ].
    apply lt_IZR in H. lia. }
  assert (HleR : (IZR m2 * bpow e1 <= IZR K * bpow e1)%R)
    by (apply Rmult_le_compat_r; [lra | now apply IZR_le]).
  assert (Hm2 : 0 <= m2).
  { destruct Rd as [Hz | m e Hle' Hval Hbd | Hi].
    - lia.
    - rewrite <- Hval. apply Z.mul_nonneg_nonneg; [lia | apply Z.pow_nonneg; lia].
    - exfalso. lra. }
  destruct Rd as [Hz | m e Hle' Hval Hbd | Hi].
  - split; [reflexivity | ]. cbn [B2R]. rewrite Rabs_R0.
    apply Rmult_le_pos; [apply IZR_le; lia | lra].
  - assert (Rd : rounded sx e1 m2 (S754_finite sx m e)) by now constructor.
    split; [reflexivity | ]. now rewrite (rounded_abs _ _ _ _ Hm2 Rd eq_refl).
  - exfalso. lra.
Qed.

Lemma bpow_lt_inv a b : (bpow a < bpow b)%R -> a < b.
Proof.
  intros H. destruct (Z_lt_le_dec a b) as [ | Hle]; [assumption | exfalso].
  apply bpow_le in Hle. lra.
Qed.

(** Rounding a magnitude that is at most a float gives at most that float:
    in particular it does not overflow. *)
Lemma binary_round_le sx mx ex my ey :
  bounded prec emax my ey = true ->
  (IZR (Zpos mx) * bpow ex <= IZR (Zpos my) * bpow ey)%R ->
  is_finite (binary_round prec emax sx mx ex) = true /\
  (Rabs (B2R (binary_round prec emax sx mx ex)) <= IZR (Zpos my) * bpow ey)%R.
Proof.
  intros Hb Hle. unfold binary_round.
  set (f := fexp prec emax (Zpos (digits2_pos mx) + ex)) in *.
  pose proof (bounded_lt_max my ey Hb) as Hmax.
  assert (Hfe : f <= ey).
  { pose proof (bpow_digits_le (Zpos mx) ltac:(lia)) as Dx.
    pose proof (IZR_lt_bpow_digits (Zpos my) ltac:(lia)) as Dy.
    cbn [Zdigits2] in Dx, Dy.
    assert (bpow (Zpos (digits2_pos mx) - 1 + ex) < bpow (Zpos (digits2_pos my) + ey))%R.
    { rewrite !bpow_plus. pose proof (bpow_gt_0 ex). pose proof (bpow_gt_0 ey). nra. }
    apply bpow_lt_inv in H.
    unfold bounded, canonical_mantissa in Hb. apply andb_true_iff in Hb.
    destruct Hb as [C _]. apply Z.eqb_eq in C.
    unfold f. rewrite fexp_eq in *. lia. }
  set (K := Zpos my * 2 ^ (ey - f)).
  assert (HK : (IZR K * bpow f = IZR (Zpos my) * bpow ey)%R).
  { unfold K. rewrite IZR_mul_pow2 by lia. do 2 f_equal. lia. }
  change (bpow 1024) with (bpow emax) in Hmax.
  rewrite <- HK in Hle, Hmax |- *.
  destruct (Z_le_gt_dec f ex) as [Hf | Hf].
  - assert (Hm : Zpos (fst (shl_align mx ex f)) = Zpos mx * 2 ^ (ex - f))
      by now apply shl_align_fst.
    assert (Hs : snd (shl_align mx ex f) = f) by now rewrite shl_align_le.
    destruct (shl_align mx ex f) as [mz ez]. cbn [fst snd] in *. subst ez.
    assert (Hd : fexp prec emax (Zdigits2 (Zpos mz) + f) = f).
    { rewrite Hm, Zdigits2_mul_pow2 by lia.
      replace (Zdigits2 (Zpos mx) + (ex - f) + f) with (Zpos (digits2_pos mx) + ex)
        by (cbn [Zdigits2]; lia).
      reflexivity. }
    assert (Hin : inbetween (Zpos mz) f loc_Exact (IZR (Zpos mx) * bpow ex)).
    { cbn [inbetween]. rewrite Hm, IZR_mul_pow2 by lia. do 2 f_equal. lia. }
    pose proof (binary_round_aux_le sx (Zpos mz) f loc_Exact _ K ltac:(lia)
                  ltac:(lia) Hin) as G.
    rewrite Hd in G. apply G; assumption.
  - rewrite shl_align_gt by lia.
    assert (Hin : inbetween (Zpos mx) ex loc_Exact (IZR (Zpos mx) * bpow ex))
      by reflexivity.
    pose proof (binary_round_aux_le sx (Zpos mx) ex loc_Exact _ K ltac:(lia)
                  ltac:(cbn [Zdigits2]; fold f; lia) Hin) as G.
    cbn [Zdigits2] in G. fold f in G. apply G; assumption.
Qed.

(** ** Error analysis on real numbers *)

Open Scope R_scope.


Lemma real_mul_div A B P Q u eta :
  0 <= u <= / 2 -> 0 <= eta -> B <> 0 ->
  Rabs (P - A * B) <= u * Rabs P ->
  Rabs (Q - P / B) <= Rmax (u * Rabs (P / B)) eta ->
  Rabs (Q - A) <= 4 * u * Rabs A + eta.
Proof.
  intros Hu He HB H1 H2.
  set (T := P / B) in *.
  assert (HP : P = T * B) by (unfold T; field; assumption).
  assert (HBp : 0 < Rabs B) by now apply Rabs_pos_lt.
  assert (H3 : Rabs (T - A) <= u * Rabs T).
  { apply (Rmult_le_reg_r (Rabs B)); [assumption | ].
    rewrite <- Rabs_mult, Rmult_assoc, <- Rabs_mult.
    replace ((T - A) * B) with (P - A * B) by (rewrite HP; ring).
    now rewrite <- HP. }
  assert (T1 : Rabs T <= Rabs A + Rabs (T - A)).
  { replace T with (A + (T - A)) at 1 by ring. apply Rabs_triang. }
  assert (T2 : Rabs (Q - A) <= Rabs (Q - T) + Rabs (T - A)).
  { replace (Q - A) with ((Q - T) + (T - A)) at 1 by ring. apply Rabs_triang. }
  assert (H4 : Rabs (Q - T) <= u * Rabs T + eta).
  { eapply Rle_trans; [exact H2 | ].
    pose proof (Rabs_pos T). apply Rmax_lub; nra. }
  pose proof (Rabs_pos A). pose proof (Rabs_pos T). pose proof (Rabs_pos (T - A)).
  set (a := Rabs A) in *. set (t := Rabs T) in *. set (d := Rabs (T - A)) in *.
  assert (Ht : t <= 2 * a) by nra.
  nra.
Qed.

(** A product rounded with a possible underflow, then a quotient. *)
Lemma real_mul_div_underflow A B P Q u eta :
  0 <= u <= / 2 -> 0 <= eta -> B <> 0 ->
  Rabs (P - A * B) <= Rmax (u * Rabs (A * B)) eta ->
  Rabs (Q - P / B) <= Rmax (u * Rabs (P / B)) eta ->
  Rabs (Q - A) <= 4 * u * Rabs A + eta + 2 * eta / Rabs B.
Proof.
  intros Hu He HB H1 H2.
  set (T := P / B) in *.
  assert (HP : P = T * B) by (unfold T; field; assumption).
  assert (HBp : 0 < Rabs B) by now apply Rabs_pos_lt.
  set (d := eta / Rabs B).
  assert (Hd : 0 <= d).
  { unfold d, Rdiv. apply Rmult_le_pos; [assumption | ].
    apply Rlt_le, Rinv_0_lt_compat. assumption. }
  assert (Ed : d * Rabs B = eta) by (unfold d; field; lra).
  assert (H3 : Rabs (T - A) <= u * Rabs A + d).
  { apply (Rmult_le_reg_r (Rabs B)); [assumption | ].
    rewrite <- Rabs_mult.
    replace ((T - A) * B) with (P - A * B) by (rewrite HP; ring).
    eapply Rle_trans; [exact H1 | ].
    rewrite Rabs_mult. pose proof (Rabs_pos A).
    assert (0 <= u * Rabs A) by nra.
    assert (0 <= u * Rabs A * Rabs B) by nra.
    apply Rmax_lub; nra. }
  assert (T1 : Rabs T <= Rabs A + Rabs (T - A)).
  { replace T with (A + (T - A)) at 1 by ring. apply Rabs_triang. }
  assert (T2 : Rabs (Q - A) <= Rabs (Q - T) + Rabs (T - A)).
  { replace (Q - A) with ((Q - T) + (T - A)) at 1 by ring. apply Rabs_triang. }
  assert (H4 : Rabs (Q - T) <= u * Rabs T + eta).
  { eapply Rle_trans; [exact H2 | ].
    pose proof (Rabs_pos T). apply Rmax_lub; nra. }
  pose proof (Rabs_pos A). pose proof (Rabs_pos T). pose proof (Rabs_pos (T - A)).
  replace (2 * eta / Rabs B) with (2 * d) by (unfold d; field; lra).
  set (a := Rabs A) in *. set (t := Rabs T) in *. set (x := Rabs (T - A)) in *.
  assert (u * t <= u * (a + (u * a + d))) by (apply Rmult_le_compat_l; lra).
  assert (0 <= u * a) by (apply Rmult_le_pos; lra).
  assert (u * (u * a) <= 1 * (u * a)) by (apply Rmult_le_compat_r; lra).
  assert (u * d <= 1 * d) by (apply Rmult_le_compat_r; lra).
  lra.
Qed.

Lemma real_sqrt_sq X S P u eta :
  0 <= u <= / 4 -> 0 <= eta -> 0 <= X ->
  Rabs (S - R_sqrt.sqrt X) <= u * R_sqrt.sqrt X ->
  Rabs (P - S * S) <= Rmax (u * Rabs (S * S)) eta ->
  Rabs (P - X) <= 4 * u * Rabs X + eta.
Proof.
  intros Hu He HX H1 H2.
  pose proof (sqrt_pos X) as Ht. pose proof (sqrt_sqrt X HX) as Hsq.
  set (t := R_sqrt.sqrt X) in *.
  apply Rabs_le_inv in H1.
  assert (HS0 : 0 <= S) by nra.
  assert (HSS : 0 <= S * S) by nra.
  rewrite (Rabs_pos_eq (S * S) HSS) in H2. rewrite (Rabs_pos_eq X HX).
  assert (H3 : Rabs (P - S * S) <= u * (S * S) + eta).
  { eapply Rle_trans; [exact H2 | ]. apply Rmax_lub; nra. }
  apply Rabs_le_inv in H3.
  assert (L1 : S * S <= X * ((1 + u) * (1 + u))).
  { rewrite <- Hsq. assert (S <= t * (1 + u)) by lra.
    replace (t * t * ((1 + u) * (1 + u))) with ((t * (1 + u)) * (t * (1 + u))) by ring.
    apply Rmult_le_compat; lra. }
  assert (L2 : X * ((1 - u) * (1 - u)) <= S * S).
  { rewrite <- Hsq. assert (t * (1 - u) <= S) by lra.
    replace (t * t * ((1 - u) * (1 - u))) with ((t * (1 - u)) * (t * (1 - u))) by ring.
    apply Rmult_le_compat; nra. }
  assert (U2 : u * u <= u / 4) by nra.
  assert (XU : 0 <= X * u) by nra.
  assert (XU2 : X * (u * u) <= X * u / 4) by nra.
  assert (XU3 : X * (u * u * u) <= X * u / 16) by nra.
  assert (XU3' : 0 <= X * (u * u * u)) by (apply Rmult_le_pos; nra).
  assert (XU2' : 0 <= X * (u * u)) by nra.
  apply Rabs_le. split.
  - assert (u * (S * S) <= X * u + 2 * (X * (u * u)) + X * (u * u * u)) by nra. nra.
  - assert (u * (S * S) <= X * u + 2 * (X * (u * u)) + X * (u * u * u)) by nra. nra.
Qed.

Close Scope R_scope.

(** ** Comparisons with zero *)

Lemma eqb_zero_is_zero b : eqb b zero = is_zero b.
Proof. destruct b as [s | s | | s m e]; try destruct s; reflexivity. Qed.

Lemma ltb_zero_finite s m e : ltb (S754_finite s m e) zero = s.
Proof. destruct s; reflexivity. Qed.

Lemma ltb_zero_infinity s : ltb (S754_infinity s) zero = s.
Proof. destruct s; reflexivity. Qed.

(** ** [fmod] and [%] *)

(** On finite operands [fmod] is a zero, or a float of the sign of the
    dividend that is smaller in magnitude than the divisor. *)
Lemma fmod_finite sx mx ex sy my ey :
  Libm.fmod (S754_finite sx mx ex) (S754_finite sy my ey) = S754_zero sx \/
  exists mz ez,
    Libm.fmod (S754_finite sx mx ex) (S754_finite sy my ey) = S754_finite sx mz ez /\
    ez <= ey /\ Zpos mz < Zpos my * 2 ^ (ey - ez).
Proof.
  unfold Libm.fmod.
  set (e := Z.min ex ey).
  assert (He : e <= ex /\ e <= ey) by (unfold e; lia).
  rewrite (shl_align_fst mx ex e), (shl_align_fst my ey e) by lia.
  set (X := Zpos mx * 2 ^ (ex - e)). set (Y := Zpos my * 2 ^ (ey - e)).
  assert (HY : 0 < Y) by (apply Z.mul_pos_pos; [lia | apply Z.pow_pos_nonneg; lia]).
  assert (HX : 0 <= X) by (apply Z.mul_nonneg_nonneg; [lia | apply Z.pow_nonneg; lia]).
  pose proof (Z.rem_bound_pos X Y HX HY) as Hr.
  destruct (Z.rem X Y) as [ | mr | mr]; try lia; [now left | right].
  set (f := fexp prec emax (Zpos (digits2_pos mr) + e)).
  destruct (Z_le_gt_dec f e) as [Hf | Hf].
  - rewrite shl_align_le by assumption.
    eexists _, f. split; [reflexivity | split; [lia | ]].
    rewrite Z2Pos.id
      by (apply Z.mul_pos_pos; [lia | apply Z.pow_pos_nonneg; lia]).
    replace (ey - f) with ((ey - e) + (e - f)) by lia.
    rewrite Z.pow_add_r, Z.mul_assoc by lia. fold Y.
    apply Z.mul_lt_mono_pos_r; [apply Z.pow_pos_nonneg; lia | lia].
  - rewrite shl_align_gt by lia.
    exists mr, e. split; [reflexivity | split; [lia | ]]. fold Y. lia.
Qed.

(** [fmod] is exact: the result is [x - q * y] for an integer [q], smaller
    in magnitude than [y], and [q * y] is no larger than [x]; with the sign
    of [x] this makes [q] the quotient truncated toward zero. *)
Lemma fmod_exact sx mx ex sy my ey :
  let x := S754_finite sx mx ex in
  let y := S754_finite sy my ey in
  exists q : Z,
    (B2R (Libm.fmod x y) = B2R x - IZR q * B2R y)%R /\
    (Rabs (B2R (Libm.fmod x y)) < Rabs (B2R y))%R /\
    (Rabs (IZR q * B2R y) <= Rabs (B2R x))%R.
Proof.
  intros x y. unfold x, y, Libm.fmod.
  set (e := Z.min ex ey).
  assert (He : e <= ex /\ e <= ey) by (unfold e; lia).
  rewrite (shl_align_fst mx ex e), (shl_align_fst my ey e) by lia.
  set (X := Zpos mx * 2 ^ (ex - e)). set (Y := Zpos my * 2 ^ (ey - e)).
  assert (HY : 0 < Y) by (apply Z.mul_pos_pos; [lia | apply Z.pow_pos_nonneg; lia]).
  assert (HX : 0 < X) by (apply Z.mul_pos_pos; [lia | apply Z.pow_pos_nonneg; lia]).
  pose proof (Z.rem_bound_pos X Y ltac:(lia) HY) as Hr.
  pose proof (Z.quot_rem' X Y) as Hq.
  assert (Hq0 : 0 <= X ÷ Y) by (apply Z.quot_pos; lia).
  pose proof (bpow_gt_0 e) as Hb.
  assert (Bx : B2R (S754_finite sx mx ex) = (sgn sx * (IZR X * bpow e))%R).
  { rewrite B2R_finite. unfold X. rewrite IZR_mul_pow2 by lia.
    do 3 f_equal. lia. }
  assert (By : B2R (S754_finite sy my ey) = (sgn sy * (IZR Y * bpow e))%R).
  { rewrite B2R_finite. unfold Y. rewrite IZR_mul_pow2 by lia.
    do 3 f_equal. lia. }
  assert (Br : B2R match Z.rem X Y with
                   | Zpos mr =>
                       let '(mz, ez) :=
                         shl_align mr e (fexp prec emax (Zpos (digits2_pos mr) + e)) in
                       S754_finite sx mz ez
                   | _ => S754_zero sx
                   end = (sgn sx * (IZR (Z.rem X Y) * bpow e))%R).
  { destruct (Z.rem X Y) as [ | mr | mr]; try lia.
    - cbn [B2R]. ring.
    - set (f := fexp prec emax (Zpos (digits2_pos mr) + e)).
      destruct (Z_le_gt_dec f e) as [Hf | Hf].
      + rewrite shl_align_le by assumption. rewrite B2R_finite.
        rewrite Z2Pos.id
          by (apply Z.mul_pos_pos; [lia | apply Z.pow_pos_nonneg; lia]).
        rewrite IZR_mul_pow2 by lia. do 3 f_equal. lia.
      + rewrite shl_align_gt by lia. apply B2R_finite. }
  rewrite Br, Bx, By.
  assert (IX : (IZR X = IZR Y * IZR (X ÷ Y) + IZR (Z.rem X Y))%R)
    by (rewrite <- mult_IZR, <- plus_IZR; f_equal; exact Hq).
  assert (R0 : (0 <= IZR (Z.rem X Y) < IZR Y)%R) by (split; apply IZR_le || apply IZR_lt; lia).
  assert (Q0 : (0 <= IZR (X ÷ Y))%R) by (apply IZR_le; lia).
  assert (Y0 : (0 < IZR Y)%R) by (apply IZR_lt; lia).
  exists (cond_Zopp (xorb sx sy) (X ÷ Y)).
  rewrite IZR_cond_Zopp, sgn_xorb.
  split; [ | split].
  - rewrite IX. destruct sx, sy; cbn [sgn]; ring.
  - rewrite !Rabs_sgn_mult, !Rabs_pos_eq by nra. nra.
  - replace (sgn sx * sgn sy * IZR (X ÷ Y) * (sgn sy * (IZR Y * bpow e)))%R
      with (sgn sx * (IZR Y * IZR (X ÷ Y) * bpow e))%R
      by (destruct sx, sy; cbn [sgn]; ring).
    assert (P0 : (0 <= IZR Y * IZR (X ÷ Y) <= IZR X)%R) by (split; nra).
    rewrite !Rabs_sgn_mult, !Rabs_pos_eq
      by (apply Rmult_le_pos; lra).
    apply Rmult_le_compat_r; lra.
Qed.

(** Adding the divisor to a smaller float of the other sign gives the sign
    of the divisor. *)
Lemma add_smaller_opposite sx mz ez sy my ey :
  sx <> sy -> ez <= ey -> Zpos mz < Zpos my * 2 ^ (ey - ez) ->
  sign (add (S754_finite sx mz ez) (S754_finite sy my ey)) = Some sy.
Proof.
  intros Hs He Hlt. unfold add, SFadd.
  replace (Z.min ez ey) with ez by lia.
  rewrite (shl_align_fst mz ez ez), (shl_align_fst my ey ez) by lia.
  rewrite Z.sub_diag, Z.mul_1_r.
  rewrite binary_normalize_sign.
  - f_equal. destruct sx, sy; try congruence; unfold cond_Zopp;
      [apply Z.ltb_ge | apply Z.ltb_lt]; lia.
  - destruct sx, sy; try congruence; unfold cond_Zopp; lia.
Qed.

Lemma add_smaller_opposite_le sx mz ez sy my ey :
  sx <> sy -> ez <= ey -> Zpos mz < Zpos my * 2 ^ (ey - ez) ->
  bounded prec emax my ey = true ->
  is_finite (add (S754_finite sx mz ez) (S754_finite sy my ey)) = true /\
  (Rabs (B2R (add (S754_finite sx mz ez) (S754_finite sy my ey)))
     <= IZR (Zpos my) * bpow ey)%R.
Proof.
  intros Hs He Hlt Hb. unfold add, SFadd.
  replace (Z.min ez ey) with ez by lia.
  rewrite (shl_align_fst mz ez ez), (shl_align_fst my ey ez) by lia.
  rewrite Z.sub_diag, Z.mul_1_r.
  set (D := Zpos my * 2 ^ (ey - ez) - Zpos mz).
  assert (HD : (IZR D * bpow ez <= IZR (Zpos my) * bpow ey)%R).
  { unfold D. rewrite minus_IZR, Rmult_minus_distr_r, IZR_mul_pow2 by lia.
    replace (ez + (ey - ez)) with ey by lia.
    assert (0 < IZR (Zpos mz) * bpow ez)%R
      by (apply Rmult_lt_0_compat; [apply IZR_lt; lia | apply bpow_gt_0]).
    lra. }
  assert (HS : cond_Zopp sx (Zpos mz) + cond_Zopp sy (Zpos my * 2 ^ (ey - ez))
               = cond_Zopp sy D)
    by (unfold D; destruct sx, sy; try congruence; unfold cond_Zopp; lia).
  rewrite HS.
  destruct D as [ | p | p] eqn:ED; try lia.
  destruct sy; cbn [cond_Zopp Z.opp binary_normalize];
    apply binary_round_le; assumption.
Qed.

(** ** Signs, comparisons and other small facts *)

Lemma eqb_refl_not_nan x : is_nan x = false -> eqb x x = true.
Proof.
  destruct x as [s | s | | s m e]; try discriminate; intros _;
    unfold eqb, SFeqb; simpl; try (destruct s; reflexivity).
  rewrite Z.compare_refl, Pos.compare_cont_refl. destruct s; reflexivity.
Qed.

Lemma abs_opp x : abs (opp x) = abs x.
Proof. destruct x; reflexivity. Qed.

Lemma abs_nonneg x : is_nan x = false -> leb zero (abs x) = true.
Proof. destruct x as [s | s | | s m e]; try discriminate; reflexivity. Qed.

Lemma sign_not_nan x s : sign x = Some s -> is_nan x = false.
Proof. destruct x; simpl; congruence. Qed.

Lemma div_finite_sign sx mx ex sy my ey :
  sign (div (S754_finite sx mx ex) (S754_finite sy my ey)) = Some (xorb sx sy).
Proof.
  unfold div, SFdiv, SFdiv_core_binary.
  set (m' := match _ - _ - _ with Z0 => Zpos mx | Zpos _ => _ | Zneg _ => 0 end).
  assert (Hm : 0 <= m').
  { unfold m'. destruct (_ - _ - _) as [ | p | p]; try lia.
    apply Z.shiftl_nonneg. lia. }
  pose proof (Z.div_pos m' (Zpos my) Hm ltac:(lia)) as Hq.
  unfold Z.div in Hq.
  destruct (Z.div_eucl m' (Zpos my)) as [q r].
  now apply binary_round_aux_sign.
Qed.

Lemma add_comm x y : Float64.add x y = Float64.add y x.
Proof.
  destruct x as [sx | sx | | sx mx ex], y as [sy | sy | | sy my ey];
    try reflexivity; try (destruct sx, sy; reflexivity).
  unfold Float64.add, SFadd. rewrite Z.min_comm. f_equal. apply Z.add_comm.
Qed.

Lemma add_finite_not_nan x y :
  is_finite x = true -> is_finite y = true -> is_nan (Float64.add x y) = false.
Proof.
  destruct x as [sx | sx | | sx mx ex]; try discriminate;
    destruct y as [sy | sy | | sy my ey]; try discriminate; intros _ _;
    try reflexivity; try (destruct sx, sy; reflexivity).
  unfold Float64.add, SFadd.
  destruct (_ + _) as [ | p | p] eqn:E; [reflexivity | | ];
    cbn [binary_normalize]; eapply sign_not_nan, binary_round_sign.
Qed.

Lemma bpow_m51 : bpow (-51) = (4 * bpow (-53))%R.
Proof.
  change (-51) with (2 + -53). rewrite bpow_plus.
  change 2 with (1 + 1) at 1. rewrite bpow_plus, bpow_1. ring.
Qed.

Lemma bpow_m53_le : (0 <= bpow (-53) <= / 4)%R.
Proof.
  pose proof (bpow_gt_0 (-53)). split; [lra | ].
  assert (bpow (-53) <= bpow (-2))%R by (apply bpow_le; lia).
  assert (bpow (-2) * 4 = 1)%R.
  { replace 4%R with (bpow 2) by (change 2 with (1 + 1); rewrite bpow_plus, bpow_1; ring).
    rewrite <- bpow_plus. reflexivity. }
  lra.
Qed.

Lemma B2R_finite_neq_0 s m e : B2R (S754_finite s m e) <> 0%R.
Proof.
  rewrite B2R_finite.
  assert (0 < IZR (Zpos m) * bpow e)%R
    by (apply Rmult_lt_0_compat; [apply IZR_lt; lia | apply bpow_gt_0]).
  destruct s; cbn [sgn]; lra.
Qed.

Lemma mul_finite_sign sx mx ex sy my ey :
  sign (Float64.mul (S754_finite sx mx ex) (S754_finite sy my ey))
  = Some (xorb sx sy).
Proof. apply binary_round_aux_sign. lia. Qed.

Lemma bpow_split a b c : c = a + b -> bpow c = (bpow a * bpow b)%R.
Proof. intros ->. apply bpow_plus. Qed.

(** The rounded square root of a float stays below [2^512] by one unit in
    the last place. *)
Lemma sqrt_below mx ex :
  bounded prec emax mx ex = true ->
  (B2R (Float64.sqrt (S754_finite false mx ex)) <= bpow 512 - bpow 459)%R.
Proof.
  intros Hb. destruct (sqrt_error mx ex Hb) as (Vs & Ss & Fs & _ & E2).
  set (x := S754_finite false mx ex) in *. set (s := Float64.sqrt x) in *.
  assert (HX : (B2R x <= bpow 1024 - bpow 971)%R).
  { unfold x. rewrite B2R_finite. cbn [sgn]. rewrite Rmult_1_l.
    apply (float_below_pow mx ex 1024 Hb); [lia | now apply bounded_lt_max]. }
  assert (HX0 : (0 <= B2R x)%R).
  { unfold x. rewrite B2R_finite. cbn [sgn]. rewrite Rmult_1_l.
    apply Rmult_le_pos; [apply IZR_le; lia | pose proof (bpow_gt_0 ex); lra]. }
  pose proof (bpow_gt_0 458) as P458. pose proof (bpow_gt_0 512) as P512.
  assert (L : (bpow 458 < bpow 512)%R) by (apply bpow_lt; lia).
  assert (Ht : (R_sqrt.sqrt (B2R x) < bpow 512 - bpow 458)%R).
  { apply sqrt_lt_sq; [exact HX0 | lra | ].
    assert (bpow 1024 = bpow 512 * bpow 512)%R by (apply bpow_split; lia).
    assert (bpow 971 = 2 * (bpow 512 * bpow 458))%R
      by (rewrite <- bpow_1, <- !bpow_plus; f_equal).
    nra. }
  assert (He : (bpow (fexp prec emax (Z.div2 (Zpos (digits2_pos mx) + ex + 1)) - 1)
                <= bpow 458)%R).
  { apply bpow_le. apply bounded_inv in Hb. destruct Hb as [C B].
    pose proof (div2_bounds (Zpos (digits2_pos mx) + ex + 1)).
    rewrite fexp_eq in *. lia. }
  apply Rabs_le_inv in E2.
  assert (Hlt : (B2R s < bpow 512)%R) by lra.
  destruct s as [ss | ss | | ss ms es] eqn:Es; try discriminate.
  - cbn [B2R]. assert (bpow 459 < bpow 512)%R by (apply bpow_lt; lia). lra.
  - cbn [sign] in Ss. injection Ss as ->.
    rewrite B2R_finite in *. cbn [sgn] in *. rewrite Rmult_1_l in *.
    apply (float_below_pow ms es 512 Vs); [lia | exact Hlt].
Qed.

(** Squaring the rounded square root of a positive float does not
    overflow, and gives the float back within the tolerance. *)
Lemma sqrt_square_close mx ex :
  bounded prec emax mx ex = true ->
  let x := S754_finite false mx ex in
  within (tolerance (Rabs (B2R x)))
         (Float64.mul (Float64.sqrt x) (Float64.sqrt x)) x.
Proof.
  intros Hb x. destruct (sqrt_error mx ex Hb) as (Vs & Ss & Fs & E1 & _).
  pose proof (sqrt_below mx ex Hb) as Hle.
  fold x in Vs, Ss, Fs, E1, Hle. set (s := Float64.sqrt x) in *.
  destruct (mul_error s s Vs Vs Fs Fs) as (_ & Em & _ & Im).
  assert (HX0 : (0 <= B2R x)%R).
  { unfold x. rewrite B2R_finite. cbn [sgn]. rewrite Rmult_1_l.
    apply Rmult_le_pos; [apply IZR_le; lia | pose proof (bpow_gt_0 ex); lra]. }
  assert (HS0 : (0 <= B2R s)%R).
  { rewrite (B2R_sign s false Ss). cbn [sgn]. pose proof (Rabs_pos (B2R s)). lra. }
  assert (Fp : is_finite (Float64.mul s s) = true).
  { destruct (is_inf (Float64.mul s s)) eqn:Hi.
    - exfalso. specialize (Im eq_refl).
      rewrite Rabs_pos_eq in Im by nra.
      pose proof (bpow_gt_0 459) as P459. pose proof (bpow_gt_0 512) as P512.
      assert (A1 : (bpow 1024 = bpow 512 * bpow 512)%R) by (apply bpow_split; lia).
      assert (A2 : (bpow 972 = 2 * (bpow 512 * bpow 459))%R)
        by (rewrite <- bpow_1, <- !bpow_plus; f_equal).
      assert (A3 : (bpow 918 = bpow 459 * bpow 459)%R) by (apply bpow_split; lia).
      assert (A4 : (bpow 971 = bpow (-53) * bpow 1024)%R) by (apply bpow_split; lia).
      assert (A5 : (bpow 972 = 2 * bpow 971)%R)
        by (rewrite <- bpow_1, <- bpow_plus; f_equal).
      assert (A6 : (bpow 918 < bpow 971)%R) by (apply bpow_lt; lia).
      assert (A7 : (bpow (-1075) < bpow 971)%R) by (apply bpow_lt; lia).
      pose proof (bpow_gt_0 918) as P918. pose proof (bpow_gt_0 (-1075)) as Peta.
      assert (SS : (B2R s * B2R s <= bpow 1024 - bpow 972 + bpow 918)%R).
      { assert (B2R s * B2R s <= (bpow 512 - bpow 459) * (bpow 512 - bpow 459))%R
          by (apply Rmult_le_compat; lra).
        nra. }
      assert (US : (bpow (-53) * (B2R s * B2R s) <= bpow 971)%R).
      { rewrite A4. apply Rmult_le_compat_l; [pose proof (bpow_gt_0 (-53)); lra | lra]. }
      assert (M : (Rmax (bpow (-53) * (B2R s * B2R s)) (bpow (-1075)) <= bpow 971)%R)
        by (apply Rmax_lub; lra).
      unfold emax in Im. lra.
    - destruct s as [ss | ss | | ss ms es]; try discriminate; [reflexivity | ].
      eapply is_finite_cases; [apply mul_finite_sign | exact Hi]. }
  split; [exact Fp | split; [reflexivity | ]].
  unfold tolerance. rewrite bpow_m51.
  apply (real_sqrt_sq _ (B2R s));
    [exact bpow_m53_le | pose proof (bpow_gt_0 (-1075)); lra | exact HX0
     | exact E1 | exact (Em Fp)].
Qed.

Lemma is_finite_not_nan_inf r :
  is_finite r = true -> is_nan r = false /\ is_inf r = false.
Proof. destruct r; cbn; intros H; (discriminate || auto). Qed.

Lemma leb_zero_of_sign r :
  sign r = Some false -> leb zero r = true.
Proof.
  destruct r as [s | s | | s m e]; cbn [sign]; intros H; try discriminate;
    injection H as ->; reflexivity.
Qed.

(** ** Rounding a value that is a float *)

(** The binade of a positive real: [digits + exponent] is the same for
    every way of writing it as or around an integer times a power of two. *)
Lemma binade_unique m1 e1 m2 e2 v :
  0 < m1 -> 0 < m2 ->
  (IZR m1 * bpow e1 <= v < (IZR m1 + 1) * bpow e1)%R ->
  (IZR m2 * bpow e2 <= v < (IZR m2 + 1) * bpow e2)%R ->
  Zdigits2 m1 + e1 = Zdigits2 m2 + e2.
Proof.
  intros H1 H2 V1 V2.
  pose proof (bpow_digits_le m1 H1) as L1. pose proof (bpow_digits_le m2 H2) as L2.
  assert (U : forall m, 0 < m -> (IZR m + 1 <= bpow (Zdigits2 m))%R).
  { intros m Hm. destruct (Zdigits2_spec m Hm) as [_ Hlt].
    rewrite <- IZR_pow2 by (pose proof (Zdigits2_pos m Hm); lia).
    rewrite <- plus_IZR. apply IZR_le. lia. }
  pose proof (U m1 H1) as U1. pose proof (U m2 H2) as U2.
  pose proof (bpow_gt_0 e1) as P1. pose proof (bpow_gt_0 e2) as P2.
  assert (A : (bpow (Zdigits2 m1 - 1 + e1) < bpow (Zdigits2 m2 + e2))%R).
  { rewrite !bpow_plus. nra. }
  assert (B : (bpow (Zdigits2 m2 - 1 + e2) < bpow (Zdigits2 m1 + e1))%R).
  { rewrite !bpow_plus. nra. }
  apply bpow_lt_inv in A, B. lia.
Qed.

(** A float is determined by its magnitude. *)
Lemma canonical_unique m1 e1 m2 e2 :
  bounded prec emax m1 e1 = true -> bounded prec emax m2 e2 = true ->
  (IZR (Zpos m1) * bpow e1 = IZR (Zpos m2) * bpow e2)%R ->
  m1 = m2 /\ e1 = e2.
Proof.
  intros B1 B2 H.
  apply bounded_inv in B1, B2. destruct B1 as [C1 _], B2 as [C2 _].
  pose proof (bpow_gt_0 e1) as P1. pose proof (bpow_gt_0 e2) as P2.
  assert (D : Zdigits2 (Zpos m1) + e1 = Zdigits2 (Zpos m2) + e2).
  { apply (binade_unique _ _ _ _ (IZR (Zpos m1) * bpow e1)%R); try lia.
    - nra.
    - rewrite H. nra. }
  cbn [Zdigits2] in D. rewrite D in C1.
  assert (E : e1 = e2) by congruence. subst e2. split; [ | reflexivity].
  apply Rmult_eq_reg_r in H; [ | lra].
  apply eq_IZR in H. congruence.
Qed.

(** Two floats that are not zeros and have the same real value are the same
    float. *)
Lemma B2R_inj sx mx ex sy my ey :
  bounded prec emax mx ex = true -> bounded prec emax my ey = true ->
  B2R (S754_finite sx mx ex) = B2R (S754_finite sy my ey) ->
  S754_finite sx mx ex = S754_finite sy my ey.
Proof.
  intros Bx By H. rewrite !B2R_finite in H.
  assert (Px : (0 < IZR (Zpos mx) * bpow ex)%R)
    by (apply Rmult_lt_0_compat; [apply IZR_lt; lia | apply bpow_gt_0]).
  assert (Py : (0 < IZR (Zpos my) * bpow ey)%R)
    by (apply Rmult_lt_0_compat; [apply IZR_lt; lia | apply bpow_gt_0]).
  assert (S : sx = sy) by (destruct sx, sy; cbn [sgn] in H; trivial; lra).
  subst sy.
  assert (E : (IZR (Zpos mx) * bpow ex = IZR (Zpos my) * bpow ey)%R)
    by (destruct sx; cbn [sgn] in H; lra).
  destruct (canonical_unique _ _ _ _ Bx By E) as [-> ->]. reflexivity.
Qed.

(** Rounding returns a value that is a float unchanged. *)
Theorem binary_round_aux_exact sx mx ex lx my ey :
  0 <= mx -> ex <= fexp prec emax (Zdigits2 mx + ex) ->
  bounded prec emax my ey = true ->
  inbetween mx ex lx (IZR (Zpos my) * bpow ey) ->
  binary_round_aux prec emax sx mx ex lx = S754_finite sx my ey.
Proof.
  intros Hm HA By Hin.
  set (v := (IZR (Zpos my) * bpow ey)%R) in *.
  pose proof (bounded_inv my ey By) as [Cy Ry].
  pose proof (bounded_lt_max my ey By) as Hmax.
  pose proof (bounded_ge_min my ey By) as Hmin. fold v in Hmax, Hmin.
  pose proof (bpow_gt_0 ex) as Pex. pose proof (bpow_gt_0 ey) as Pey.
  assert (Hup : (v < (IZR mx + 1) * bpow ex)%R).
  { destruct lx; cbn [inbetween] in Hin; [rewrite Hin; nra | lra]. }
  pose proof (inbetween_lower _ _ _ _ Hin) as Hlo.
  assert (He1 : fexp prec emax (Zdigits2 mx + ex) = ey).
  { destruct (Z.eq_dec mx 0) as [-> | Hne].
    - exfalso. cbn [Zdigits2] in HA. rewrite fexp_eq in HA.
      assert (bpow ex <= bpow (-1074))%R by (apply bpow_le; lia).
      lra.
    - rewrite <- Cy. f_equal.
      change (Zpos (digits2_pos my)) with (Zdigits2 (Zpos my)).
      apply (binade_unique _ _ _ _ v); try lia; try lra.
      unfold v. nra. }
  destruct (binary_round_aux_correct sx mx ex lx v Hm HA Hin) as (m2 & Hn & _ & Hr).
  rewrite He1 in Hn, Hr.
  assert (Hm2 : m2 = Zpos my).
  { unfold v in Hn. apply Rabs_le_inv in Hn.
    assert (- / 2 <= IZR m2 - IZR (Zpos my) <= / 2)%R by nra.
    rewrite <- minus_IZR in H.
    assert (-1 < m2 - Zpos my < 1).
    { split; apply lt_IZR; lra. }
    lia. }
  subst m2.
  inversion Hr as [Hz | m e He Hv Hb | Hi].
  - discriminate.
  - f_equal.
    + apply (canonical_unique m e my ey Hb By).
      rewrite <- Hv, IZR_mul_pow2 by lia. do 2 f_equal. lia.
    + apply (canonical_unique m e my ey Hb By).
      rewrite <- Hv, IZR_mul_pow2 by lia. do 2 f_equal. lia.
  - exfalso. change (bpow emax) with (bpow 1024) in Hi. unfold v in Hmax. lra.
Qed.

Lemma binary_round_exact sx mx ex my ey :
  bounded prec emax my ey = true ->
  (IZR (Zpos mx) * bpow ex = IZR (Zpos my) * bpow ey)%R ->
  binary_round prec emax sx mx ex = S754_finite sx my ey.
Proof.
  intros By Hv. unfold binary_round.
  set (f := fexp prec emax (Zpos (digits2_pos mx) + ex)) in *.
  destruct (Z_le_gt_dec f ex) as [Hf | Hf].
  - assert (Hm : Zpos (fst (shl_align mx ex f)) = Zpos mx * 2 ^ (ex - f))
      by now apply shl_align_fst.
    assert (Hs : snd (shl_align mx ex f) = f) by now rewrite shl_align_le.
    destruct (shl_align mx ex f) as [mz ez]. cbn [fst snd] in *. subst ez.
    assert (Hd : fexp prec emax (Zdigits2 (Zpos mz) + f) = f).
    { rewrite Hm, Zdigits2_mul_pow2 by lia.
      replace (Zdigits2 (Zpos mx) + (ex - f) + f) with (Zpos (digits2_pos mx) + ex)
        by (cbn [Zdigits2]; lia).
      reflexivity. }
    apply binary_round_aux_exact; [lia | lia | exact By | ].
    cbn [inbetween]. rewrite <- Hv, Hm, IZR_mul_pow2 by lia. do 2 f_equal. lia.
  - rewrite shl_align_gt by lia.
    apply binary_round_aux_exact; [lia | cbn [Zdigits2]; fold f; lia | exact By | ].
    cbn [inbetween]. symmetry. exact Hv.
Qed.

Lemma binary_normalize_exact m e sz z :
  valid z = true -> is_finite z = true ->
  B2R z = (IZR m * bpow e)%R -> m <> 0 ->
  binary_normalize prec emax m e sz = z.
Proof.
  intros Vz Fz Hv Hm. pose proof (bpow_gt_0 e) as Pe.
  destruct z as [s | s | | s mz ez]; try discriminate.
  - exfalso. cbn [B2R] in Hv. symmetry in Hv.
    apply Rmult_integral in Hv. destruct Hv as [Hv | Hv]; [ | lra].
    apply eq_IZR in Hv. contradiction.
  - cbn [valid valid_binary] in Vz. rewrite B2R_finite in Hv.
    assert (Pz : (0 < IZR (Zpos mz) * bpow ez)%R)
      by (apply Rmult_lt_0_compat; [apply IZR_lt; lia | apply bpow_gt_0]).
    destruct m as [ | p | p]; [contradiction | | ]; cbn [binary_normalize].
    + assert (0 < IZR (Zpos p))%R by (apply IZR_lt; lia).
      destruct s; cbn [sgn] in Hv; [nra | ].
      apply binary_round_exact; [exact Vz | lra].
    + assert (0 < IZR (Zpos p))%R by (apply IZR_lt; lia).
      change (Zneg p) with (- Zpos p) in Hv. rewrite opp_IZR in Hv.
      destruct s; cbn [sgn] in Hv; [ | nra].
      apply binary_round_exact; [exact Vz | lra].
Qed.

Lemma finite_mag_pos m e : (0 < IZR (Zpos m) * bpow e)%R.
Proof. apply Rmult_lt_0_compat; [apply IZR_lt; lia | apply bpow_gt_0]. Qed.

Lemma sgn_mag_inj s1 s2 a b :
  (0 < a)%R -> (0 < b)%R -> (sgn s1 * a = sgn s2 * b)%R -> s1 = s2 /\ a = b.
Proof. intros Ha Hb H. destruct s1, s2; cbn [sgn] in H; split; trivial; lra. Qed.

Lemma is_zero_B2R z : is_finite z = true -> B2R z = 0%R -> is_zero z = true.
Proof.
  destruct z as [s | s | | s m e]; try discriminate; [reflexivity | ].
  intros _ H. now apply B2R_finite_neq_0 in H.
Qed.

Lemma eqb_zeros x z : is_zero x = true -> is_zero z = true -> eqb x z = true.
Proof.
  destruct x as [[] | | | ]; try discriminate;
    destruct z as [[] | | | ]; try discriminate; reflexivity.
Qed.

(** A result that is the float [z], or a zero when [z] is a zero, compares
    equal to [z]. *)
Lemma eqb_of_exact r z :
  is_finite z = true ->
  (is_zero z = false -> r = z) -> (is_zero z = true -> is_zero r = true) ->
  eqb r z = true.
Proof.
  intros Fz Hn Hz. destruct (is_zero z) eqn:Z.
  - apply eqb_zeros; auto.
  - rewrite Hn by reflexivity. apply eqb_refl_not_nan.
    destruct z; try discriminate; reflexivity.
Qed.

(** Two valid finite floats with the same real value compare equal. *)
Lemma eqb_of_B2R x z :
  valid x = true -> valid z = true -> is_finite x = true -> is_finite z = true ->
  B2R x = B2R z -> eqb x z = true.
Proof.
  intros Vx Vz Fx Fz H.
  destruct x as [sx | sx | | sx mx ex]; try discriminate;
    destruct z as [sz | sz | | sz mz ez]; try discriminate.
  - now apply eqb_zeros.
  - exfalso. symmetry in H. now apply B2R_finite_neq_0 in H.
  - exfalso. now apply B2R_finite_neq_0 in H.
  - rewrite (B2R_inj _ _ _ _ _ _ Vx Vz H). now apply eqb_refl_not_nan.
Qed.

(** The sum of two finite floats before rounding: an integer at the smaller
    exponent. *)
Lemma add_finite_sum sx mx ex sy my ey :
  exists S,
    Float64.add (S754_finite sx mx ex) (S754_finite sy my ey)
      = binary_normalize prec emax S (Z.min ex ey) false /\
    (IZR S * bpow (Z.min ex ey)
       = B2R (S754_finite sx mx ex) + B2R (S754_finite sy my ey))%R.
Proof.
  unfold Float64.add, SFadd. set (ez := Z.min ex ey).
  rewrite (shl_align_fst mx ex ez), (shl_align_fst my ey ez) by (unfold ez; lia).
  eexists. split; [reflexivity | ].
  rewrite plus_IZR, !IZR_cond_Zopp, !B2R_finite.
  rewrite Rmult_plus_distr_r, !Rmult_assoc.
  rewrite !IZR_mul_pow2 by (unfold ez; lia).
  replace (ez + (ex - ez)) with ex by lia.
  replace (ez + (ey - ez)) with ey by lia. reflexivity.
Qed.

Lemma float_add_exact x y z :
  valid x = true -> valid y = true -> valid z = true ->
  is_finite x = true -> is_finite y = true -> is_finite z = true ->
  B2R z = (B2R x + B2R y)%R ->
  (is_zero z = false -> Float64.add x y = z) /\
  (is_zero z = true -> is_zero (Float64.add x y) = true).
Proof.
  intros Vx Vy Vz Fx Fy Fz H.
  destruct x as [sx | sx | | sx mx ex]; try discriminate;
    destruct y as [sy | sy | | sy my ey]; try discriminate.
  - split; [ | intros _; destruct sx, sy; reflexivity].
    destruct z as [s | s | | s m e]; try discriminate. intros _. exfalso.
    cbn [B2R] in H |- *. rewrite Rplus_0_l in H. now apply B2R_finite_neq_0 in H.
  - cbn [Float64.add SFadd]. cbn [B2R] in H. rewrite Rplus_0_l in H.
    destruct z as [s | s | | s m e]; try discriminate.
    + split; [discriminate | ]. intros _. exfalso. symmetry in H.
      now apply B2R_finite_neq_0 in H.
    + split; [ | discriminate]. intros _. symmetry. now apply B2R_inj.
  - cbn [Float64.add SFadd]. cbn [B2R] in H. rewrite Rplus_0_r in H.
    destruct z as [s | s | | s m e]; try discriminate.
    + split; [discriminate | ]. intros _. exfalso. symmetry in H.
      now apply B2R_finite_neq_0 in H.
    + split; [ | discriminate]. intros _. symmetry. now apply B2R_inj.
  - destruct (add_finite_sum sx mx ex sy my ey) as (S & -> & HS).
    rewrite <- HS in H. pose proof (bpow_gt_0 (Z.min ex ey)) as P.
    destruct z as [s | s | | s m e]; try discriminate.
    + split; [discriminate | ]. intros _. cbn [B2R] in H.
      symmetry in H. apply Rmult_integral in H. destruct H as [H | H]; [ | lra].
      apply eq_IZR in H. subst S. reflexivity.
    + split; [ | discriminate]. intros _.
      apply binary_normalize_exact; trivial.
      intros ->. rewrite Rmult_0_l in H. now apply B2R_finite_neq_0 in H.
Qed.

Lemma float_sub_exact x y z :
  valid x = true -> valid y = true -> valid z = true ->
  is_finite x = true -> is_finite y = true -> is_finite z = true ->
  B2R z = (B2R x - B2R y)%R ->
  (is_zero z = false -> Float64.sub x y = z) /\
  (is_zero z = true -> is_zero (Float64.sub x y) = true).
Proof.
  intros Vx Vy Vz Fx Fy Fz H. rewrite sub_add_opp.
  apply float_add_exact; trivial.
  - now rewrite valid_opp.
  - now rewrite is_finite_opp.
  - rewrite B2R_opp. exact H.
Qed.

Lemma float_mul_exact x y z :
  valid x = true -> valid y = true -> valid z = true ->
  is_finite x = true -> is_finite y = true -> is_finite z = true ->
  B2R z = (B2R x * B2R y)%R ->
  (is_zero z = false -> Float64.mul x y = z) /\
  (is_zero z = true -> is_zero (Float64.mul x y) = true).
Proof.
  intros Vx Vy Vz Fx Fy Fz H.
  assert (Z0 : B2R z = 0%R ->
               forall r, is_zero r = true ->
               (is_zero z = false -> r = z) /\ (is_zero z = true -> is_zero r = true)).
  { intros H0 r Hr. split; [ | trivial]. intros Hz. exfalso.
    apply is_zero_B2R in H0; congruence. }
  destruct x as [sx | sx | | sx mx ex]; try discriminate;
    destruct y as [sy | sy | | sy my ey]; try discriminate;
    cbn [Float64.mul SFmul B2R] in H |- *;
    rewrite ?Rmult_0_l, ?Rmult_0_r in H; try (apply Z0; [exact H | reflexivity]).
  destruct z as [s | s | | s m e]; try discriminate.
  - exfalso. cbn [B2R] in H. symmetry in H.
    pose proof (B2R_finite_neq_0 sx mx ex) as Nx.
    pose proof (B2R_finite_neq_0 sy my ey) as Ny. cbn [B2R] in Nx, Ny.
    apply Rmult_integral in H. tauto.
  - split; [ | discriminate]. intros _.
    cbn [valid valid_binary] in Vx, Vy, Vz.
    pose proof (bounded_inv _ _ Vx) as [Cx Bx].
    pose proof (bounded_inv _ _ Vy) as [Cy By].
    assert (HV : (sgn s * (IZR (Zpos m) * bpow e)
                  = sgn (xorb sx sy) * (IZR (Zpos (mx * my)) * bpow (ex + ey)))%R).
    { rewrite <- B2R_finite, H.
      rewrite !IZR_cond_Zopp, sgn_xorb, Pos2Z.inj_mul, mult_IZR, bpow_plus. ring. }
    apply sgn_mag_inj in HV; try apply finite_mag_pos. destruct HV as [-> HV].
    apply binary_round_aux_exact; [lia | | exact Vz | ].
    + pose proof (Zdigits2_mul_ge (Zpos mx) (Zpos my) ltac:(lia) ltac:(lia)) as Hd.
      change (Zpos mx * Zpos my) with (Zpos (mx * my)) in Hd.
      cbn [Zdigits2] in *. rewrite fexp_eq in *. lia.
    + cbn [inbetween]. exact HV.
Qed.

Lemma float_div_exact x y z :
  valid z = true ->
  is_finite x = true -> is_finite y = true -> is_finite z = true ->
  is_zero y = false ->
  B2R x = (B2R z * B2R y)%R ->
  (is_zero z = false -> Float64.div x y = z) /\
  (is_zero z = true -> is_zero (Float64.div x y) = true).
Proof.
  intros Vz Fx Fy Fz Zy H.
  destruct y as [sy | sy | | sy my ey]; try discriminate.
  destruct x as [sx | sx | | sx mx ex]; try discriminate.
  - cbn [Float64.div SFdiv]. split; [ | reflexivity]. intros Hz. exfalso.
    cbn [B2R] in H. symmetry in H. apply Rmult_integral in H.
    destruct H as [H | H]; [ | now apply (B2R_finite_neq_0 sy my ey)].
    apply is_zero_B2R in H; congruence.
  - destruct z as [s | s | | s m e]; try discriminate.
    + exfalso. cbn [B2R] in H. rewrite Rmult_0_l in H.
      now apply (B2R_finite_neq_0 sx mx ex).
    + split; [ | discriminate]. intros _.
      unfold Float64.div, SFdiv.
      pose proof (div_core_correct mx ex my ey) as Hc.
      destruct (SFdiv_core_binary prec emax (Zpos mx) ex (Zpos my) ey) as [[q e'] l].
      destruct Hc as (Hq & HA & Hin).
      pose proof (finite_mag_pos mx ex) as Px.
      pose proof (finite_mag_pos my ey) as Py.
      pose proof (finite_mag_pos m e) as Pz.
      assert (HV : (sgn (xorb sx sy) * (IZR (Zpos mx) * bpow ex / (IZR (Zpos my) * bpow ey))
                    = sgn s * (IZR (Zpos m) * bpow e))%R).
      { rewrite !B2R_finite in H. rewrite sgn_xorb.
        revert H Px Py Pz.
        generalize (IZR (Zpos mx) * bpow ex)%R (IZR (Zpos my) * bpow ey)%R
                   (IZR (Zpos m) * bpow e)%R.
        intros X Y Z H Px Py Pz.
        apply (Rmult_eq_reg_r (sgn sy * Y)).
        - transitivity (sgn sx * (sgn sy * sgn sy) * X)%R; [field; lra | ].
          replace (sgn sy * sgn sy)%R with 1%R by (destruct sy; cbn [sgn]; ring).
          rewrite Rmult_1_r, H. ring.
        - destruct sy; cbn [sgn]; lra. }
      apply sgn_mag_inj in HV; try assumption;
        [ | apply Rdiv_lt_0_compat; assumption].
      destruct HV as [-> HV]. rewrite HV in Hin.
      now apply binary_round_aux_exact.
Qed.

Lemma float_sqrt_exact x z :
  valid z = true -> is_finite x = true -> is_finite z = true ->
  (0 <= B2R z)%R -> B2R x = (B2R z * B2R z)%R ->
  (is_zero z = false -> Float64.sqrt x = z) /\
  (is_zero z = true -> is_zero (Float64.sqrt x) = true).
Proof.
  intros Vz Fx Fz Pz H.
  destruct x as [sx | sx | | sx mx ex]; try discriminate.
  - cbn [Float64.sqrt SFsqrt]. split; [ | reflexivity]. intros Hz. exfalso.
    cbn [B2R] in H. symmetry in H. apply Rmult_integral in H.
    assert (H0 : B2R z = 0%R) by tauto.
    apply is_zero_B2R in H0; congruence.
  - destruct z as [s | s | | s m e]; try discriminate.
    + exfalso. cbn [B2R] in H. rewrite Rmult_0_l in H.
      now apply (B2R_finite_neq_0 sx mx ex).
    + split; [ | discriminate]. intros _.
      pose proof (finite_mag_pos mx ex) as Px.
      pose proof (finite_mag_pos m e) as Pm.
      rewrite !B2R_finite in H, Pz.
      assert (s = false) by (destruct s; cbn [sgn] in Pz; trivial; lra). subst s.
      assert (sx = false).
      { destruct sx; cbn [sgn] in H; trivial. nra. }
      subst sx. cbn [sgn] in H. rewrite !Rmult_1_l in H.
      unfold Float64.sqrt, SFsqrt.
      pose proof (sqrt_core_correct mx ex) as Hc.
      destruct (SFsqrt_core_binary prec emax (Zpos mx) ex) as [[q e'] l].
      destruct Hc as (Hq & _ & HA & Hin).
      rewrite H, sqrt_square in Hin by (apply Rlt_le, Pm).
      now apply binary_round_aux_exact.
Qed.

(** ** Integers as floats *)

Lemma Zdigits2_le a b : 0 < a -> a <= b -> Zdigits2 a <= Zdigits2 b.
Proof.
  intros Ha Hab.
  destruct (Zdigits2_spec a Ha) as [La _].
  destruct (Zdigits2_spec b ltac:(lia)) as [_ Ub].
  assert (H : 2 ^ (Zdigits2 a - 1) < 2 ^ Zdigits2 b) by lia.
  apply Z.pow_lt_mono_r_iff in H; [lia | lia | ].
  pose proof (Zdigits2_pos b ltac:(lia)). lia.
Qed.

Lemma Zdigits2_lt_pow2 a k : 0 < a -> 0 <= k -> a < 2 ^ k -> Zdigits2 a <= k.
Proof.
  intros Ha Hk Hlt.
  destruct (Zdigits2_spec a Ha) as [La _].
  assert (H : 2 ^ (Zdigits2 a - 1) < 2 ^ k) by lia.
  apply Z.pow_lt_mono_r_iff in H; lia.
Qed.

(** A mantissa of at most 53 bits at an exponent in range is the magnitude
    of a float. *)
Lemma representable p e :
  Zpos (digits2_pos p) <= 53 -> -1074 <= e -> Zpos (digits2_pos p) + e <= 1024 ->
  exists m e',
    bounded prec emax m e' = true /\
    (IZR (Zpos m) * bpow e' = IZR (Zpos p) * bpow e)%R.
Proof.
  intros Hd He Hmax.
  set (f := fexp prec emax (Zpos (digits2_pos p) + e)).
  assert (Hf : f <= e) by (unfold f; rewrite fexp_eq; lia).
  assert (Hm : Zpos (fst (shl_align p e f)) = Zpos p * 2 ^ (e - f))
    by now apply shl_align_fst.
  exists (fst (shl_align p e f)), f. split.
  - unfold bounded, canonical_mantissa. apply andb_true_iff. split.
    + apply Z.eqb_eq. change (Zpos (digits2_pos (fst (shl_align p e f))))
        with (Zdigits2 (Zpos (fst (shl_align p e f)))).
      rewrite Hm, Zdigits2_mul_pow2 by lia. cbn [Zdigits2].
      replace (Zpos (digits2_pos p) + (e - f) + f) with (Zpos (digits2_pos p) + e) by lia.
      reflexivity.
    + apply Z.leb_le. unfold f. rewrite fexp_eq. unfold emax, prec. lia.
  - rewrite Hm, IZR_mul_pow2 by lia. do 2 f_equal. lia.
Qed.

(** Below [2^53] the conversion of an integer to a float is exact. *)
Lemma of_int_exact n :
  Z.abs n < 2 ^ 53 ->
  valid (of_int n) = true /\ is_finite (of_int n) = true /\ B2R (of_int n) = IZR n.
Proof.
  intros Hn.
  assert (G : forall s p, Zpos p < 2 ^ 53 ->
    valid (binary_round prec emax s p 0) = true /\
    is_finite (binary_round prec emax s p 0) = true /\
    B2R (binary_round prec emax s p 0) = (sgn s * IZR (Zpos p))%R).
  { intros s p Hp.
    destruct (representable p 0) as (m & e' & Hb & Hv).
    - change (Zpos (digits2_pos p)) with (Zdigits2 (Zpos p)).
      apply Zdigits2_lt_pow2; lia.
    - lia.
    - change (Zpos (digits2_pos p)) with (Zdigits2 (Zpos p)).
      pose proof (Zdigits2_lt_pow2 (Zpos p) 53 ltac:(lia) ltac:(lia) Hp). lia.
    - rewrite (binary_round_exact s p 0 m e' Hb) by (symmetry; exact Hv).
      split; [exact Hb | split; [reflexivity | ]].
      rewrite B2R_finite, Hv, bpow_0. ring. }
  destruct n as [ | p | p]; unfold of_int; cbn [binary_normalize].
  - repeat split.
  - destruct (G false p) as (V & F & B); [lia | ].
    split; [exact V | split; [exact F | ]]. rewrite B. cbn [sgn]. ring.
  - destruct (G true p) as (V & F & B); [lia | ].
    split; [exact V | split; [exact F | ]]. rewrite B. cbn [sgn].
    change (Zneg p) with (- Zpos p). rewrite opp_IZR. ring.
Qed.

(** An integer of at most 53 bits at an exponent in range is not rounded. *)
Lemma binary_normalize_small S e :
  Zdigits2 (Z.abs S) <= 53 -> -1074 <= e <= 971 ->
  valid (binary_normalize prec emax S e false) = true /\
  is_finite (binary_normalize prec emax S e false) = true /\
  B2R (binary_normalize prec emax S e false) = (IZR S * bpow e)%R.
Proof.
  intros Hd He.
  assert (G : forall s p, Zpos (digits2_pos p) <= 53 ->
    valid (binary_round prec emax s p e) = true /\
    is_finite (binary_round prec emax s p e) = true /\
    B2R (binary_round prec emax s p e) = (sgn s * (IZR (Zpos p) * bpow e))%R).
  { intros s p Hp.
    destruct (representable p e Hp ltac:(lia) ltac:(lia)) as (m & e' & Hb & Hv).
    rewrite (binary_round_exact s p e m e' Hb) by (symmetry; exact Hv).
    split; [exact Hb | split; [reflexivity | ]].
    now rewrite B2R_finite, Hv. }
  destruct S as [ | p | p]; cbn [binary_normalize Z.abs Zdigits2] in *.
  - split; [reflexivity | split; [reflexivity | ]]. cbn [B2R]. ring.
  - destruct (G false p Hd) as (V & F & B).
    split; [exact V | split; [exact F | ]]. rewrite B. cbn [sgn]. ring.
  - destruct (G true p Hd) as (V & F & B).
    split; [exact V | split; [exact F | ]]. rewrite B. cbn [sgn].
    change (Zneg p) with (- Zpos p). rewrite opp_IZR. ring.
Qed.

(** A finite float whose value is the integer [k] converts back to [k]. *)
Lemma to_int_exact x k :
  is_finite x = true -> B2R x = IZR k -> to_int x = Some k.
Proof.
  intros Fx H. destruct x as [s | s | | s m e]; try discriminate.
  - cbn [B2R] in H. apply eq_IZR in H. subst k. reflexivity.
  - cbn [B2R] in H. unfold to_int.
    assert (C : forall z, IZR (cond_Zopp s z) = IZR k -> cond_Zopp s z = k)
      by (intros z; apply eq_IZR).
    destruct e as [ | q | q].
    + cbn [option_map]. f_equal. rewrite bpow_0, Rmult_1_r in H.
      apply eq_IZR in H. rewrite <- H. destruct s; cbn [cond_Zopp]; lia.
    + cbn [option_map]. f_equal.
      rewrite <- IZR_pow2, <- mult_IZR in H by lia. apply eq_IZR in H.
      rewrite <- H. destruct s; cbn [cond_Zopp]; lia.
    + assert (Hm : cond_Zopp s (Zpos m) = k * 2 ^ Zpos q).
      { apply eq_IZR. rewrite mult_IZR, IZR_pow2, <- H by lia.
        rewrite Rmult_assoc, <- bpow_plus.
        replace (Zneg q + Zpos q) with 0 by lia. rewrite bpow_0. ring. }
      assert (Hp : 0 < 2 ^ Zpos q) by (apply Z.pow_pos_nonneg; lia).
      assert (Hk : Zpos m = Z.abs k * 2 ^ Zpos q).
      { destruct s; cbn [cond_Zopp] in Hm; nia. }
      rewrite Hk, Z.mod_mul, Z.div_mul by lia. cbn [Z.eqb option_map]. f_equal.
      destruct s; cbn [cond_Zopp] in Hm |- *; nia.
Qed.

(** A result that is the float [z], or a zero when [z] is one, is finite
    and has the value of [z]. *)
Lemma value_of_exact r z :
  is_finite z = true ->
  (is_zero z = false -> r = z) -> (is_zero z = true -> is_zero r = true) ->
  is_finite r = true /\ B2R r = B2R z.
Proof.
  intros Fz Hn Hz. destruct (is_zero z) eqn:Z.
  - specialize (Hz eq_refl).
    destruct r; try discriminate; destruct z; try discriminate. split; reflexivity.
  - rewrite Hn by reflexivity. split; [exact Fz | reflexivity].
Qed.

Lemma of_int_is_zero k : Z.abs k < 2 ^ 53 -> is_zero (of_int k) = true -> k = 0.
Proof.
  intros Hk Hz. destruct (of_int_exact k Hk) as (_ & _ & B).
  destruct (of_int k); try discriminate.
  cbn [B2R] in B. symmetry in B. now apply eq_IZR in B.
Qed.

Lemma of_int_nonzero k :
  Z.abs k < 2 ^ 53 -> k <> 0 ->
  exists m e, of_int k = S754_finite (k <? 0) m e /\ bounded prec emax m e = true.
Proof.
  intros Hk Hne. destruct (of_int_exact k Hk) as (V & F & B).
  pose proof (binary_normalize_sign prec emax k 0 false Hne) as S. fold (of_int k) in S.
  destruct (of_int k) as [s | s | | s m e]; try discriminate.
  - exfalso. cbn [B2R] in B. symmetry in B. now apply eq_IZR in B.
  - cbn [sign] in S. injection S as ->. exists m, e. split; [reflexivity | exact V].
Qed.

(** ** Rounding and the sign *)

(** Rounding treats the two signs alike. *)
Lemma abs_binary_round_aux s m e l :
  abs (binary_round_aux prec emax s m e l) = binary_round_aux prec emax false m e l.
Proof.
  unfold binary_round_aux.
  destruct (shr_fexp prec emax m e l) as [mrs' e'].
  destruct (shr_fexp prec emax _ e' loc_Exact) as [mrs'' e''].
  destruct (shr_m mrs''); try reflexivity.
  destruct (e'' <=? emax - prec); reflexivity.
Qed.

Lemma abs_binary_round s m e :
  abs (binary_round prec emax s m e) = binary_round prec emax false m e.
Proof.
  unfold binary_round. destruct (shl_align m e _) as [mz ez].
  apply abs_binary_round_aux.
Qed.

Lemma abs_of_int n : abs (of_int n) = of_int (Z.abs n).
Proof.
  destruct n as [ | p | p]; unfold of_int; cbn [binary_normalize Z.abs].
  - reflexivity.
  - rewrite abs_binary_round. reflexivity.
  - rewrite abs_binary_round. reflexivity.
Qed.

Lemma mul_comm x y : Float64.mul x y = Float64.mul y x.
Proof.
  destruct x as [sx | sx | | sx mx ex], y as [sy | sy | | sy my ey];
    cbn [Float64.mul SFmul]; try reflexivity;
    try (now rewrite xorb_comm).
  now rewrite xorb_comm, Pos.mul_comm, Z.add_comm.
Qed.

Lemma abs_mul x y : abs (Float64.mul x y) = Float64.mul (abs x) (abs y).
Proof.
  destruct x as [sx | sx | | sx mx ex], y as [sy | sy | | sy my ey];
    cbn [Float64.mul SFmul abs SFabs xorb]; try reflexivity.
  apply abs_binary_round_aux.
Qed.

Lemma abs_div x y : abs (Float64.div x y) = Float64.div (abs x) (abs y).
Proof.
  destruct x as [sx | sx | | sx mx ex], y as [sy | sy | | sy my ey];
    cbn [Float64.div SFdiv abs SFabs xorb]; try reflexivity.
  destruct (SFdiv_core_binary prec emax (Zpos mx) ex (Zpos my) ey) as [[q e'] l].
  apply abs_binary_round_aux.
Qed.

Lemma opp_binary_round s m e :
  opp (binary_round prec emax s m e) = binary_round prec emax (negb s) m e.
Proof.
  unfold binary_round. destruct (shl_align m e _) as [mz ez].
  unfold binary_round_aux.
  destruct (shr_fexp prec emax (Zpos mz) ez loc_Exact) as [mrs' e'].
  destruct (shr_fexp prec emax _ e' loc_Exact) as [mrs'' e''].
  destruct (shr_m mrs''); try reflexivity.
  destruct (e'' <=? emax - prec); reflexivity.
Qed.

Lemma opp_binary_normalize S e :
  S <> 0 ->
  opp (binary_normalize prec emax S e false) = binary_normalize prec emax (- S) e false.
Proof.
  intros HS. destruct S as [ | p | p]; [contradiction | | ];
    cbn [binary_normalize Z.opp]; apply opp_binary_round.
Qed.

(** Negating both operands negates the sum (an exact zero sum stays [+0],
    which compares equal to [-0]). *)
Lemma add_opp_opp x y :
  is_finite x = true -> is_finite y = true ->
  eqb (Float64.add (opp x) (opp y)) (opp (Float64.add x y)) = true.
Proof.
  intros Fx Fy.
  destruct x as [sx | sx | | sx mx ex]; try discriminate;
    destruct y as [sy | sy | | sy my ey]; try discriminate.
  - destruct sx, sy; reflexivity.
  - cbn [Float64.add SFadd opp SFopp]. now apply eqb_refl_not_nan.
  - cbn [Float64.add SFadd opp SFopp]. now apply eqb_refl_not_nan.
  - cbn [opp SFopp].
    destruct (add_finite_sum sx mx ex sy my ey) as (S & E & HS).
    destruct (add_finite_sum (negb sx) mx ex (negb sy) my ey) as (S' & E' & HS').
    rewrite E, E'.
    assert (HSS : S' = - S).
    { apply eq_IZR. pose proof (bpow_gt_0 (Z.min ex ey)) as P.
      apply (Rmult_eq_reg_r (bpow (Z.min ex ey))); [ | lra].
      rewrite HS', opp_IZR, Ropp_mult_distr_l_reverse, HS, !B2R_finite.
      destruct sx, sy; cbn [negb sgn]; ring. }
    subst S'. destruct (Z.eq_dec S 0) as [-> | HS0]; [reflexivity | ].
    rewrite opp_binary_normalize by exact HS0.
    apply eqb_refl_not_nan.
    eapply sign_not_nan, binary_normalize_sign. lia.
Qed.

Lemma opp_opp x : opp (opp x) = x.
Proof. destruct x as [[] | [] | | [] m e]; reflexivity. Qed.

Lemma sub_diag x : is_finite x = true -> Float64.sub x x = zero.
Proof.
  intros Fx. destruct x as [sx | sx | | sx mx ex]; try discriminate.
  - destruct sx; reflexivity.
  - rewrite sub_add_opp. cbn [opp SFopp].
    destruct (add_finite_sum sx mx ex (negb sx) mx ex) as (S & -> & HS).
    assert (S = 0).
    { apply eq_IZR. pose proof (bpow_gt_0 (Z.min ex ex)) as P.
      apply (Rmult_eq_reg_r (bpow (Z.min ex ex))); [ | lra].
      rewrite HS, !B2R_finite. destruct sx; cbn [negb sgn]; ring. }
    subst S. reflexivity.
Qed.

(** ** Results in range are finite *)

(** Rounding a value that is at most a float gives at most that float. *)
Lemma binary_round_aux_below sx mx ex lx v my ey :
  0 <= mx -> ex <= fexp prec emax (Zdigits2 mx + ex) -> inbetween mx ex lx v ->
  bounded prec emax my ey = true ->
  (v <= IZR (Zpos my) * bpow ey)%R ->
  is_finite (binary_round_aux prec emax sx mx ex lx) = true /\
  (Rabs (B2R (binary_round_aux prec emax sx mx ex lx)) <= IZR (Zpos my) * bpow ey)%R.
Proof.
  intros Hm HA Hin Hb Hle.
  set (e1 := fexp prec emax (Zdigits2 mx + ex)) in *.
  pose proof (bounded_lt_max my ey Hb) as Hmax.
  pose proof (bounded_inv my ey Hb) as [Cy Ry].
  pose proof (inbetween_lower _ _ _ _ Hin) as Hlo.
  pose proof (bpow_gt_0 ex) as Pex. pose proof (bpow_gt_0 ey) as Pey.
  assert (He : e1 <= ey).
  { destruct (Z.eq_dec mx 0) as [-> | Hne].
    - unfold e1 in *. cbn [Zdigits2] in *. rewrite fexp_eq in *. lia.
    - pose proof (bpow_digits_le mx ltac:(lia)) as Dx.
      pose proof (IZR_lt_bpow_digits (Zpos my) ltac:(lia)) as Dy.
      cbn [Zdigits2] in Dy.
      assert (H : (bpow (Zdigits2 mx - 1 + ex) < bpow (Zpos (digits2_pos my) + ey))%R).
      { rewrite !bpow_plus. nra. }
      apply bpow_lt_inv in H. unfold e1. rewrite fexp_eq in *. lia. }
  set (K := Zpos my * 2 ^ (ey - e1)).
  assert (HK : (IZR K * bpow e1 = IZR (Zpos my) * bpow ey)%R).
  { unfold K. rewrite IZR_mul_pow2 by lia. do 2 f_equal. lia. }
  rewrite <- HK in Hle, Hmax |- *.
  apply (binary_round_aux_le sx mx ex lx v K); assumption.
Qed.

Lemma B2R_max_float : B2R max_float = (IZR 9007199254740991 * bpow 971)%R.
Proof. reflexivity. Qed.

(** The sum of two finite floats is finite when the exact sum is at most
    the largest float. *)
Lemma add_below_max x y :
  is_finite x = true -> is_finite y = true ->
  (Rabs (B2R x + B2R y) <= B2R max_float)%R ->
  is_finite (Float64.add x y) = true.
Proof.
  intros Fx Fy H.
  destruct x as [sx | sx | | sx mx ex]; try discriminate;
    destruct y as [sy | sy | | sy my ey]; try discriminate;
    try reflexivity.
  - destruct sx, sy; reflexivity.
  - destruct (add_finite_sum sx mx ex sy my ey) as (S & -> & HS).
    rewrite <- HS, B2R_max_float in H.
    pose proof (bpow_gt_0 (Z.min ex ey)) as P.
    destruct S as [ | p | p]; cbn [binary_normalize]; [reflexivity | | ].
    + apply (binary_round_le false p _ 9007199254740991 971); [reflexivity | ].
      rewrite Rabs_pos_eq in H; [exact H | ].
      apply Rmult_le_pos; [apply IZR_le; lia | lra].
    + apply (binary_round_le true p _ 9007199254740991 971); [reflexivity | ].
      change (Zneg p) with (- Zpos p) in H. rewrite opp_IZR in H.
      replace (- IZR (Zpos p) * bpow (Z.min ex ey))%R
        with (- (IZR (Zpos p) * bpow (Z.min ex ey)))%R in H by ring.
      rewrite Rabs_Ropp, Rabs_pos_eq in H; [exact H | ].
      apply Rmult_le_pos; [apply IZR_le; lia | lra].
Qed.

Lemma mul_below_max x y :
  valid x = true -> valid y = true -> is_finite x = true -> is_finite y = true ->
  (Rabs (B2R x * B2R y) <= B2R max_float)%R ->
  is_finite (Float64.mul x y) = true.
Proof.
  intros Vx Vy Fx Fy H.
  destruct x as [sx | sx | | sx mx ex]; try discriminate;
    destruct y as [sy | sy | | sy my ey]; try discriminate;
    try reflexivity.
  cbn [valid valid_binary] in Vx, Vy.
  pose proof (bounded_inv _ _ Vx) as [Cx Bx].
  pose proof (bounded_inv _ _ Vy) as [Cy By].
  rewrite B2R_max_float, !B2R_finite in H.
  replace (sgn sx * (IZR (Zpos mx) * bpow ex) * (sgn sy * (IZR (Zpos my) * bpow ey)))%R
    with (sgn (xorb sx sy) * (IZR (Zpos (mx * my)) * bpow (ex + ey)))%R in H
    by (rewrite sgn_xorb, Pos2Z.inj_mul, mult_IZR, bpow_plus; ring).
  rewrite Rabs_sgn_mult, Rabs_pos_eq in H by (apply Rlt_le, finite_mag_pos).
  cbn [Float64.mul SFmul].
  apply (binary_round_aux_below _ _ _ _
           (IZR (Zpos (mx * my)) * bpow (ex + ey))%R 9007199254740991 971);
    [lia | | reflexivity | reflexivity | exact H].
  pose proof (Zdigits2_mul_ge (Zpos mx) (Zpos my) ltac:(lia) ltac:(lia)) as Hd.
  change (Zpos mx * Zpos my) with (Zpos (mx * my)) in Hd.
  cbn [Zdigits2] in *. rewrite fexp_eq in *. lia.
Qed.

Lemma div_below_max x y :
  is_finite x = true -> is_finite y = true -> is_zero y = false ->
  (Rabs (B2R x / B2R y) <= B2R max_float)%R ->
  is_finite (Float64.div x y) = true.
Proof.
  intros Fx Fy Zy H.
  destruct y as [sy | sy | | sy my ey]; try discriminate.
  destruct x as [sx | sx | | sx mx ex]; try discriminate; [reflexivity | ].
  unfold Float64.div, SFdiv.
  pose proof (div_core_correct mx ex my ey) as Hc.
  destruct (SFdiv_core_binary prec emax (Zpos mx) ex (Zpos my) ey) as [[q e'] l].
  destruct Hc as (Hq & HA & Hin).
  pose proof (finite_mag_pos mx ex) as Px.
  pose proof (finite_mag_pos my ey) as Py.
  rewrite B2R_max_float, !B2R_finite in H.
  replace (sgn sx * (IZR (Zpos mx) * bpow ex) / (sgn sy * (IZR (Zpos my) * bpow ey)))%R
    with (sgn (xorb sx sy) * (IZR (Zpos mx) * bpow ex / (IZR (Zpos my) * bpow ey)))%R in H.
  - rewrite Rabs_sgn_mult, Rabs_pos_eq in H
      by (apply Rlt_le, Rdiv_lt_0_compat; assumption).
    apply (binary_round_aux_below _ _ _ _
             (IZR (Zpos mx) * bpow ex / (IZR (Zpos my) * bpow ey))%R
             9007199254740991 971);
      [exact Hq | exact HA | exact Hin | reflexivity | exact H].
  - rewrite sgn_xorb. revert Px Py.
    generalize (IZR (Zpos mx) * bpow ex)%R (IZR (Zpos my) * bpow ey)%R.
    intros X Y Px Py. destruct sx, sy; cbn [sgn]; field; lra.
Qed.

(** ** Two roundings in a row *)

Lemma Rmax_le_plus a b : (0 <= a)%R -> (0 <= b)%R -> (Rmax a b <= a + b)%R.
Proof. intros Ha Hb. apply Rmax_lub; lra. Qed.

(** A rounding, a division by 100 and a second rounding. *)
Lemma real_percentage X P Q u eta :
  (0 <= u <= / 4)%R -> (0 <= eta)%R ->
  (Rabs (P - X) <= Rmax (u * Rabs X) eta)%R ->
  (Rabs (Q - P / 100) <= Rmax (u * Rabs (P / 100)) eta)%R ->
  (Rabs (Q - X / 100) <= 4 * u * Rabs (X / 100) + 2 * eta)%R.
Proof.
  intros Hu He HP HQ.
  assert (H100 : forall t, Rabs (t / 100) = (Rabs t / 100)%R).
  { intros t. unfold Rdiv. rewrite Rabs_mult, (Rabs_pos_eq (/ 100)); lra. }
  rewrite H100 in HQ |- *.
  pose proof (Rabs_pos X) as Px. pose proof (Rabs_pos P) as Pp.
  assert (HuX : (0 <= u * Rabs X)%R) by (apply Rmult_le_pos; lra).
  assert (HuP : (0 <= u * (Rabs P / 100))%R) by (apply Rmult_le_pos; lra).
  pose proof (Rmax_le_plus _ _ HuX He) as M1.
  pose proof (Rmax_le_plus _ _ HuP He) as M2.
  assert (Hp : (Rabs P <= Rabs X + (u * Rabs X + eta))%R).
  { replace P with (X + (P - X))%R at 1 by ring.
    eapply Rle_trans; [apply Rabs_triang | lra]. }
  assert (HuP' : (u * Rabs P <= u * (Rabs X + (u * Rabs X + eta)))%R)
    by (apply Rmult_le_compat_l; lra).
  assert (Huu : (u * (u * Rabs X) <= / 4 * (u * Rabs X))%R)
    by (apply Rmult_le_compat_r; lra).
  assert (Hue : (u * eta <= / 4 * eta)%R)
    by (apply Rmult_le_compat_r; lra).
  replace (Q - X / 100)%R with ((Q - P / 100) + (P - X) / 100)%R by field.
  eapply Rle_trans; [apply Rabs_triang | ].
  rewrite H100. lra.
Qed.

(** ** The remainder of two floats *)

Lemma bounded_digits m e : bounded prec emax m e = true -> Zpos (digits2_pos m) <= 53.
Proof. intros H. apply bounded_inv in H. rewrite fexp_eq in H. lia. Qed.

(** A mantissa of at most 53 bits, aligned to its canonical exponent, is a
    float. *)
Lemma shl_align_bounded p e :
  Zpos (digits2_pos p) <= 53 -> -1074 <= e <= 971 ->
  bounded prec emax
    (fst (shl_align p e (fexp prec emax (Zpos (digits2_pos p) + e))))
    (snd (shl_align p e (fexp prec emax (Zpos (digits2_pos p) + e)))) = true.
Proof.
  intros Hd He.
  set (f := fexp prec emax (Zpos (digits2_pos p) + e)).
  assert (Hf : f <= e) by (unfold f; rewrite fexp_eq; lia).
  assert (Hm : Zpos (fst (shl_align p e f)) = Zpos p * 2 ^ (e - f))
    by now apply shl_align_fst.
  assert (Hs : snd (shl_align p e f) = f) by now rewrite shl_align_le.
  rewrite Hs. unfold bounded, canonical_mantissa. apply andb_true_iff. split.
  - apply Z.eqb_eq. change (Zpos (digits2_pos (fst (shl_align p e f))))
      with (Zdigits2 (Zpos (fst (shl_align p e f)))).
    rewrite Hm, Zdigits2_mul_pow2 by lia. cbn [Zdigits2].
    replace (Zpos (digits2_pos p) + (e - f) + f) with (Zpos (digits2_pos p) + e) by lia.
    reflexivity.
  - apply Z.leb_le. unfold f. rewrite fexp_eq. unfold emax, prec. lia.
Qed.

(** The remainder of two floats is a float. *)
Lemma fmod_valid x y :
  valid x = true -> valid y = true -> is_finite x = true -> is_finite y = true ->
  is_zero y = false ->
  valid (Libm.fmod x y) = true /\ is_finite (Libm.fmod x y) = true.
Proof.
  intros Vx Vy Fx Fy Zy.
  destruct y as [sy | sy | | sy my ey]; try discriminate.
  destruct x as [sx | sx | | sx mx ex]; try discriminate; [split; reflexivity | ].
  cbn [valid valid_binary] in Vx, Vy.
  pose proof (bounded_digits _ _ Vx) as Dx. pose proof (bounded_digits _ _ Vy) as Dy.
  pose proof (bounded_inv _ _ Vx) as [_ Bx]. pose proof (bounded_inv _ _ Vy) as [_ By].
  unfold Libm.fmod.
  set (e := Z.min ex ey).
  assert (He : e <= ex /\ e <= ey) by (unfold e; lia).
  rewrite (shl_align_fst mx ex e), (shl_align_fst my ey e) by lia.
  set (X := Zpos mx * 2 ^ (ex - e)). set (Y := Zpos my * 2 ^ (ey - e)).
  assert (HY : 0 < Y) by (apply Z.mul_pos_pos; [lia | apply Z.pow_pos_nonneg; lia]).
  assert (HX : 0 <= X) by (apply Z.mul_nonneg_nonneg; [lia | apply Z.pow_nonneg; lia]).
  pose proof (Z.rem_bound_pos X Y HX HY) as Hr.
  pose proof (Z.rem_le X Y HX HY) as Hle.
  destruct (Z.rem X Y) as [ | mr | mr] eqn:Er; try lia; [split; reflexivity | ].
  assert (Dr : Zpos (digits2_pos mr) <= 53).
  { change (Zpos (digits2_pos mr)) with (Zdigits2 (Zpos mr)).
    destruct (Z_le_gt_dec ex ey) as [Hxy | Hxy].
    - assert (X = Zpos mx).
      { unfold X. replace (ex - e) with 0 by (unfold e; lia). lia. }
      pose proof (Zdigits2_le (Zpos mr) (Zpos mx) ltac:(lia) ltac:(lia)) as H1.
      cbn [Zdigits2] in *. lia.
    - assert (Y = Zpos my).
      { unfold Y. replace (ey - e) with 0 by (unfold e; lia). lia. }
      pose proof (Zdigits2_le (Zpos mr) (Zpos my) ltac:(lia) ltac:(lia)) as H1.
      cbn [Zdigits2] in *. lia. }
  pose proof (shl_align_bounded mr e Dr ltac:(lia)) as Hb.
  destruct (shl_align mr e (fexp prec emax (Zpos (digits2_pos mr) + e))) as [mz ez].
  split; [exact Hb | reflexivity].
Qed.

(** The three ways [%] ends on a finite dividend and a finite divisor that
    is not a zero. *)
Lemma rem_cases a sy my ey :
  is_finite a = true ->
  let b := S754_finite sy my ey in
  (is_zero (Libm.fmod a b) = true /\ rem a b = Ok (copysign zero b)) \/
  (exists sx mz ez,
     Libm.fmod a b = S754_finite sx mz ez /\
     ((sx = sy /\ rem a b = Ok (Libm.fmod a b)) \/
      (sx <> sy /\ rem a b = Ok (Float64.add (Libm.fmod a b) b)))).
Proof.
  intros Fa b. unfold rem.
  rewrite (eqb_zero_is_zero b). cbn [b is_zero]. cbv iota. fold b.
  assert (Ff : is_zero (Libm.fmod a b) = true \/
               exists sx mz ez, Libm.fmod a b = S754_finite sx mz ez).
  { destruct a as [sx | sx | | sx mx ex]; try discriminate.
    - left. reflexivity.
    - destruct (fmod_finite sx mx ex sy my ey) as [E | (mz & ez & E & _)];
        unfold b; rewrite E; [left; reflexivity | right; eauto]. }
  destruct Ff as [Z | (sx & mz & ez & E)].
  - left. split; [exact Z | ]. now rewrite eqb_zero_is_zero, Z.
  - right. exists sx, mz, ez. split; [exact E | ].
    rewrite E, eqb_zero_is_zero. cbn [is_zero negb].
    unfold b. rewrite !ltb_zero_finite.
    destruct (Bool.eqb sy sx) eqn:Es; cbn [negb].
    + apply Bool.eqb_prop in Es. left. split; [congruence | reflexivity].
    + apply Bool.eqb_false_iff in Es. right. split; [congruence | reflexivity].
Qed.

Lemma modulo_nonzero a b : is_zero b = false -> Calculator.modulo a b = rem a b.
Proof.
  intros Hb. unfold Calculator.modulo. change (of_int 0) with zero.
  now rewrite eqb_zero_is_zero, Hb.
Qed.

(** [fmod] on a finite dividend: the dividend less a whole multiple of the
    divisor, and smaller than the divisor. *)
Lemma fmod_value a sy my ey :
  is_finite a = true ->
  exists q : Z,
    (B2R (Libm.fmod a (S754_finite sy my ey))
       = B2R a - IZR q * B2R (S754_finite sy my ey))%R /\
    (Rabs (B2R (Libm.fmod a (S754_finite sy my ey)))
       < Rabs (B2R (S754_finite sy my ey)))%R.
Proof.
  intros Fa. destruct a as [sx | sx | | sx mx ex]; try discriminate.
  - exists 0. cbn [Libm.fmod B2R]. split; [ring | ].
    rewrite Rabs_R0. fold (B2R (S754_finite sy my ey)).
    rewrite Rabs_B2R_finite. apply finite_mag_pos.
  - destruct (fmod_exact sx mx ex sy my ey) as (q & H1 & H2 & _). eauto.
Qed.

Lemma sgn_pos_IZR s x t : (0 < x)%R -> (sgn s * x)%R = IZR t -> (t <? 0) = s /\ t <> 0.
Proof.
  intros Hx H. destruct s; cbn [sgn] in H.
  - assert (IZR t < 0)%R by lra. apply lt_IZR in H0. split; [apply Z.ltb_lt | ]; lia.
  - assert (0 < IZR t)%R by lra. apply lt_IZR in H0. split; [apply Z.ltb_ge | ]; lia.
Qed.

(** ** Correct rounding *)

(** Among the multiples of a unit, one within half a unit of [v] is
    nearest to [v], and another multiple is as near only on a tie. *)
Lemma nearest_multiple (m k : Z) b v :
  (0 < b)%R -> (Rabs (IZR m * b - v) <= b / 2)%R ->
  (Rabs (IZR m * b - v) <= Rabs (IZR k * b - v))%R /\
  (k <> m -> Rabs (IZR k * b - v) = Rabs (IZR m * b - v) ->
   Rabs (IZR m * b - v) = (b / 2)%R).
Proof.
  intros Hb H.
  destruct (Z.eq_dec k m) as [-> | Hne]; [split; [lra | congruence] | ].
  assert (Hk : (b / 2 <= Rabs (IZR k * b - v))%R).
  { apply Rabs_le_inv in H.
    destruct (Z_lt_le_dec k m) as [Hlt | Hge].
    - assert (IZR k <= IZR m - 1)%R by (rewrite <- minus_IZR; apply IZR_le; lia).
      rewrite Rabs_left; nra.
    - assert (IZR m + 1 <= IZR k)%R by (rewrite <- plus_IZR; apply IZR_le; lia).
      rewrite Rabs_right; nra. }
  split; [lra | intros _ E; lra].
Qed.

(** A float is a multiple of [2^e1], or is below [2^(52 + e1)]. *)
Lemma float_on_grid f e1 :
  valid f = true -> is_finite f = true ->
  (exists k, B2R f = (IZR k * bpow e1)%R) \/
  (-1074 < e1 /\ (Rabs (B2R f) < bpow (52 + e1))%R).
Proof.
  intros Vf Ff. destruct f as [s | s | | s m e]; try discriminate.
  - left. exists 0. cbn [B2R]. ring.
  - cbn [valid valid_binary] in Vf.
    pose proof (bounded_inv m e Vf) as [C B].
    destruct (Z_le_gt_dec e1 e) as [Hle | Hgt].
    + left. exists (cond_Zopp s (Zpos m) * 2 ^ (e - e1)).
      rewrite IZR_mul_pow2 by lia. cbn [B2R]. do 2 f_equal. lia.
    + right. split; [lia | ]. rewrite Rabs_B2R_finite.
      pose proof (bounded_digits m e Vf) as Hd.
      pose proof (digits2_pos_spec m) as Hs.
      assert (Zpos m < 2 ^ 53).
      { eapply Z.lt_le_trans; [apply Hs | ]. apply Z.pow_le_mono_r; lia. }
      assert (IZR (Zpos m) < bpow 53)%R
        by (rewrite <- IZR_pow2 by lia; now apply IZR_lt).
      assert (bpow (53 + e) <= bpow (52 + e1))%R by (apply bpow_le; lia).
      rewrite bpow_plus in H1. pose proof (bpow_gt_0 e). nra.
Qed.

(** What is rounded at the exponent [e1] is at least [2^(52 + e1)], unless
    [e1] is the least exponent. *)
Lemma round_value_ge mx ex lx v :
  0 <= mx -> ex <= fexp prec emax (Zdigits2 mx + ex) -> inbetween mx ex lx v ->
  fexp prec emax (Zdigits2 mx + ex) = -1074 \/
  (bpow (52 + fexp prec emax (Zdigits2 mx + ex)) <= v)%R.
Proof.
  intros Hmx He Hv. rewrite fexp_eq in *.
  destruct (Z.eq_dec (Z.max (Zdigits2 mx + ex - 53) (-1074)) (-1074)) as [E | E];
    [now left | right].
  assert (Hpos : 0 < mx).
  { destruct (Z.eq_dec mx 0) as [-> | ]; [ | lia]. cbn [Zdigits2] in *. lia. }
  apply inbetween_lower in Hv.
  pose proof (bpow_digits_le mx Hpos) as Hd.
  replace (52 + Z.max (Zdigits2 mx + ex - 53) (-1074))
    with (Zdigits2 mx - 1 + ex) by lia.
  rewrite bpow_plus. pose proof (bpow_gt_0 ex). nra.
Qed.

Lemma Rabs_sgn_shift s a v : Rabs (a - sgn s * v) = Rabs (sgn s * a - v).
Proof.
  destruct s; cbn [sgn].
  - replace (-1 * a - v)%R with (- (a - -1 * v))%R by ring. now rewrite Rabs_Ropp.
  - now rewrite !Rmult_1_l.
Qed.

(** The float of the other sign, or the same. *)
Lemma float_with_sign s f :
  valid f = true -> is_finite f = true ->
  exists g, valid g = true /\ is_finite g = true /\ B2R g = (sgn s * B2R f)%R.
Proof.
  intros Vf Ff. destruct s; cbn [sgn].
  - exists (opp f). rewrite valid_opp, is_finite_opp, B2R_opp.
    split; [exact Vf | split; [exact Ff | ring]].
  - exists f. split; [exact Vf | split; [exact Ff | ring]].
Qed.

(** A finite result of [binary_round_aux] is the float nearest to the
    value that was rounded, with an even mantissa on a tie. *)
Theorem binary_round_aux_nearest sx mx ex lx v :
  0 <= mx -> ex <= fexp prec emax (Zdigits2 mx + ex) -> inbetween mx ex lx v ->
  is_finite (binary_round_aux prec emax sx mx ex lx) = true ->
  correctly_rounded (sgn sx * v) (binary_round_aux prec emax sx mx ex lx).
Proof.
  intros Hmx He Hv Hf.
  destruct (binary_round_aux_spec sx mx ex lx v Hmx He Hv)
    as (m2 & Hm2 & E & T & _ & Rd).
  pose proof (round_value_ge mx ex lx v Hmx He Hv) as G.
  set (e1 := fexp prec emax (Zdigits2 mx + ex)) in *.
  set (r := binary_round_aux prec emax sx mx ex lx) in *.
  pose proof (bpow_gt_0 e1) as Hb.
  assert (Er : B2R r = (sgn sx * (IZR m2 * bpow e1))%R).
  { rewrite (B2R_sign r sx (rounded_sign _ _ _ _ Rd)).
    now rewrite (rounded_abs _ _ _ _ Hm2 Rd Hf). }
  assert (D : forall f, valid f = true -> is_finite f = true ->
     (Rabs (IZR m2 * bpow e1 - v) <= Rabs (B2R f - v))%R /\
     (B2R f <> (IZR m2 * bpow e1)%R ->
      Rabs (B2R f - v) = Rabs (IZR m2 * bpow e1 - v) ->
      even_mantissa r = true)).
  { intros f Vf Ff.
    destruct (float_on_grid f e1 Vf Ff) as [[k Ek] | [H1 H2]].
    - rewrite Ek.
      destruct (nearest_multiple m2 k (bpow e1) v Hb E) as [N1 N2].
      split; [exact N1 | intros Hne Heq]. apply T, N2; [ | exact Heq].
      intros ->. now apply Hne.
    - destruct G as [G | G]; [lia | ].
      destruct (nearest_multiple m2 (2 ^ 52) (bpow e1) v Hb E) as [N1 _].
      rewrite IZR_pow2, <- bpow_plus in N1 by lia.
      rewrite (Rabs_left1 (bpow (52 + e1) - v)) in N1 by lra.
      assert (B2R f < bpow (52 + e1))%R
        by (eapply Rle_lt_trans; [apply RRle_abs | exact H2]).
      assert (Rabs (IZR m2 * bpow e1 - v) < Rabs (B2R f - v))%R
        by (rewrite (Rabs_left (B2R f - v)); lra).
      split; [lra | intros _ Heq; lra]. }
  split; [exact (rounded_valid _ _ _ _ Rd) | split; [exact Hf | split]].
  - intros f Vf Ff. rewrite Er.
    destruct (float_with_sign sx f Vf Ff) as (g & Vg & Fg & Eg).
    rewrite (Rabs_sgn_shift sx (B2R f)), (Rabs_sgn_shift sx (sgn sx * _)).
    rewrite <- Rmult_assoc.
    replace (sgn sx * sgn sx)%R with 1%R by (destruct sx; cbn [sgn]; ring).
    rewrite Rmult_1_l, <- Eg. now apply D.
  - intros f Vf Ff Hne Heq. rewrite Er in Hne, Heq.
    destruct (float_with_sign sx f Vf Ff) as (g & Vg & Fg & Eg).
    rewrite (Rabs_sgn_shift sx (B2R f)), (Rabs_sgn_shift sx (sgn sx * _)) in Heq.
    rewrite <- Rmult_assoc in Heq.
    replace (sgn sx * sgn sx)%R with 1%R in Heq by (destruct sx; cbn [sgn]; ring).
    rewrite Rmult_1_l, <- Eg in Heq.
    apply (D g Vg Fg); [ | exact Heq].
    intros Hg. apply Hne. rewrite <- Hg, Eg, <- Rmult_assoc.
    replace (sgn sx * sgn sx)%R with 1%R by (destruct sx; cbn [sgn]; ring).
    ring.
Qed.

(** The overflow threshold in units of [2^970]. *)
Lemma bpow_1024 : bpow 1024 = (IZR (2 ^ 54) * bpow 970)%R.
Proof. rewrite IZR_pow2 by lia. rewrite <- bpow_plus. reflexivity. Qed.

Lemma bpow_971 : bpow 971 = (2 * bpow 970)%R.
Proof. exact (bpow_succ 970). Qed.

(** The result of [binary_round_aux] is finite exactly when the value is
    less than half a unit in the last place above the largest float. *)
Theorem binary_round_aux_finite sx mx ex lx v :
  0 <= mx -> ex <= fexp prec emax (Zdigits2 mx + ex) -> inbetween mx ex lx v ->
  is_finite (binary_round_aux prec emax sx mx ex lx) = true <->
  (v < bpow 1024 - bpow 970)%R.
Proof.
  intros Hmx He Hv.
  destruct (binary_round_aux_spec sx mx ex lx v Hmx He Hv)
    as (m2 & Hm2 & E & T & _ & Rd).
  pose proof (round_value_ge mx ex lx v Hmx He Hv) as G.
  pose proof (inbetween_lower _ _ _ _ Hv) as Hlo.
  set (e1 := fexp prec emax (Zdigits2 mx + ex)) in *.
  set (r := binary_round_aux prec emax sx mx ex lx) in *.
  pose proof (bpow_gt_0 e1) as Hb. pose proof (bpow_gt_0 970) as H970.
  pose proof bpow_1024 as E1024. pose proof bpow_971 as E971.
  change (2 ^ 54) with 18014398509481984 in E1024.
  apply Rabs_le_inv in E.
  split.
  - intros Hf.
    destruct (Rlt_le_dec v (bpow 1024 - bpow 970)) as [ | Hbig]; [assumption | exfalso].
    destruct Rd as [Hz | m e Hle Hval Hbd | Hi]; try discriminate.
    + subst m2. rewrite Rmult_0_l in E.
      destruct G as [G | G].
      * assert (bpow e1 <= bpow 970)%R by (apply bpow_le; lia). lra.
      * rewrite bpow_plus in G.
        assert (1 <= bpow 52)%R by (rewrite <- bpow_0; apply bpow_le; lia).
        nra.
    + pose proof (bounded_inv m e Hbd) as [_ Be].
      pose proof (float_below_pow m e 1024 Hbd ltac:(lia) (bounded_lt_max m e Hbd)) as Hmax.
      change (1024 - 53) with 971 in Hmax.
      assert (Ev : (IZR m2 * bpow e1 = IZR (Zpos m) * bpow e)%R).
      { rewrite <- Hval, IZR_mul_pow2 by lia. do 2 f_equal. lia. }
      rewrite Ev in E.
      destruct (Z_lt_le_dec e1 971) as [Hlt | Hge1].
      * assert (bpow e1 <= bpow 970)%R by (apply bpow_le; lia). lra.
      * assert (e1 = 971) by lia. assert (e = 971) by lia. subst e.
        assert (Tie : Rabs (IZR m2 * bpow e1 - v) = (bpow e1 / 2)%R).
        { rewrite Ev, Rabs_left1 by lra. rewrite H in *. lra. }
        specialize (T Tie). cbn [even_mantissa] in T.
        assert (Em : IZR (Zpos m) = IZR (2 ^ 53 - 1)).
        { change (2 ^ 53 - 1) with 9007199254740991.
          rewrite H in *. nra. }
        apply eq_IZR in Em. rewrite Em in T. discriminate.
  - intros Hlt.
    destruct Rd as [Hz | m e Hle Hval Hbd | Hi]; try reflexivity.
    exfalso. change emax with 1024 in Hi.
    assert (e1 <= 971).
    { destruct G as [G | G]; [lia | ].
      assert (bpow (52 + e1) < bpow 1024)%R by lra.
      apply bpow_lt_inv in H. lia. }
    assert (bpow e1 <= bpow 971)%R by (apply bpow_le; lia). lra.
Qed.

(** A float is its own rounding. *)
Lemma correctly_rounded_exact r :
  valid r = true -> is_finite r = true -> correctly_rounded (B2R r) r.
Proof.
  intros Vr Fr. split; [exact Vr | split; [exact Fr | split]].
  - intros f _ _. unfold Rminus at 1. rewrite Rplus_opp_r, Rabs_R0.
    apply Rabs_pos.
  - intros f _ _ Hne Heq. exfalso. apply Hne.
    unfold Rminus at 2 in Heq. rewrite Rplus_opp_r, Rabs_R0 in Heq.
    destruct (Req_dec (B2R f - B2R r) 0) as [H | H]; [lra | ].
    apply Rabs_no_R0 in H. contradiction.
Qed.

(** Every float is below the overflow threshold. *)
Lemma float_lt_threshold r :
  valid r = true -> is_finite r = true ->
  (Rabs (B2R r) < bpow 1024 - bpow 970)%R.
Proof.
  intros Vr Fr. pose proof (bpow_gt_0 970) as H970.
  pose proof bpow_1024 as E1024. pose proof bpow_971 as E971.
  change (2 ^ 54) with 18014398509481984 in E1024.
  destruct r as [s | s | | s m e]; try discriminate.
  - cbn [B2R]. rewrite Rabs_R0. lra.
  - rewrite Rabs_B2R_finite.
    pose proof (float_below_pow m e 1024 Vr ltac:(lia) (bounded_lt_max m e Vr)) as Hmax.
    change (1024 - 53) with 971 in Hmax. lra.
Qed.

(** A result that is not finite is the infinity of the sign it was given. *)
Lemma not_finite_sign r s :
  sign r = Some s -> is_finite r = false -> r = S754_infinity s.
Proof. destruct r; cbn; congruence. Qed.

(** A float is what rounding returns for its own value. *)
Lemma rounds_to_exact r :
  valid r = true -> is_finite r = true -> rounds_to (B2R r) r.
Proof.
  intros Vr Fr. split; [ | split].
  - split; [intros _ | intros _; exact Fr]. now apply float_lt_threshold.
  - intros _. now apply correctly_rounded_exact.
  - congruence.
Qed.

(** [binary_round_aux] rounds the value it is given, with the sign it is
    given. *)
Lemma binary_round_aux_rounds_to sx mx ex lx v :
  0 <= mx -> ex <= fexp prec emax (Zdigits2 mx + ex) -> inbetween mx ex lx v ->
  (0 < v)%R ->
  rounds_to (sgn sx * v) (binary_round_aux prec emax sx mx ex lx).
Proof.
  intros Hmx He Hv Hpos. unfold rounds_to.
  rewrite Rabs_sgn_mult, Rabs_pos_eq by lra.
  split; [now apply binary_round_aux_finite | split].
  - now apply binary_round_aux_nearest.
  - intros Hf. exists sx. split.
    + apply not_finite_sign; [now apply binary_round_aux_sign | exact Hf].
    + destruct sx; cbn [sgn]; ring.
Qed.

(** So does [binary_round], on a mantissa and an exponent. *)
Lemma binary_round_rounds_to sx mx ex :
  rounds_to (sgn sx * (IZR (Zpos mx) * bpow ex)) (binary_round prec emax sx mx ex).
Proof.
  unfold binary_round.
  set (f := fexp prec emax (Zpos (digits2_pos mx) + ex)) in *.
  set (v := (IZR (Zpos mx) * bpow ex)%R).
  assert (Hv0 : (0 < v)%R) by apply finite_mag_pos.
  destruct (Z_le_gt_dec f ex) as [Hf | Hf].
  - assert (Hm : Zpos (fst (shl_align mx ex f)) = Zpos mx * 2 ^ (ex - f))
      by now apply shl_align_fst.
    assert (Hs : snd (shl_align mx ex f) = f) by now rewrite shl_align_le.
    destruct (shl_align mx ex f) as [mz ez]. cbn [fst snd] in *. subst ez.
    assert (Hd : fexp prec emax (Zdigits2 (Zpos mz) + f) = f).
    { rewrite Hm, Zdigits2_mul_pow2 by lia.
      replace (Zdigits2 (Zpos mx) + (ex - f) + f) with (Zpos (digits2_pos mx) + ex)
        by (cbn [Zdigits2]; lia).
      reflexivity. }
    assert (Hin : inbetween (Zpos mz) f loc_Exact v).
    { cbn [inbetween]. unfold v. rewrite Hm, IZR_mul_pow2 by lia.
      f_equal. f_equal. lia. }
    apply binary_round_aux_rounds_to; [lia | lia | exact Hin | exact Hv0].
  - rewrite shl_align_gt by lia.
    assert (Hin : inbetween (Zpos mx) ex loc_Exact v) by reflexivity.
    assert (He : ex <= fexp prec emax (Zdigits2 (Zpos mx) + ex))
      by (cbn [Zdigits2]; fold f; lia).
    apply binary_round_aux_rounds_to; [lia | exact He | exact Hin | exact Hv0].
Qed.

(** And [binary_normalize], on a signed mantissa. *)
Lemma binary_normalize_rounds_to m e sz :
  rounds_to (IZR m * bpow e) (binary_normalize prec emax m e sz).
Proof.
  destruct m as [ | p | p]; cbn [binary_normalize].
  - rewrite Rmult_0_l. apply (rounds_to_exact (S754_zero sz)); reflexivity.
  - pose proof (binary_round_rounds_to false p e) as H.
    cbn [sgn] in H. now rewrite Rmult_1_l in H.
  - pose proof (binary_round_rounds_to true p e) as H.
    cbn [sgn] in H. change (Zneg p) with (- Zpos p). rewrite opp_IZR.
    now replace (- IZR (Zpos p) * bpow e)%R
      with (-1 * (IZR (Zpos p) * bpow e))%R by ring.
Qed.

(** *** The four operations *)

(** On finite floats each operation returns its exact result, rounded. *)
Theorem add_rounds_to x y :
  valid x = true -> valid y = true -> is_finite x = true -> is_finite y = true ->
  rounds_to (B2R x + B2R y) (Float64.add x y).
Proof.
  intros Vx Vy Fx Fy.
  destruct x as [sx | sx | | sx mx ex]; try discriminate;
    destruct y as [sy | sy | | sy my ey]; try discriminate.
  - replace (B2R (S754_zero sx) + B2R (S754_zero sy))%R
      with (B2R (Float64.add (S754_zero sx) (S754_zero sy)))
      by (destruct sx, sy; cbn; ring).
    apply rounds_to_exact; destruct sx, sy; reflexivity.
  - change (Float64.add (S754_zero sx) (S754_finite sy my ey))
      with (S754_finite sy my ey).
    replace (B2R (S754_zero sx) + B2R (S754_finite sy my ey))%R
      with (B2R (S754_finite sy my ey)) by (cbn [B2R]; ring).
    now apply rounds_to_exact.
  - change (Float64.add (S754_finite sx mx ex) (S754_zero sy))
      with (S754_finite sx mx ex).
    replace (B2R (S754_finite sx mx ex) + B2R (S754_zero sy))%R
      with (B2R (S754_finite sx mx ex)) by (cbn [B2R]; ring).
    now apply rounds_to_exact.
  - destruct (add_finite_sum sx mx ex sy my ey) as (S & -> & <-).
    apply binary_normalize_rounds_to.
Qed.

Theorem sub_rounds_to x y :
  valid x = true -> valid y = true -> is_finite x = true -> is_finite y = true ->
  rounds_to (B2R x - B2R y) (Float64.sub x y).
Proof.
  intros Vx Vy Fx Fy. rewrite sub_add_opp.
  replace (B2R x - B2R y)%R with (B2R x + B2R (opp y))%R
    by (rewrite B2R_opp; ring).
  apply add_rounds_to; trivial; [now rewrite valid_opp | now rewrite is_finite_opp].
Qed.

Theorem mul_rounds_to x y :
  valid x = true -> valid y = true -> is_finite x = true -> is_finite y = true ->
  rounds_to (B2R x * B2R y) (Float64.mul x y).
Proof.
  intros Vx Vy Fx Fy.
  destruct x as [sx | sx | | sx mx ex]; try discriminate;
    destruct y as [sy | sy | | sy my ey]; try discriminate.
  - replace (B2R (S754_zero sx) * B2R (S754_zero sy))%R
      with (B2R (Float64.mul (S754_zero sx) (S754_zero sy))) by (cbn; ring).
    now apply rounds_to_exact.
  - replace (B2R (S754_zero sx) * B2R (S754_finite sy my ey))%R
      with (B2R (Float64.mul (S754_zero sx) (S754_finite sy my ey)))
      by (cbn [Float64.mul SFmul B2R]; ring).
    now apply rounds_to_exact.
  - replace (B2R (S754_finite sx mx ex) * B2R (S754_zero sy))%R
      with (B2R (Float64.mul (S754_finite sx mx ex) (S754_zero sy)))
      by (cbn [Float64.mul SFmul B2R]; ring).
    now apply rounds_to_exact.
  - cbn [valid valid_binary] in Vx, Vy.
    pose proof (bounded_inv _ _ Vx) as [Cx Bx].
    pose proof (bounded_inv _ _ Vy) as [Cy By].
    rewrite !B2R_finite.
    replace (sgn sx * (IZR (Zpos mx) * bpow ex) * (sgn sy * (IZR (Zpos my) * bpow ey)))%R
      with (sgn (xorb sx sy) * (IZR (Zpos (mx * my)) * bpow (ex + ey)))%R
      by (rewrite sgn_xorb, Pos2Z.inj_mul, mult_IZR, bpow_plus; ring).
    cbn [Float64.mul SFmul].
    apply binary_round_aux_rounds_to;
      [lia | | reflexivity | apply finite_mag_pos].
    pose proof (Zdigits2_mul_ge (Zpos mx) (Zpos my) ltac:(lia) ltac:(lia)) as Hd.
    change (Zpos mx * Zpos my) with (Zpos (mx * my)) in Hd.
    cbn [Zdigits2] in *. rewrite fexp_eq in *. lia.
Qed.

Theorem div_rounds_to x y :
  valid x = true -> valid y = true -> is_finite x = true -> is_finite y = true ->
  is_zero y = false ->
  rounds_to (B2R x / B2R y) (Float64.div x y).
Proof.
  intros Vx Vy Fx Fy Zy.
  destruct y as [sy | sy | | sy my ey]; try discriminate.
  destruct x as [sx | sx | | sx mx ex]; try discriminate.
  - replace (B2R (S754_zero sx) / B2R (S754_finite sy my ey))%R
      with (B2R (Float64.div (S754_zero sx) (S754_finite sy my ey)))
      by (cbn [Float64.div SFdiv B2R]; unfold Rdiv; ring).
    now apply rounds_to_exact.
  - unfold Float64.div, SFdiv.
    pose proof (div_core_correct mx ex my ey) as Hc.
    destruct (SFdiv_core_binary prec emax (Zpos mx) ex (Zpos my) ey) as [[q e'] l].
    destruct Hc as (Hq & HA & Hin).
    pose proof (finite_mag_pos mx ex) as Px.
    pose proof (finite_mag_pos my ey) as Py.
    rewrite !B2R_finite.
    replace (sgn sx * (IZR (Zpos mx) * bpow ex) / (sgn sy * (IZR (Zpos my) * bpow ey)))%R
      with (sgn (xorb sx sy) * (IZR (Zpos mx) * bpow ex / (IZR (Zpos my) * bpow ey)))%R.
    + apply binary_round_aux_rounds_to; trivial.
      now apply Rdiv_lt_0_compat.
    + rewrite sgn_xorb. revert Px Py.
      generalize (IZR (Zpos mx) * bpow ex)%R (IZR (Zpos my) * bpow ey)%R.
      intros X Y Px Py. destruct sx, sy; cbn [sgn]; field; lra.
Qed.

(** *** Uniqueness *)

(** Just below a positive float of even mantissa lies a float of odd
    mantissa, with no float in between. *)
Lemma pred_even m2 e2 :
  bounded prec emax m2 e2 = true -> Z.even (Zpos m2) = true ->
  exists mg eg,
    bounded prec emax mg eg = true /\ Z.even (Zpos mg) = false /\
    (IZR (Zpos mg) * bpow eg < IZR (Zpos m2) * bpow e2)%R /\
    (forall f, valid f = true -> is_finite f = true ->
       (B2R f < IZR (Zpos m2) * bpow e2)%R ->
       (B2R f <= IZR (Zpos mg) * bpow eg)%R).
Proof.
  intros Hb Hev. pose proof (bounded_inv m2 e2 Hb) as [C Be].
  rewrite fexp_eq in C.
  pose proof (digits2_pos_spec m2) as Hd.
  assert (H2 : 2 <= Zpos m2) by (destruct m2; try lia; discriminate).
  destruct (Z.eq_dec e2 (-1074)) as [He | He];
    [ | destruct (Z.eq_dec (Zpos m2) (2 ^ 52)) as [Hm | Hm]].
  - (* a subnormal, or the least normal number *)
    exists (Pos.pred m2), e2.
    assert (Ep : Zpos (Pos.pred m2) = Zpos m2 - 1) by (rewrite Pos2Z.inj_pred; lia).
    assert (Dp : Zdigits2 (Zpos (Pos.pred m2)) <= Zdigits2 (Zpos m2))
      by (apply Zdigits2_le; lia).
    cbn [Zdigits2] in Dp.
    split; [ | split; [ | split]].
    + unfold bounded, canonical_mantissa. apply andb_true_iff. split.
      * apply Z.eqb_eq. rewrite fexp_eq. lia.
      * apply Z.leb_le. unfold emax, prec. lia.
    + rewrite Ep, Z.even_sub, Hev. reflexivity.
    + rewrite Ep, minus_IZR. pose proof (bpow_gt_0 e2). lra.
    + intros f Vf Ff Hlt.
      destruct (float_on_grid f e2 Vf Ff) as [[k Ek] | [H1 _]]; [ | lia].
      rewrite Ek in *. pose proof (bpow_gt_0 e2) as Pb.
      assert (IZR k < IZR (Zpos m2))%R by nra.
      apply lt_IZR in H.
      apply Rmult_le_compat_r; [lra | ]. apply IZR_le. lia.
  - (* a power of two: the float below is at the next exponent down *)
    exists 9007199254740991%positive, (e2 - 1).
    assert (Eb : bpow e2 = (2 * bpow (e2 - 1))%R).
    { replace e2 with (e2 - 1 + 1) at 1 by lia. apply bpow_succ. }
    pose proof (bpow_gt_0 (e2 - 1)) as Pb.
    split; [ | split; [reflexivity | split]].
    + unfold bounded, canonical_mantissa. apply andb_true_iff. split.
      * apply Z.eqb_eq. rewrite fexp_eq.
        change (Zpos (digits2_pos 9007199254740991)) with 53. lia.
      * apply Z.leb_le. unfold emax, prec. lia.
    + rewrite Hm, Eb. change (2 ^ 52) with 4503599627370496. lra.
    + intros f Vf Ff Hlt. rewrite Hm, Eb in Hlt.
      change (2 ^ 52) with 4503599627370496 in Hlt.
      destruct (float_on_grid f (e2 - 1) Vf Ff) as [[k Ek] | [_ H1]].
      * rewrite Ek in *.
        assert (IZR k < IZR 9007199254740992)%R by nra.
        apply lt_IZR in H.
        apply Rmult_le_compat_r; [lra | ]. apply IZR_le. lia.
      * rewrite bpow_plus, <- (IZR_pow2 52) in H1 by lia.
        change (2 ^ 52) with 4503599627370496 in H1.
        pose proof (RRle_abs (B2R f)). lra.
  - (* the mantissa less one has as many digits *)
    exists (Pos.pred m2), e2.
    assert (Ep : Zpos (Pos.pred m2) = Zpos m2 - 1) by (rewrite Pos2Z.inj_pred; lia).
    assert (D53 : Zpos (digits2_pos m2) = 53) by lia.
    rewrite D53 in Hd. change (53 - 1) with 52 in Hd.
    assert (Dp : Zdigits2 (Zpos (Pos.pred m2)) = 53).
    { apply Zdigits2_unique; [lia | ]. change (53 - 1) with 52. lia. }
    cbn [Zdigits2] in Dp.
    pose proof (bpow_gt_0 e2) as Pb.
    split; [ | split; [ | split]].
    + unfold bounded, canonical_mantissa. apply andb_true_iff. split.
      * apply Z.eqb_eq. rewrite fexp_eq. lia.
      * apply Z.leb_le. unfold emax, prec. lia.
    + rewrite Ep, Z.even_sub, Hev. reflexivity.
    + rewrite Ep, minus_IZR. lra.
    + intros f Vf Ff Hlt.
      destruct (float_on_grid f e2 Vf Ff) as [[k Ek] | [_ H1]].
      * rewrite Ek in *.
        assert (IZR k < IZR (Zpos m2))%R by nra.
        apply lt_IZR in H.
        apply Rmult_le_compat_r; [lra | ]. apply IZR_le. lia.
      * rewrite bpow_plus, <- (IZR_pow2 52) in H1 by lia.
        assert (IZR (2 ^ 52) <= IZR (Zpos (Pos.pred m2)))%R by (apply IZR_le; lia).
        pose proof (RRle_abs (B2R f)).
        assert (IZR (2 ^ 52) * bpow e2 <= IZR (Zpos (Pos.pred m2)) * bpow e2)%R
          by (apply Rmult_le_compat_r; lra).
        lra.
Qed.

Lemma even_mantissa_opp r : even_mantissa (opp r) = even_mantissa r.
Proof. destruct r; reflexivity. Qed.

(** Between a float that is not negative and a larger float, both of even
    mantissa, lies a third float. *)
Lemma between_even_pos r1 m2 e2 :
  valid r1 = true -> is_finite r1 = true -> even_mantissa r1 = true ->
  (0 <= B2R r1)%R ->
  bounded prec emax m2 e2 = true -> Z.even (Zpos m2) = true ->
  (B2R r1 < IZR (Zpos m2) * bpow e2)%R ->
  exists g, valid g = true /\ is_finite g = true /\
            (B2R r1 < B2R g < IZR (Zpos m2) * bpow e2)%R.
Proof.
  intros V1 F1 E1 P1 Hb Hev Hlt.
  destruct (pred_even m2 e2 Hb Hev) as (mg & eg & Bg & Og & Lg & Mg).
  exists (S754_finite false mg eg).
  split; [exact Bg | split; [reflexivity | ]].
  rewrite B2R_finite. cbn [sgn]. rewrite Rmult_1_l.
  split; [ | exact Lg].
  specialize (Mg r1 V1 F1 Hlt).
  destruct (Req_dec (B2R r1) (IZR (Zpos mg) * bpow eg)) as [Heq | Hne]; [exfalso | lra].
  destruct r1 as [s | s | | s m e]; try discriminate.
  - cbn [B2R] in Heq. pose proof (finite_mag_pos mg eg). lra.
  - assert (E : B2R (S754_finite s m e) = B2R (S754_finite false mg eg)).
    { rewrite Heq, B2R_finite. cbn [sgn]. ring. }
    apply (B2R_inj _ _ _ _ _ _ V1 Bg) in E. injection E as _ -> _.
    cbn [even_mantissa] in E1. congruence.
Qed.

Lemma between_even r1 r2 :
  valid r1 = true -> valid r2 = true ->
  is_finite r1 = true -> is_finite r2 = true ->
  even_mantissa r1 = true -> even_mantissa r2 = true ->
  (B2R r1 < B2R r2)%R ->
  exists g, valid g = true /\ is_finite g = true /\ (B2R r1 < B2R g < B2R r2)%R.
Proof.
  intros V1 V2 F1 F2 E1 E2 Hlt.
  destruct (Rle_dec 0 (B2R r1)) as [P1 | N1].
  - (* both at least zero *)
    destruct r2 as [s | s | | s m e]; try discriminate.
    + exfalso. cbn [B2R] in Hlt. lra.
    + pose proof (finite_mag_pos m e) as Pm.
      rewrite B2R_finite in *.
      destruct s; cbn [sgn] in *; [exfalso; lra | ].
      rewrite Rmult_1_l in *. now apply between_even_pos.
  - destruct (Rlt_dec 0 (B2R r2)) as [P2 | N2].
    + exists zero. split; [reflexivity | split; [reflexivity | ]].
      cbn [B2R zero]. lra.
    + (* both at most zero: the mirror image *)
      destruct r1 as [s | s | | s m e]; try discriminate.
      { exfalso. cbn [B2R] in N1. lra. }
      pose proof (finite_mag_pos m e) as Pm.
      rewrite B2R_finite in *.
      destruct s; cbn [sgn] in *; [ | exfalso; lra].
      destruct (between_even_pos (opp r2) m e) as (g & Vg & Fg & Hg); trivial.
      * now rewrite valid_opp.
      * now rewrite is_finite_opp.
      * now rewrite even_mantissa_opp.
      * rewrite B2R_opp. lra.
      * rewrite B2R_opp. lra.
      * exists (opp g). rewrite valid_opp, is_finite_opp, B2R_opp.
        rewrite B2R_opp in Hg. split; [exact Vg | split; [exact Fg | lra]].
Qed.

(** Correct rounding determines the value of the result. *)
Theorem correctly_rounded_unique x r1 r2 :
  correctly_rounded x r1 -> correctly_rounded x r2 -> B2R r1 = B2R r2.
Proof.
  intros (V1 & F1 & N1 & T1) (V2 & F2 & N2 & T2).
  destruct (Req_dec (B2R r1) (B2R r2)) as [ | Hne]; [assumption | exfalso].
  assert (Heq : Rabs (B2R r1 - x) = Rabs (B2R r2 - x)).
  { apply Rle_antisym; [now apply N1 | now apply N2]. }
  assert (E1 : even_mantissa r1 = true).
  { apply (T1 r2 V2 F2); [congruence | now symmetry]. }
  assert (E2 : even_mantissa r2 = true) by now apply (T2 r1 V1 F1).
  assert (W : forall a b, valid a = true -> valid b = true ->
     is_finite a = true -> is_finite b = true ->
     even_mantissa a = true -> even_mantissa b = true ->
     (forall f, valid f = true -> is_finite f = true ->
        (Rabs (B2R a - x) <= Rabs (B2R f - x))%R) ->
     Rabs (B2R a - x) = Rabs (B2R b - x) -> (B2R a < B2R b)%R -> False).
  { intros a b Va Vb Fa Fb Ea Eb Na Hab Hlt.
    destruct (between_even a b Va Vb Fa Fb Ea Eb Hlt) as (g & Vg & Fg & Hg).
    specialize (Na g Vg Fg). revert Na Hab. unfold Rabs.
    destruct (Rcase_abs (B2R a - x)), (Rcase_abs (B2R b - x)),
      (Rcase_abs (B2R g - x)); lra. }
  destruct (Rtotal_order (B2R r1) (B2R r2)) as [Hlt | [Heq' | Hgt]].
  - exact (W r1 r2 V1 V2 F1 F2 E1 E2 N1 Heq Hlt).
  - contradiction.
  - exact (W r2 r1 V2 V1 F2 F1 E2 E1 N2 (eq_sym Heq) Hgt).
Qed.

(** So an operation that rounds correctly has one result, up to the sign
    of a zero. *)
Corollary rounds_to_unique x r1 r2 :
  rounds_to x r1 -> rounds_to x r2 ->
  (is_finite r1 = true /\ is_finite r2 = true /\ B2R r1 = B2R r2) \/
  (is_finite r1 = false /\ r1 = r2).
Proof.
  intros (I1 & C1 & O1) (I2 & C2 & O2).
  destruct (is_finite r1) eqn:F1.
  - left. assert (F2 : is_finite r2 = true) by (apply I2, I1; reflexivity).
    split; [reflexivity | split; [exact F2 | ]].
    now apply (correctly_rounded_unique x); [apply C1 | apply C2].
  - right. split; [reflexivity | ].
    assert (F2 : is_finite r2 = false).
    { destruct (is_finite r2) eqn:F2; [exfalso | reflexivity].
      assert (false = true) by (apply I1, I2; reflexivity). discriminate. }
    destruct (O1 eq_refl) as (s1 & -> & H1).
    destruct (O2 F2) as (s2 & -> & H2).
    assert (Hx : (bpow 1024 - bpow 970 <= Rabs x)%R).
    { destruct (Rlt_le_dec (Rabs x) (bpow 1024 - bpow 970)) as [H | H]; [ | exact H].
      apply I1 in H. discriminate. }
    assert (0 < Rabs x)%R.
    { pose proof (bpow_gt_0 970). pose proof bpow_1024 as E.
      change (2 ^ 54) with 18014398509481984 in E. lra. }
    destruct s1, s2; cbn [sgn] in H1, H2; try reflexivity; exfalso; lra.
Qed.

(** Two examples.  The float next to the nearest one is not a correct
    rounding: [2^53] is not one of [2^53 - 1 + 1/4], whose nearest float is
    [2^53 - 1].  And of two floats as near, the one of odd mantissa is not
    one: [2^53 + 2] is not a correct rounding of [2^53 + 1], which lies
    midway between it and [2^53]. *)
Lemma correctly_rounded_examples :
  ~ correctly_rounded (IZR (2 ^ 53 - 1) + / 4) (of_int (2 ^ 53)) /\
  ~ correctly_rounded (IZR (2 ^ 53 + 1)) (of_int (2 ^ 53 + 2)).
Proof.
  split.
  - intros (_ & _ & N & _).
    specialize (N (of_int (2 ^ 53 - 1)) eq_refl eq_refl). revert N.
    destruct (of_int_exact (2 ^ 53 - 1)) as (_ & _ & ->); [reflexivity | ].
    change (of_int (2 ^ 53)) with (S754_finite false 4503599627370496 1).
    rewrite B2R_finite. cbn [sgn]. rewrite bpow_1.
    change (2 ^ 53 - 1) with 9007199254740991.
    unfold Rabs.
    destruct (Rcase_abs _), (Rcase_abs _); lra.
  - intros (_ & _ & _ & T).
    specialize (T (of_int (2 ^ 53)) eq_refl eq_refl).
    assert (E1 : B2R (of_int (2 ^ 53)) = IZR (2 ^ 53)).
    { change (of_int (2 ^ 53)) with (S754_finite false 4503599627370496 1).
      rewrite B2R_finite. cbn [sgn]. rewrite bpow_1.
      change (2 ^ 53) with 9007199254740992. lra. }
    assert (E2 : B2R (of_int (2 ^ 53 + 2)) = IZR (2 ^ 53 + 2)).
    { change (of_int (2 ^ 53 + 2)) with (S754_finite false 4503599627370497 1).
      rewrite B2R_finite. cbn [sgn]. rewrite bpow_1.
      change (2 ^ 53 + 2) with 9007199254740994. lra. }
    rewrite E1, E2 in T.
    change (2 ^ 53 + 2) with 9007199254740994 in T.
    change (2 ^ 53 + 1) with 9007199254740993 in T.
    change (2 ^ 53) with 9007199254740992 in T.
    assert (H : even_mantissa (of_int 9007199254740994) = true).
    { apply T; [lra | ]. unfold Rabs.
      destruct (Rcase_abs _), (Rcase_abs _); lra. }
    discriminate H.
Qed.

(** ** The floored remainder *)

(** The result of [%] on a finite dividend is a zero or has the sign of the
    divisor, and is no larger than a finite divisor. *)
Lemma rem_sign_of_divisor (a b : float) :
  valid b = true ->
  is_finite a = true -> is_nan b = false -> is_zero b = false ->
  exists r,
    rem a b = Ok r /\
    (is_zero r = true \/ sign r = sign b) /\
    (is_finite b = true ->
     is_finite r = true /\ (Rabs (B2R r) <= Rabs (B2R b))%R).
Proof.
  intros Vb Ha Hb Hz. unfold rem.
  rewrite eqb_zero_is_zero, Hz.
  assert (Z0 : forall s x, is_finite (S754_zero s) = true /\
                           (Rabs (B2R (S754_zero s)) <= Rabs x)%R).
  { intros s x. split; [reflexivity | ]. cbn [B2R]. rewrite Rabs_R0. apply Rabs_pos. }
  destruct b as [sy | sy | | sy my ey]; try discriminate;
    destruct a as [sx | sx | | sx mx ex]; try discriminate.
  - (* zero % infinity *)
    eexists; split; [reflexivity | split; [left; destruct sy; reflexivity | discriminate]].
  - (* finite % infinity *)
    cbn [Libm.fmod]. rewrite eqb_zero_is_zero. cbn [is_zero negb].
    rewrite ltb_zero_infinity, ltb_zero_finite.
    destruct sx, sy; eexists;
      (split; [reflexivity | split; [right; reflexivity | discriminate]]).
  - (* zero % finite *)
    eexists; split; [reflexivity | split; [left; destruct sy; reflexivity | intros _]].
    destruct sy; apply Z0.
  - (* finite % finite *)
    destruct (fmod_finite sx mx ex sy my ey) as [E | (mz & ez & E & He & Hlt)];
      rewrite E; rewrite eqb_zero_is_zero; cbn [is_zero negb].
    + eexists; split; [reflexivity | split; [left; destruct sy; reflexivity | intros _]].
      destruct sy; apply Z0.
    + rewrite !ltb_zero_finite.
      destruct (Bool.eqb sy sx) eqn:Es; cbn [negb].
      * apply Bool.eqb_prop in Es. subst sx.
        eexists; split; [reflexivity | split; [right; reflexivity | intros _]].
        split; [reflexivity | ]. rewrite !Rabs_B2R_finite.
        apply IZR_lt in Hlt. rewrite mult_IZR, IZR_pow2 in Hlt by lia.
        replace ey with (ez + (ey - ez)) by lia. rewrite bpow_plus.
        pose proof (bpow_gt_0 ez). pose proof (bpow_gt_0 (ey - ez)). nra.
      * apply Bool.eqb_false_iff in Es.
        eexists; split; [reflexivity | split; [right | intros _]].
        -- apply add_smaller_opposite; auto.
        -- rewrite Rabs_B2R_finite. apply add_smaller_opposite_le; auto.
Qed.

(** [%] on finite operands is the floored remainder, rounded once: for an
    integer [q], the exact [a - q * b] has the sign of [b] (or is zero) and
    is smaller than [b] in magnitude, and the result is the float nearest
    to it. *)
Lemma rem_floored (a b : float) :
  valid a = true -> valid b = true -> is_finite a = true -> is_finite b = true ->
  is_zero b = false ->
  exists r q,
    rem a b = Ok r /\ valid r = true /\ is_finite r = true /\
    (0 <= (B2R a - IZR q * B2R b) * B2R b)%R /\
    (Rabs (B2R a - IZR q * B2R b) < Rabs (B2R b))%R /\
    correctly_rounded (B2R a - IZR q * B2R b) r /\
    (Rabs (B2R r - (B2R a - IZR q * B2R b))
       <= bpow (-53) * Rabs (B2R a - IZR q * B2R b))%R.
Proof.
  intros Va Vb Fa Fb Zb.
  destruct (fmod_valid a b Va Vb Fa Fb Zb) as [Vf Ff].
  destruct b as [sy | sy | | sy my ey]; try discriminate.
  pose proof (finite_mag_pos my ey) as Pb.
  pose proof (bpow_gt_0 (-53)) as Pu.
  destruct (fmod_value a sy my ey Fa) as (q & Hq & Hlt).
  destruct (rem_cases a sy my ey Fa) as [[Z ->] | (sx & mz & ez & E & [[Es ->] | [Es ->]])].
  - exists (copysign zero (S754_finite sy my ey)), q.
    assert (B0 : B2R (Libm.fmod a (S754_finite sy my ey)) = 0%R)
      by (destruct (Libm.fmod a (S754_finite sy my ey)); try discriminate; reflexivity).
    rewrite <- Hq, B0.
    assert (C0 : B2R (copysign zero (S754_finite sy my ey)) = 0%R)
      by (destruct sy; reflexivity).
    assert (CR : correctly_rounded 0 (copysign zero (S754_finite sy my ey))).
    { rewrite <- C0 at 1. apply correctly_rounded_exact; destruct sy; reflexivity. }
    rewrite C0, Rmult_0_l, Rabs_R0, Rminus_0_r, Rabs_R0, Rmult_0_r.
    split; [reflexivity | ].
    split; [destruct sy; reflexivity | split; [destruct sy; reflexivity | ]].
    split; [lra | split; [ | split; [exact CR | lra]]].
    rewrite Rabs_B2R_finite. exact Pb.
  - exists (Libm.fmod a (S754_finite sy my ey)), q.
    rewrite <- Hq.
    split; [reflexivity | split; [exact Vf | split; [exact Ff | ]]].
    split; [ | split; [exact Hlt | split; [now apply correctly_rounded_exact | ]]].
    + rewrite E, !B2R_finite. subst sx.
      pose proof (finite_mag_pos mz ez).
      destruct sy; cbn [sgn]; nra.
    + unfold Rminus. rewrite Rplus_opp_r, Rabs_R0.
      apply Rmult_le_pos; [lra | apply Rabs_pos].
  - exists (Float64.add (Libm.fmod a (S754_finite sy my ey)) (S754_finite sy my ey)),
           (q - 1).
    destruct (add_error _ _ Vf Vb Ff Fb) as [Vr Er].
    destruct (add_rounds_to _ _ Vf Vb Ff Fb) as (_ & Nr & _).
    assert (Hv : (B2R a - IZR (q - 1) * B2R (S754_finite sy my ey)
                  = B2R (Libm.fmod a (S754_finite sy my ey))
                    + B2R (S754_finite sy my ey))%R)
      by (rewrite Hq, minus_IZR; ring).
    rewrite Hv.
    assert (Fr : is_finite (Float64.add (Libm.fmod a (S754_finite sy my ey))
                                        (S754_finite sy my ey)) = true).
    { apply add_below_max; [exact Ff | reflexivity | ].
      rewrite E in Hlt |- *. rewrite !Rabs_B2R_finite in Hlt.
      rewrite !B2R_finite.
      pose proof (finite_mag_pos mz ez) as Pz.
      pose proof (bounded_lt_max my ey Vb) as Hmax.
      pose proof (float_below_pow my ey 1024 Vb ltac:(lia) Hmax) as Hm.
      assert (HM : B2R max_float = (bpow 1024 - bpow (1024 - 53))%R).
      { rewrite B2R_max_float. change (1024 - 53) with 971.
        replace 1024 with (971 + 53) by reflexivity.
        rewrite bpow_plus, <- (IZR_pow2 53) by lia.
        change (2 ^ 53) with 9007199254740992.
        replace 9007199254740991%R with (9007199254740992 - 1)%R by lra. ring. }
      rewrite HM. apply Rabs_le.
      destruct sx, sy; try congruence; cbn [sgn]; lra. }
    split; [reflexivity | split; [exact Vr | split; [exact Fr | ]]].
    split; [ | split; [ | split; [exact (Nr Fr) | exact (Er Fr)]]].
    + rewrite E in Hlt |- *. rewrite !Rabs_B2R_finite in Hlt. rewrite !B2R_finite.
      pose proof (finite_mag_pos mz ez).
      destruct sx, sy; try congruence; cbn [sgn]; nra.
    + rewrite E in Hlt |- *. rewrite !Rabs_B2R_finite in Hlt.
      rewrite Rabs_B2R_finite, !B2R_finite.
      pose proof (finite_mag_pos mz ez).
      apply Rabs_def1; destruct sx, sy; try congruence; cbn [sgn]; lra.
Qed.

(** [%] by an infinity. *)
Lemma rem_infinity a sy :
  is_finite a = true ->
  exists r, rem a (S754_infinity sy) = Ok r /\
    (is_zero a = true -> r = copysign zero (S754_infinity sy)) /\
    (is_zero a = false -> sign a = Some sy -> r = a) /\
    (is_zero a = false -> sign a <> Some sy -> r = S754_infinity sy).
Proof.
  intros Fa. destruct a as [sx | sx | | sx mx ex]; try discriminate.
  - destruct sx, sy; eexists; (split; [reflexivity | ]);
      (split; [reflexivity | split; discriminate]).
  - unfold rem. rewrite eqb_zero_is_zero. cbn [is_zero Libm.fmod].
    rewrite eqb_zero_is_zero. cbn [is_zero negb].
    rewrite ltb_zero_infinity, ltb_zero_finite.
    destruct sx, sy; cbn [Bool.eqb negb]; eexists;
      (split; [reflexivity | split; [discriminate | split; intros _ H]]);
      try reflexivity; try discriminate; exfalso; now apply H.
Qed.

(** ** Special values of the quotient *)

(** The quotient of two floats, the divisor not a zero: its sign and its
    special values. *)
Lemma div_special x y :
  is_zero y = false ->
  (is_nan (div x y) = true <->
   is_nan x = true \/ is_nan y = true \/ (is_inf x = true /\ is_inf y = true)) /\
  (is_inf x = true -> is_finite y = true -> is_inf (div x y) = true) /\
  (is_finite x = true -> is_inf y = true -> is_zero (div x y) = true) /\
  (forall sx sy, sign x = Some sx -> sign y = Some sy ->
     is_nan (div x y) = false -> sign (div x y) = Some (xorb sx sy)).
Proof.
  intros Zy.
  destruct y as [sy | sy | | sy my ey]; try discriminate;
    destruct x as [sx | sx | | sx mx ex];
    try (cbn; repeat split; intros; try discriminate; try congruence; tauto).
  pose proof (div_finite_sign sx mx ex sy my ey) as S.
  pose proof (sign_not_nan _ _ S) as N.
  split; [ | split; [discriminate | split; [discriminate | ]]].
  - rewrite N. cbn [is_nan is_inf]. split; [discriminate | ].
    intros [H | [H | [H _]]]; discriminate.
  - intros sx' sy' [= <-] [= <-] _. exact S.
Qed.

(** ** Integral powers *)












(** * The tools *)

Import Calculator.

(** ** modulo *)

(** C1, as amended: for a finite dividend [a] and a divisor [b] that is
    neither zero nor NaN, [modulo a b] returns the floored remainder of
    Python's [%].  The result is a zero or has the sign of the divisor [b].
    For a finite [b] it is finite and no larger than [b] in magnitude, and
    it is the remainder: there is an integer [q] (the floor of [a / b]) for
    which the exact [a - q * b] has the sign of [b] (or is zero) and is
    smaller than [b] in magnitude, and the result is [a - q * b] correctly
    rounded, so within [2^-53] of it, relative to it.  For an infinite [b]
    it is [a] itself when [a] has the sign of [b], the zero of the sign of
    [b] when [a] is a zero, and [b] otherwise. *)
Theorem modulo_sign_of_divisor (a b : float) :
  valid b = true ->
  is_finite a = true -> is_nan b = false -> is_zero b = false ->
  exists r,
    modulo a b = Ok r /\
    (is_zero r = true \/ sign r = sign b) /\
    (is_finite b = true ->
     is_finite r = true /\ (Rabs (B2R r) <= Rabs (B2R b))%R /\
     (valid a = true ->
      exists q : Z,
        (0 <= (B2R a - IZR q * B2R b) * B2R b)%R /\
        (Rabs (B2R a - IZR q * B2R b) < Rabs (B2R b))%R /\
        correctly_rounded (B2R a - IZR q * B2R b) r /\
        (Rabs (B2R r - (B2R a - IZR q * B2R b))
           <= bpow (-53) * Rabs (B2R a - IZR q * B2R b))%R)) /\
    (is_inf b = true ->
     (is_zero a = true -> r = copysign zero b) /\
     (is_zero a = false -> sign a = sign b -> r = a) /\
     (is_zero a = false -> sign a <> sign b -> r = b)).
Proof.
  intros Vb Fa Nb Zb. rewrite modulo_nonzero by exact Zb.
  destruct (rem_sign_of_divisor a b Vb Fa Nb Zb) as (r & Hr & Hs & Hf).
  exists r. split; [exact Hr | split; [exact Hs | split]].
  - intros Fb. destruct (Hf Fb) as [Fr Hle].
    split; [exact Fr | split; [exact Hle | intros Va]].
    destruct (rem_floored a b Va Vb Fa Fb Zb) as (r' & q & Hr' & _ & _ & H1 & H2 & H3 & H4).
    rewrite Hr in Hr'. injection Hr' as <-.
    exists q. auto.
  - intros Ib. destruct b as [sy | sy | | sy my ey]; try discriminate.
    destruct (rem_infinity a sy Fa) as (r' & Hr' & H).
    rewrite Hr in Hr'. injection Hr' as <-. exact H.
Qed.

Lemma modulo_sign_of_divisor_witness :
  exists r,
    modulo (of_int (-7)) (of_int 3) = Ok r /\
    (is_zero r = true \/ sign r = sign (of_int 3)) /\
    (is_finite (of_int 3) = true ->
     is_finite r = true /\ (Rabs (B2R r) <= Rabs (B2R (of_int 3)))%R /\
     (valid (of_int (-7)) = true ->
      exists q : Z,
        (0 <= (B2R (of_int (-7)) - IZR q * B2R (of_int 3)) * B2R (of_int 3))%R /\
        (Rabs (B2R (of_int (-7)) - IZR q * B2R (of_int 3))
           < Rabs (B2R (of_int 3)))%R /\
        correctly_rounded (B2R (of_int (-7)) - IZR q * B2R (of_int 3)) r /\
        (Rabs (B2R r - (B2R (of_int (-7)) - IZR q * B2R (of_int 3)))
           <= bpow (-53)
              * Rabs (B2R (of_int (-7)) - IZR q * B2R (of_int 3)))%R)) /\
    (is_inf (of_int 3) = true ->
     (is_zero (of_int (-7)) = true -> r = copysign zero (of_int 3)) /\
     (is_zero (of_int (-7)) = false -> sign (of_int (-7)) = sign (of_int 3) ->
      r = of_int (-7)) /\
     (is_zero (of_int (-7)) = false -> sign (of_int (-7)) <> sign (of_int 3) ->
      r = of_int 3)).
Proof.
  apply (modulo_sign_of_divisor (of_int (-7)) (of_int 3)); reflexivity.
Defined.

(** C1 fails as stated: [modulo (-7) 3] is [2], which is not zero and does
    not have the sign of the dividend. *)
Lemma modulo_sign_not_of_dividend :
  modulo (of_int (-7)) (of_int 3) = Ok (of_int 2) /\
  is_zero (of_int 2) = false /\
  sign (of_int 2) <> sign (of_int (-7)).
Proof.
  split; [vm_compute; reflexivity | split; [reflexivity | discriminate]].
Qed.

(** C4: [modulo a b] fails exactly when [b] is a zero ([+0.0] or [-0.0]),
    and then with the error of the zero divisor; for any other [b], a NaN
    included, it returns. *)
Theorem modulo_fails_iff_zero (a b : float) :
  (raises (modulo a b) = true <-> is_zero b = true) /\
  (modulo a b = Raise (ValueError "Cannot perform modulo with zero divisor")
     <-> is_zero b = true).
Proof.
  unfold modulo, rem. change (of_int 0) with zero.
  rewrite (eqb_zero_is_zero b).
  destruct (is_zero b).
  - split; split; reflexivity.
  - destruct (negb (eqb (Libm.fmod a b) zero));
      [destruct (negb _) | ]; split; split; discriminate.
Qed.

(** C10: a negative-zero divisor is a zero divisor for both tools. *)
Theorem negative_zero_divisor (a : float) :
  divide a neg_zero = Raise (ValueError "Cannot divide by zero") /\
  modulo a neg_zero = Raise (ValueError "Cannot perform modulo with zero divisor").
Proof. split; reflexivity. Qed.

(** ** divide *)

(** C3: [divide a b] fails exactly when [b] is a zero ([+0.0] or [-0.0]),
    always with the same message, and for any other [b] it returns the
    quotient [a / b]: on finite operands the exact quotient correctly
    rounded (the nearest float, with an even mantissa on a tie, and an
    infinity from the overflow threshold on); a NaN exactly when an operand
    is a NaN or both are infinite; an infinity for an infinite dividend and
    a zero for an infinite divisor; always with the sign of [a] times the
    sign of [b]. *)
Theorem divide_fails_iff_zero (a b : float) :
  (raises (divide a b) = true <-> is_zero b = true) /\
  (divide a b = Raise (ValueError "Cannot divide by zero")
     <-> is_zero b = true) /\
  (divide a b = Ok (div a b) <-> is_zero b = false) /\
  (is_zero b = false -> valid a = true -> valid b = true ->
   exists q,
     divide a b = Ok q /\ valid q = true /\
     (is_finite a = true -> is_finite b = true ->
      rounds_to (B2R a / B2R b) q) /\
     (is_nan q = true <->
      is_nan a = true \/ is_nan b = true \/ (is_inf a = true /\ is_inf b = true)) /\
     (is_inf a = true -> is_finite b = true -> is_inf q = true) /\
     (is_finite a = true -> is_inf b = true -> is_zero q = true) /\
     (forall sa sb, sign a = Some sa -> sign b = Some sb ->
        is_nan q = false -> sign q = Some (xorb sa sb))).
Proof.
  assert (E : divide a b = if is_zero b then Raise (ValueError "Cannot divide by zero")
                           else Ok (div a b)).
  { unfold divide, truediv. change (of_int 0) with zero.
    rewrite (eqb_zero_is_zero b). now destruct (is_zero b). }
  split; [ | split; [ | split]].
  - rewrite E. destruct (is_zero b); split; try reflexivity; discriminate.
  - rewrite E. destruct (is_zero b); split; try reflexivity; discriminate.
  - rewrite E. destruct (is_zero b); split; try reflexivity; discriminate.
  - intros Zb Va Vb. exists (div a b). rewrite E, Zb.
    split; [reflexivity | split; [ | split]].
    + destruct b as [sb | sb | | sb mb eb]; try discriminate;
        destruct a as [sa | sa | | sa ma ea]; try reflexivity.
      apply div_error.
    + intros Fa Fb. now apply div_rounds_to.
    + now apply div_special.
Qed.

(** ** absolute *)

(** C8, as amended: [absolute] never fails; for every [x] that is not a NaN
    its result is at least zero and equals that of [absolute (-x)]. *)
Theorem absolute_nonneg_even (x : float) :
  absolute x = Ok (abs x) /\
  absolute (opp x) = Ok (abs (opp x)) /\
  (is_nan x = false ->
   leb (of_int 0) (abs x) = true /\ eqb (abs x) (abs (opp x)) = true).
Proof.
  repeat split.
  - now apply abs_nonneg.
  - rewrite abs_opp. apply eqb_refl_not_nan. destruct x; auto.
Qed.

Lemma absolute_nonneg_even_witness :
  leb (of_int 0) (abs (of_int (-5))) = true /\
  eqb (abs (of_int (-5))) (abs (opp (of_int (-5)))) = true.
Proof.
  apply (absolute_nonneg_even (of_int (-5))). reflexivity.
Defined.

(** C8 fails as stated at a NaN, which [absolute] returns unchanged: a NaN
    is neither at least zero nor equal to itself. *)
Lemma absolute_nan :
  absolute S754_nan = Ok S754_nan /\
  absolute (opp S754_nan) = Ok S754_nan /\
  leb (of_int 0) S754_nan = false /\
  eqb S754_nan S754_nan = false.
Proof. repeat split. Qed.

(** ** power *)

Section Power.

Variable libm_pow : float -> float -> float.


End Power.


(** ** percentage and the documented scenarios *)

(** C9: [percentage value percent] is [(value * percent) / 100] and never
    fails, and the documented scenarios of the nine tools hold. *)
Theorem percentage_and_scenarios :
  (forall value percent,
     percentage value percent = Ok (div (mul value percent) (of_int 100))) /\
  percentage (of_int 200) (of_int 15) = Ok (of_int 30) /\
  add (of_int 5) (of_int 3) = Ok (of_int 8) /\
  subtract (of_int 10) (of_int 4) = Ok (of_int 6) /\
  multiply (of_int 6) (of_int 7) = Ok (of_int 42) /\
  divide (of_int 15) (of_int 3) = Ok (of_int 5) /\
  (forall libm_pow, power libm_pow (of_int 2) (of_int 3) = Ok (of_int 8)) /\
  modulo (of_int 17) (of_int 5) = Ok (of_int 2) /\
  square_root (of_int 16) = Ok (of_int 4) /\
  absolute (of_int (-5)) = Ok (of_int 5).
Proof.
  split; [reflexivity | ].
  repeat (split; [vm_compute; reflexivity | ]).
  vm_compute; reflexivity.
Qed.

(** ** add: commutativity and the round trip through subtraction *)




(** ** multiply then divide *)

(** C7, as amended: for finite [a] and finite non-zero [b] whose quotient
    [divide (multiply a b) b] is finite, that quotient is within the
    floating-point tolerance of [a] widened by [2^-1074 / |b|], the trace of
    a product that underflowed; and it is within the tolerance itself
    whenever the product is a normal number or is exact (as it is for
    [a = 0]). *)
Theorem multiply_divide_round_trip (a b : float) :
  valid a = true -> valid b = true ->
  is_finite a = true -> is_finite b = true -> is_zero b = false ->
  is_finite (Float64.div (Float64.mul a b) b) = true ->
  exists p q,
    multiply a b = Ok p /\ divide p b = Ok q /\
    within (tolerance (Rabs (B2R a)) + bpow (-1074) / Rabs (B2R b)) q a /\
    (is_normal p = true \/ B2R p = (B2R a * B2R b)%R ->
     within (tolerance (Rabs (B2R a))) q a).
Proof.
  intros Va Vb Fa Fb Zb Fq.
  exists (Float64.mul a b), (Float64.div (Float64.mul a b) b).
  split; [reflexivity | split].
  { unfold divide, truediv. change (of_int 0) with zero.
    now rewrite eqb_zero_is_zero, Zb. }
  destruct (mul_error a b Va Vb Fa Fb) as (_ & Em & En & _).
  destruct b as [sb | sb | | sb mb eb]; try discriminate.
  pose proof (B2R_finite_neq_0 sb mb eb) as Nb.
  assert (Eq : (Rabs (B2R (Float64.div (Float64.mul a (S754_finite sb mb eb))
                                       (S754_finite sb mb eb))
                      - B2R (Float64.mul a (S754_finite sb mb eb))
                        / B2R (S754_finite sb mb eb))
                <= Rmax (bpow (-53)
                         * Rabs (B2R (Float64.mul a (S754_finite sb mb eb))
                                 / B2R (S754_finite sb mb eb)))
                        (bpow (-1075)))%R /\
               is_finite (Float64.mul a (S754_finite sb mb eb)) = true).
  { destruct (Float64.mul a (S754_finite sb mb eb)) as [sp | sp | | sp mp ep] eqn:Ep;
      try discriminate.
    - split; [ | reflexivity]. cbn [Float64.div SFdiv B2R]. unfold Rdiv.
      rewrite Rmult_0_l, Rminus_0_r, Rabs_R0.
      eapply Rle_trans; [ | apply Rmax_r]. apply Rlt_le, bpow_gt_0.
    - destruct (div_error sp mp ep sb mb eb) as [_ Eq]. split; [now apply Eq | reflexivity]. }
  destruct Eq as [Eq Fp]. specialize (Em Fp).
  split; [ | intros H]; (split; [exact Fq | split; [exact Fa | ]]);
    unfold tolerance; rewrite bpow_m51.
  - replace (bpow (-1074)) with (2 * bpow (-1075))%R
      by (change (-1074) with (-1075 + 1); rewrite bpow_succ; ring).
    apply (real_mul_div_underflow _ (B2R (S754_finite sb mb eb))
             (B2R (Float64.mul a (S754_finite sb mb eb))));
      [pose proof bpow_m53_le; lra | pose proof (bpow_gt_0 (-1075)); lra
       | exact Nb | exact Em | exact Eq].
  - apply (real_mul_div _ (B2R (S754_finite sb mb eb))
             (B2R (Float64.mul a (S754_finite sb mb eb))));
      [pose proof bpow_m53_le; lra | pose proof (bpow_gt_0 (-1075)); lra
       | exact Nb | | exact Eq].
    destruct H as [H | H]; [now apply En | ].
    rewrite H. unfold Rminus. rewrite Rplus_opp_r, Rabs_R0.
    apply Rmult_le_pos; [apply Rlt_le, bpow_gt_0 | apply Rabs_pos].
Qed.

Lemma multiply_divide_round_trip_witness :
  exists p q,
    multiply (of_int 6) (of_int 7) = Ok p /\ divide p (of_int 7) = Ok q /\
    within (tolerance (Rabs (B2R (of_int 6)))
            + bpow (-1074) / Rabs (B2R (of_int 7))) q (of_int 6) /\
    (is_normal p = true \/ B2R p = (B2R (of_int 6) * B2R (of_int 7))%R ->
     within (tolerance (Rabs (B2R (of_int 6)))) q (of_int 6)).
Proof.
  apply (multiply_divide_round_trip (of_int 6) (of_int 7)); reflexivity.
Defined.

(** C7 fails as stated, at both ends of the range.  The largest float and 2
    are finite and 2 is not zero, yet their product overflows and the
    infinite product divided by 2 is infinite, not near [a].  The least
    positive float [2^-1074] times one half rounds to zero, and zero
    divided by one half is zero, which is [2^-1074] away from [a]: more than
    the tolerance at [a], [2^-51 * 2^-1074 + 2^-1075]. *)
Lemma multiply_divide_out_of_range :
  (is_finite max_float = true /\ is_finite (of_int 2) = true /\
   is_zero (of_int 2) = false /\
   multiply max_float (of_int 2) = Ok inf /\
   divide inf (of_int 2) = Ok inf /\
   ~ exists tol, within tol inf max_float) /\
  (valid min_float = true /\ is_finite min_float = true /\
   is_finite (div (of_int 1) (of_int 2)) = true /\
   is_zero (div (of_int 1) (of_int 2)) = false /\
   multiply min_float (div (of_int 1) (of_int 2)) = Ok zero /\
   divide zero (div (of_int 1) (of_int 2)) = Ok zero /\
   ~ within (tolerance (Rabs (B2R min_float))) zero min_float).
Proof.
  split.
  - repeat (split; [reflexivity | ]).
    intros [tol [H _]]. discriminate H.
  - repeat (split; [vm_compute; reflexivity | ]).
    intros (_ & _ & H). revert H. unfold tolerance.
    cbn [B2R min_float zero cond_Zopp].
    rewrite Rmult_1_l, Rminus_0_l, Rabs_Ropp, Rabs_pos_eq
      by apply Rlt_le, bpow_gt_0.
    rewrite <- bpow_plus.
    replace (bpow (-1074)) with (2 * bpow (-1075))%R
      by (change (-1074) with (-1075 + 1); rewrite bpow_succ; ring).
    assert (bpow (-51 + (-1075 + 1)) < bpow (-1075))%R by (apply bpow_lt; lia).
    pose proof (bpow_gt_0 (-1075)).
    replace (bpow (-51 + -1074)) with (bpow (-51 + (-1075 + 1))) by reflexivity.
    lra.
Qed.

(** ** square_root *)

(** C5: [square_root x] fails exactly when [x < 0], with the error of the
    negative argument; for every [x >= 0] it returns the correctly rounded
    principal square root [r], which is at least zero, is within one unit
    of round-off of the real square root, and whose square approximates [x]
    within the floating-point tolerance. *)
Theorem square_root_spec (x : float) :
  valid x = true ->
  (raises (square_root x) = true <-> ltb x (of_int 0) = true) /\
  (square_root x
     = Raise (ValueError "Cannot calculate square root of a negative number")
   <-> ltb x (of_int 0) = true) /\
  (leb (of_int 0) x = true ->
   exists r,
     square_root x = Ok r /\ r = Float64.sqrt x /\
     leb (of_int 0) r = true /\
     approx (Float64.mul r r) x /\
     (Rabs (B2R r - R_sqrt.sqrt (B2R x)) <= bpow (-53) * R_sqrt.sqrt (B2R x))%R).
Proof.
  intros Vx. unfold square_root, math_sqrt. change (of_int 0) with zero.
  assert (Z0 : (Rabs (0 - R_sqrt.sqrt 0) <= bpow (-53) * R_sqrt.sqrt 0)%R).
  { rewrite sqrt_0, Rminus_0_r, Rabs_R0. lra. }
  assert (W0 : forall s s', within (tolerance (Rabs (B2R (S754_zero s'))))
                                   (S754_zero s) (S754_zero s')).
  { intros s s'. split; [reflexivity | split; [reflexivity | ]].
    unfold tolerance. cbn [B2R]. rewrite Rminus_0_r, Rabs_R0.
    pose proof (bpow_gt_0 (-1075)). lra. }
  destruct x as [s | s | | s m e].
  - (* zero *)
    cbn. split; [split; discriminate | split; [split; discriminate | intros _]].
    eexists; split; [reflexivity | split; [reflexivity | split; [reflexivity | ]]].
    split; [right; apply W0 | exact Z0].
  - (* infinity *)
    destruct s; cbn.
    + split; [split; reflexivity | split; [split; reflexivity | discriminate]].
    + split; [split; discriminate | split; [split; discriminate | intros _]].
      eexists; split; [reflexivity | split; [reflexivity | split; [reflexivity | ]]].
      split; [left; reflexivity | exact Z0].
  - (* NaN *)
    cbn. split; [split; discriminate | split; [split; discriminate | discriminate]].
  - (* finite *)
    destruct s.
    + cbn. split; [split; reflexivity | split; [split; reflexivity | discriminate]].
    + rewrite ltb_zero_finite.
      destruct (sqrt_error m e Vx) as (Vs & Ss & Fs & E1 & _).
      pose proof (sqrt_square_close m e Vx) as Hc. cbv zeta in Hc.
      change (SFsqrt prec emax (S754_finite false m e))
        with (Float64.sqrt (S754_finite false m e)) in *.
      set (r := Float64.sqrt (S754_finite false m e)) in *.
      destruct (is_finite_not_nan_inf r Fs) as [Nn Ni]. rewrite Nn, Ni. cbn [andb].
      split; [split; discriminate | split; [split; discriminate | intros _]].
      exists r. split; [reflexivity | split; [reflexivity | split]].
      * now apply leb_zero_of_sign.
      * split; [right; exact Hc | exact E1].
Qed.

Lemma square_root_spec_witness :
  exists r,
    square_root (of_int 16) = Ok r /\ r = Float64.sqrt (of_int 16) /\
    leb (of_int 0) r = true /\
    approx (Float64.mul r r) (of_int 16) /\
    (Rabs (B2R r - R_sqrt.sqrt (B2R (of_int 16)))
       <= bpow (-53) * R_sqrt.sqrt (B2R (of_int 16)))%R.
Proof.
  destruct (square_root_spec (of_int 16)) as (_ & _ & H); [reflexivity | ].
  apply H. reflexivity.
Defined.

(** ** The test suite of the repository *)

(** Every assertion of [tests/test_calculator.py] holds of the embedding,
    class by class. *)

Ltac run_tests :=
  repeat (split; [vm_compute; reflexivity | ]); vm_compute; reflexivity.

Lemma test_addition :
  equals (add (of_int 2) (of_int 3)) (of_int 5) = true /\
  equals (add (of_int (-2)) (of_int (-3))) (of_int (-5)) = true /\
  equals (add (of_int (-2)) (of_int 5)) (of_int 3) = true /\
  equals (add (div (of_int 5) (of_int 2)) (div (of_int 7) (of_int 2)))
         (of_int 6) = true /\
  equals (add (of_int 5) (of_int 0)) (of_int 5) = true.
Proof. run_tests. Qed.

Lemma test_subtraction :
  equals (subtract (of_int 10) (of_int 4)) (of_int 6) = true /\
  equals (subtract (of_int 4) (of_int 10)) (of_int (-6)) = true /\
  equals (subtract (div (of_int 11) (of_int 2)) (div (of_int 5) (of_int 2)))
         (of_int 3) = true.
Proof. run_tests. Qed.

Lemma test_multiplication :
  equals (multiply (of_int 6) (of_int 7)) (of_int 42) = true /\
  equals (multiply (of_int 100) (of_int 0)) (of_int 0) = true /\
  equals (multiply (of_int (-3)) (of_int (-4))) (of_int 12) = true /\
  equals (multiply (of_int (-3)) (of_int 4)) (of_int (-12)) = true.
Proof. run_tests. Qed.

Lemma test_division :
  equals (divide (of_int 15) (of_int 3)) (of_int 5) = true /\
  equals (divide (of_int 10) (of_int 4)) (div (of_int 5) (of_int 2)) = true /\
  equals (divide (of_int (-10)) (of_int 2)) (of_int (-5)) = true /\
  divide (of_int 10) (of_int 0) = Raise (ValueError "Cannot divide by zero").
Proof. run_tests. Qed.

(** The test on a fractional exponent depends on the C library, which must
    return 2 for 4 to the power one half. *)
Lemma test_power (libm_pow : float -> float -> float) :
  equals (power libm_pow (of_int 2) (of_int 3)) (of_int 8) = true /\
  equals (power libm_pow (of_int 5) (of_int 0)) (of_int 1) = true /\
  equals (power libm_pow (of_int 2) (of_int (-1))) (div (of_int 1) (of_int 2))
    = true /\
  (libm_pow (of_int 4) (div (of_int 1) (of_int 2)) = of_int 2 ->
   equals (power libm_pow (of_int 4) (div (of_int 1) (of_int 2))) (of_int 2)
     = true).
Proof.
  repeat (split; [vm_compute; reflexivity | ]).
  intros H. unfold power, math_pow, equals.
  change (Libm.pow libm_pow (of_int 4) (div (of_int 1) (of_int 2)))
    with (libm_pow (of_int 4) (div (of_int 1) (of_int 2))).
  rewrite H. reflexivity.
Qed.

Lemma test_modulo :
  equals (modulo (of_int 17) (of_int 5)) (of_int 2) = true /\
  equals (modulo (of_int 10) (of_int 5)) (of_int 0) = true /\
  modulo (of_int 10) (of_int 0)
    = Raise (ValueError "Cannot perform modulo with zero divisor").
Proof. run_tests. Qed.

(** [1.4142135623730951] is [6369051672525773 * 2^-52] and [1e-10] is
    [7737125245533627 * 2^-86]. *)
Lemma test_square_root :
  equals (square_root (of_int 16)) (of_int 4) = true /\
  (exists r, square_root (of_int 2) = Ok r /\
     ltb (abs (Float64.sub r (S754_finite false 6369051672525773 (-52))))
         (S754_finite false 7737125245533627 (-86)) = true) /\
  equals (square_root (of_int 0)) (of_int 0) = true /\
  square_root (of_int (-4))
    = Raise (ValueError "Cannot calculate square root of a negative number").
Proof.
  split; [vm_compute; reflexivity | split; [ | run_tests]].
  exists (Float64.sqrt (of_int 2)).
  split; [vm_compute; reflexivity | vm_compute; reflexivity].
Qed.

Lemma test_absolute :
  equals (absolute (of_int (-5))) (of_int 5) = true /\
  equals (absolute (of_int 5)) (of_int 5) = true /\
  equals (absolute (of_int 0)) (of_int 0) = true.
Proof. run_tests. Qed.

Lemma test_percentage :
  equals (percentage (of_int 200) (of_int 15)) (of_int 30) = true /\
  equals (percentage (of_int 50) (of_int 100)) (of_int 50) = true /\
  equals (percentage (of_int 100) (of_int 0)) (of_int 0) = true.
Proof. run_tests. Qed.

(** * Further properties of the tools *)

(** ** The tools on results that are floats *)

(** X1: whenever the exact sum of two finite floats is itself a float [z],
    [add] returns it: the call compares equal to [z], and is [z] itself
    unless [z] is a zero. *)
Theorem add_exact (a b z : float) :
  valid a = true -> valid b = true -> valid z = true ->
  is_finite a = true -> is_finite b = true -> is_finite z = true ->
  B2R z = (B2R a + B2R b)%R ->
  equals (add a b) z = true /\ (is_zero z = false -> add a b = Ok z).
Proof.
  intros Va Vb Vz Fa Fb Fz H.
  destruct (float_add_exact a b z Va Vb Vz Fa Fb Fz H) as [Hn Hz].
  split.
  - now apply eqb_of_exact.
  - intros Z. unfold add. now rewrite Hn.
Qed.

Lemma add_exact_witness :
  equals (add (of_int 5) (of_int 3)) (of_int 8) = true /\
  (is_zero (of_int 8) = false -> add (of_int 5) (of_int 3) = Ok (of_int 8)).
Proof.
  apply (add_exact (of_int 5) (of_int 3) (of_int 8)); try reflexivity.
  destruct (of_int_exact 5) as (_ & _ & ->); [reflexivity | ].
  destruct (of_int_exact 3) as (_ & _ & ->); [reflexivity | ].
  destruct (of_int_exact 8) as (_ & _ & ->); [reflexivity | ].
  rewrite <- plus_IZR. reflexivity.
Defined.

(** X2: whenever the exact difference of two finite floats is itself a
    float [z], [subtract] returns it. *)
Theorem subtract_exact (a b z : float) :
  valid a = true -> valid b = true -> valid z = true ->
  is_finite a = true -> is_finite b = true -> is_finite z = true ->
  B2R z = (B2R a - B2R b)%R ->
  equals (subtract a b) z = true /\ (is_zero z = false -> subtract a b = Ok z).
Proof.
  intros Va Vb Vz Fa Fb Fz H.
  destruct (float_sub_exact a b z Va Vb Vz Fa Fb Fz H) as [Hn Hz].
  split.
  - now apply eqb_of_exact.
  - intros Z. unfold subtract. now rewrite Hn.
Qed.

Lemma subtract_exact_witness :
  equals (subtract (of_int 4) (of_int 10)) (of_int (-6)) = true /\
  (is_zero (of_int (-6)) = false ->
   subtract (of_int 4) (of_int 10) = Ok (of_int (-6))).
Proof.
  apply (subtract_exact (of_int 4) (of_int 10) (of_int (-6))); try reflexivity.
  destruct (of_int_exact 4) as (_ & _ & ->); [reflexivity | ].
  destruct (of_int_exact 10) as (_ & _ & ->); [reflexivity | ].
  destruct (of_int_exact (-6)) as (_ & _ & ->); [reflexivity | ].
  rewrite <- minus_IZR. reflexivity.
Defined.

(** X3: whenever the exact product of two finite floats is itself a float
    [z], [multiply] returns it. *)
Theorem multiply_exact (a b z : float) :
  valid a = true -> valid b = true -> valid z = true ->
  is_finite a = true -> is_finite b = true -> is_finite z = true ->
  B2R z = (B2R a * B2R b)%R ->
  equals (multiply a b) z = true /\ (is_zero z = false -> multiply a b = Ok z).
Proof.
  intros Va Vb Vz Fa Fb Fz H.
  destruct (float_mul_exact a b z Va Vb Vz Fa Fb Fz H) as [Hn Hz].
  split.
  - now apply eqb_of_exact.
  - intros Z. unfold multiply. now rewrite Hn.
Qed.

Lemma multiply_exact_witness :
  equals (multiply (of_int (-3)) (of_int 4)) (of_int (-12)) = true /\
  (is_zero (of_int (-12)) = false ->
   multiply (of_int (-3)) (of_int 4) = Ok (of_int (-12))).
Proof.
  apply (multiply_exact (of_int (-3)) (of_int 4) (of_int (-12))); try reflexivity.
  destruct (of_int_exact (-3)) as (_ & _ & ->); [reflexivity | ].
  destruct (of_int_exact 4) as (_ & _ & ->); [reflexivity | ].
  destruct (of_int_exact (-12)) as (_ & _ & ->); [reflexivity | ].
  rewrite <- mult_IZR. reflexivity.
Defined.

Lemma divide_nonzero a b : is_zero b = false -> divide a b = Ok (Float64.div a b).
Proof.
  intros Hb. unfold divide, truediv.
  change (of_int 0) with zero. now rewrite eqb_zero_is_zero, Hb.
Qed.

(** X4: whenever the exact quotient of two finite floats, the divisor not
    a zero, is itself a float [z], [divide] returns it. *)
Theorem divide_exact (a b z : float) :
  valid z = true ->
  is_finite a = true -> is_finite b = true -> is_finite z = true ->
  is_zero b = false ->
  B2R a = (B2R z * B2R b)%R ->
  equals (divide a b) z = true /\ (is_zero z = false -> divide a b = Ok z).
Proof.
  intros Vz Fa Fb Fz Zb H.
  destruct (float_div_exact a b z Vz Fa Fb Fz Zb H) as [Hn Hz].
  rewrite divide_nonzero by exact Zb. split.
  - now apply eqb_of_exact.
  - intros Z. now rewrite Hn.
Qed.

Lemma divide_exact_witness :
  equals (divide (of_int (-10)) (of_int 2)) (of_int (-5)) = true /\
  (is_zero (of_int (-5)) = false ->
   divide (of_int (-10)) (of_int 2) = Ok (of_int (-5))).
Proof.
  apply (divide_exact (of_int (-10)) (of_int 2) (of_int (-5))); try reflexivity.
  destruct (of_int_exact (-10)) as (_ & _ & ->); [reflexivity | ].
  destruct (of_int_exact 2) as (_ & _ & ->); [reflexivity | ].
  destruct (of_int_exact (-5)) as (_ & _ & ->); [reflexivity | ].
  rewrite <- mult_IZR. reflexivity.
Defined.

Lemma square_root_nonneg x :
  ltb x zero = false -> is_finite x = true -> is_finite (Float64.sqrt x) = true ->
  square_root x = Ok (Float64.sqrt x).
Proof.
  intros Hx Fx Fr. unfold square_root, math_sqrt. change (of_int 0) with zero.
  rewrite Hx. destruct (Float64.sqrt x); try discriminate; reflexivity.
Qed.

(** X5: the square root of a perfect square is exact: when the finite float
    [x] is the square of a non-negative float [z], [square_root] returns
    [z]. *)
Theorem square_root_exact (x z : float) :
  valid z = true -> is_finite x = true -> is_finite z = true ->
  (0 <= B2R z)%R -> B2R x = (B2R z * B2R z)%R ->
  equals (square_root x) z = true /\ (is_zero z = false -> square_root x = Ok z).
Proof.
  intros Vz Fx Fz Pz H.
  destruct (float_sqrt_exact x z Vz Fx Fz Pz H) as [Hn Hz].
  assert (Fr : is_finite (Float64.sqrt x) = true).
  { destruct (is_zero z) eqn:Z.
    - specialize (Hz eq_refl). destruct (Float64.sqrt x); try discriminate; reflexivity.
    - rewrite Hn by reflexivity. exact Fz. }
  assert (Hx : ltb x zero = false).
  { destruct x as [[] | | | sx mx ex]; try discriminate; try reflexivity.
    rewrite ltb_zero_finite. destruct sx; [exfalso | reflexivity].
    rewrite B2R_finite in H. cbn [sgn] in H.
    pose proof (finite_mag_pos mx ex). nra. }
  rewrite (square_root_nonneg x Hx Fx Fr). split.
  - now apply eqb_of_exact.
  - intros Z. now rewrite Hn.
Qed.

Lemma square_root_exact_witness :
  equals (square_root (of_int 16)) (of_int 4) = true /\
  (is_zero (of_int 4) = false -> square_root (of_int 16) = Ok (of_int 4)).
Proof.
  apply (square_root_exact (of_int 16) (of_int 4)); try reflexivity.
  - destruct (of_int_exact 4) as (_ & _ & ->); [reflexivity | ]. lra.
  - destruct (of_int_exact 16) as (_ & _ & ->); [reflexivity | ].
    destruct (of_int_exact 4) as (_ & _ & ->); [reflexivity | ].
    rewrite <- mult_IZR. reflexivity.
Defined.

(** ** Integer arguments *)

(** X7: on integers below [2^53] in magnitude, [add], [subtract] and
    [multiply] return the integer sum, difference and product whenever that
    is below [2^53] too, and [divide] the integer quotient whenever the
    division leaves no remainder. *)
Theorem arithmetic_on_integers (n m : Z) :
  Z.abs n < 2 ^ 53 -> Z.abs m < 2 ^ 53 ->
  (Z.abs (n + m) < 2 ^ 53 ->
   equals (add (of_int n) (of_int m)) (of_int (n + m)) = true) /\
  (Z.abs (n - m) < 2 ^ 53 ->
   equals (subtract (of_int n) (of_int m)) (of_int (n - m)) = true) /\
  (Z.abs (n * m) < 2 ^ 53 ->
   equals (multiply (of_int n) (of_int m)) (of_int (n * m)) = true) /\
  (m <> 0 -> n mod m = 0 ->
   equals (divide (of_int n) (of_int m)) (of_int (n / m)) = true).
Proof.
  intros Hn Hm.
  destruct (of_int_exact n Hn) as (Vn & Fn & Bn).
  destruct (of_int_exact m Hm) as (Vm & Fm & Bm).
  split; [ | split; [ | split]].
  - intros H. destruct (of_int_exact _ H) as (Vz & Fz & Bz).
    apply eqb_of_exact; [exact Fz | | ];
      apply (float_add_exact (of_int n) (of_int m)); trivial;
      now rewrite Bn, Bm, Bz, plus_IZR.
  - intros H. destruct (of_int_exact _ H) as (Vz & Fz & Bz).
    apply eqb_of_exact; [exact Fz | | ];
      apply (float_sub_exact (of_int n) (of_int m)); trivial;
      now rewrite Bn, Bm, Bz, minus_IZR.
  - intros H. destruct (of_int_exact _ H) as (Vz & Fz & Bz).
    apply eqb_of_exact; [exact Fz | | ];
      apply (float_mul_exact (of_int n) (of_int m)); trivial;
      now rewrite Bn, Bm, Bz, mult_IZR.
  - intros Hne Hd.
    assert (Hq : n = n / m * m).
    { pose proof (Z.div_mod n m Hne). lia. }
    assert (H : Z.abs (n / m) < 2 ^ 53) by nia.
    destruct (of_int_exact _ H) as (Vz & Fz & Bz).
    assert (Zm : is_zero (of_int m) = false).
    { destruct (is_zero (of_int m)) eqn:Z; [ | reflexivity].
      now apply of_int_is_zero in Z. }
    rewrite divide_nonzero by exact Zm.
    apply eqb_of_exact; [exact Fz | | ];
      apply (float_div_exact (of_int n) (of_int m)); trivial;
      now rewrite Bn, Bm, Bz, <- mult_IZR, <- Hq.
Qed.

Lemma arithmetic_on_integers_witness :
  equals (add (of_int 2) (of_int (-3))) (of_int (-1)) = true /\
  equals (subtract (of_int 2) (of_int (-3))) (of_int 5) = true /\
  equals (multiply (of_int 2) (of_int (-3))) (of_int (-6)) = true /\
  equals (divide (of_int 12) (of_int (-3))) (of_int (-4)) = true.
Proof.
  pose proof (arithmetic_on_integers 2 (-3) ltac:(reflexivity) ltac:(reflexivity))
    as (A & S & M & _).
  pose proof (arithmetic_on_integers 12 (-3) ltac:(reflexivity) ltac:(reflexivity))
    as (_ & _ & _ & D).
  split; [apply A; reflexivity | split; [apply S; reflexivity | split]].
  - apply M; reflexivity.
  - apply D; [discriminate | reflexivity].
Defined.

(** X8: on integers below [2^53] in magnitude, [absolute] returns the
    integer absolute value, [square_root] of a square below [2^53] returns
    the integer root, and [percentage] returns [n * m / 100] whenever the
    product is below [2^53] and a multiple of 100. *)
Theorem functions_on_integers (n m : Z) :
  Z.abs n < 2 ^ 53 -> Z.abs m < 2 ^ 53 ->
  absolute (of_int n) = Ok (of_int (Z.abs n)) /\
  (n * n < 2 ^ 53 ->
   equals (square_root (of_int (n * n))) (of_int (Z.abs n)) = true) /\
  (Z.abs (n * m) < 2 ^ 53 -> (n * m) mod 100 = 0 ->
   equals (percentage (of_int n) (of_int m)) (of_int (n * m / 100)) = true).
Proof.
  intros Hn Hm.
  destruct (of_int_exact n Hn) as (Vn & Fn & Bn).
  destruct (of_int_exact m Hm) as (Vm & Fm & Bm).
  split; [ | split].
  - unfold absolute. now rewrite abs_of_int.
  - intros H.
    assert (Ha : Z.abs (Z.abs n) < 2 ^ 53) by lia.
    assert (Hs : Z.abs (n * n) < 2 ^ 53) by nia.
    destruct (of_int_exact _ Ha) as (Vz & Fz & Bz).
    destruct (of_int_exact _ Hs) as (Vx & Fx & Bx).
    assert (Pz : (0 <= B2R (of_int (Z.abs n)))%R)
      by (rewrite Bz; apply IZR_le; lia).
    assert (Hv : B2R (of_int (n * n))
                 = (B2R (of_int (Z.abs n)) * B2R (of_int (Z.abs n)))%R).
    { rewrite Bx, Bz, <- mult_IZR. f_equal. nia. }
    destruct (float_sqrt_exact _ _ Vz Fx Fz Pz Hv) as [Hnz Hz].
    destruct (value_of_exact _ _ Fz Hnz Hz) as [Fr _].
    rewrite square_root_nonneg; trivial.
    + now apply eqb_of_exact.
    + destruct (of_int (n * n)) as [[] | | | sx mx ex]; try discriminate;
        try reflexivity.
      rewrite ltb_zero_finite. destruct sx; [exfalso | reflexivity].
      rewrite B2R_finite in Bx. cbn [sgn] in Bx.
      pose proof (finite_mag_pos mx ex).
      assert (0 <= IZR (n * n))%R by (apply IZR_le; nia). lra.
  - intros H Hd.
    destruct (of_int_exact _ H) as (Vp & Fp & Bp).
    assert (Hq : n * m = n * m / 100 * 100).
    { pose proof (Z.div_mod (n * m) 100 ltac:(lia)). lia. }
    assert (Hz : Z.abs (n * m / 100) < 2 ^ 53) by lia.
    destruct (of_int_exact _ Hz) as (Vz & Fz & Bz).
    destruct (of_int_exact 100 ltac:(reflexivity)) as (Vc & Fc & Bc).
    assert (Hv : B2R (of_int (n * m)) = (B2R (of_int n) * B2R (of_int m))%R)
      by now rewrite Bn, Bm, Bp, mult_IZR.
    destruct (float_mul_exact _ _ _ Vn Vm Vp Fn Fm Fp Hv) as [Hnz Hzz].
    destruct (value_of_exact _ _ Fp Hnz Hzz) as [Fr Br].
    unfold percentage, truediv.
    change (eqb (of_int 100) zero) with false. cbv iota. cbn [equals].
    apply eqb_of_exact; [exact Fz | | ];
      apply (float_div_exact (Float64.mul (of_int n) (of_int m)) (of_int 100));
      trivial; now rewrite Br, Bp, Bz, Bc, <- mult_IZR, <- Hq.
Qed.

Lemma functions_on_integers_witness :
  absolute (of_int (-5)) = Ok (of_int 5) /\
  equals (square_root (of_int 25)) (of_int 5) = true /\
  equals (percentage (of_int (-5)) (of_int 40)) (of_int (-2)) = true.
Proof.
  pose proof (functions_on_integers (-5) 40 ltac:(reflexivity) ltac:(reflexivity))
    as (A & S & P).
  split; [exact A | split; [apply S; reflexivity | ]].
  apply P; reflexivity.
Defined.

(** X9: on integers below [2^53] in magnitude, the divisor not zero,
    [modulo] returns the integer floored remainder, the one that Python's
    [%] gives on integers: it has the sign of the divisor. *)
Theorem modulo_on_integers (n m : Z) :
  Z.abs n < 2 ^ 53 -> Z.abs m < 2 ^ 53 -> m <> 0 ->
  equals (modulo (of_int n) (of_int m)) (of_int (n mod m)) = true.
Proof.
  intros Hn Hm Hne.
  destruct (of_int_exact n Hn) as (Vn & Fn & Bn).
  destruct (of_int_exact m Hm) as (Vm & Fm & Bm).
  assert (Hr : Z.abs (n mod m) < 2 ^ 53).
  { pose proof (Z.mod_pos_bound n m). pose proof (Z.mod_neg_bound n m). lia. }
  destruct (of_int_exact _ Hr) as (Vr & Fr & Br).
  destruct (of_int_nonzero m Hm Hne) as (mm & em & Em & Bd).
  assert (Zm : is_zero (of_int m) = false) by now rewrite Em.
  rewrite modulo_nonzero by exact Zm.
  destruct (fmod_valid _ _ Vn Vm Fn Fm Zm) as [Vf Ff].
  rewrite Em in *.
  destruct (fmod_value (of_int n) (m <? 0) mm em Fn) as (q & Hq & Hlt).
  rewrite Bn, Bm, <- mult_IZR, <- minus_IZR in Hq.
  rewrite Hq, Bm, <- !abs_IZR in Hlt. apply lt_IZR in Hlt.
  set (t := n - q * m) in *.
  destruct (rem_cases (of_int n) (m <? 0) mm em Fn)
    as [[Z ->] | (sx & mz & ez & E & [[Es ->] | [Es ->]])].
  - assert (t = 0).
    { apply eq_IZR. rewrite <- Hq.
      destruct (Libm.fmod (of_int n) (S754_finite (m <? 0) mm em));
        try discriminate; reflexivity. }
    assert (H0 : n mod m = 0).
    { replace n with (q * m) by (unfold t in *; lia). apply Z.mod_mul. exact Hne. }
    rewrite H0. destruct (m <? 0); reflexivity.
  - rewrite E in Hq. rewrite B2R_finite in Hq.
    destruct (sgn_pos_IZR _ _ _ (finite_mag_pos mz ez) Hq) as [St Nt].
    assert (Hmod : t = n mod m).
    { apply (Z.mod_unique n m q); [ | unfold t; lia].
      rewrite Es in St.
      destruct (Z.ltb_spec t 0), (Z.ltb_spec m 0); try discriminate; lia. }
    rewrite <- Hmod. cbn [equals].
    apply eqb_of_B2R; trivial.
    + apply of_int_exact. lia.
    + apply of_int_exact. lia.
    + rewrite E, B2R_finite, Hq. symmetry. apply of_int_exact. lia.
  - rewrite E in Hq. rewrite B2R_finite in Hq.
    destruct (sgn_pos_IZR _ _ _ (finite_mag_pos mz ez) Hq) as [St Nt].
    assert (Hmod : t + m = n mod m).
    { apply (Z.mod_unique n m (q - 1)); [ | unfold t; lia].
      destruct (Z.ltb_spec t 0), (Z.ltb_spec m 0); subst sx; try congruence; lia. }
    rewrite <- Hmod in *. cbn [equals].
    apply eqb_of_exact; [exact Fr | | ];
      apply float_add_exact; trivial;
      rewrite Br, Bm, E, B2R_finite, Hq, plus_IZR; reflexivity.
Qed.

Lemma modulo_on_integers_witness :
  equals (modulo (of_int (-7)) (of_int 3)) (of_int 2) = true.
Proof.
  apply (modulo_on_integers (-7) 3); [reflexivity | reflexivity | discriminate].
Defined.

(** ** Accuracy *)

(** X11: the sum and the difference of two finite floats are correctly
    rounded.  The result is never a NaN.  It is finite exactly when the
    exact result is below the overflow threshold [2^1024 - 2^970], so
    whenever the exact result is at most the largest float; it is then the
    float nearest to the exact result, the one of even mantissa on a tie,
    and so within [2^-53] of it, relative to it.  Otherwise it is the
    infinity of the sign of the exact result. *)
Theorem add_subtract_rounding (a b : float) :
  valid a = true -> valid b = true -> is_finite a = true -> is_finite b = true ->
  (exists s, add a b = Ok s /\ valid s = true /\ is_nan s = false /\
     ((Rabs (B2R a + B2R b) <= B2R max_float)%R -> is_finite s = true) /\
     (is_finite s = true ->
      (Rabs (B2R s - (B2R a + B2R b)) <= bpow (-53) * Rabs (B2R a + B2R b))%R) /\
     rounds_to (B2R a + B2R b) s) /\
  (exists d, subtract a b = Ok d /\ valid d = true /\ is_nan d = false /\
     ((Rabs (B2R a - B2R b) <= B2R max_float)%R -> is_finite d = true) /\
     (is_finite d = true ->
      (Rabs (B2R d - (B2R a - B2R b)) <= bpow (-53) * Rabs (B2R a - B2R b))%R) /\
     rounds_to (B2R a - B2R b) d).
Proof.
  intros Va Vb Fa Fb. split.
  - exists (Float64.add a b).
    destruct (add_error a b Va Vb Fa Fb) as [V E].
    split; [reflexivity | split; [exact V | split; [ | split; [ | split; [exact E | ]]]]].
    + now apply add_finite_not_nan.
    + now apply add_below_max.
    + now apply add_rounds_to.
  - exists (Float64.sub a b).
    destruct (sub_error a b Va Vb Fa Fb) as [V E].
    split; [reflexivity | split; [exact V | split; [ | split; [ | split; [exact E | ]]]]].
    + rewrite sub_add_opp. apply add_finite_not_nan; [exact Fa | ].
      now rewrite is_finite_opp.
    + intros H. rewrite sub_add_opp. apply add_below_max; [exact Fa | | ].
      * now rewrite is_finite_opp.
      * now rewrite B2R_opp.
    + now apply sub_rounds_to.
Qed.

Lemma add_subtract_rounding_witness :
  (exists s, add max_float (of_int 1) = Ok s /\ valid s = true /\ is_nan s = false /\
     ((Rabs (B2R max_float + B2R (of_int 1)) <= B2R max_float)%R ->
      is_finite s = true) /\
     (is_finite s = true ->
      (Rabs (B2R s - (B2R max_float + B2R (of_int 1)))
         <= bpow (-53) * Rabs (B2R max_float + B2R (of_int 1)))%R) /\
     rounds_to (B2R max_float + B2R (of_int 1)) s) /\
  (exists d, subtract max_float (of_int 1) = Ok d /\ valid d = true /\
     is_nan d = false /\
     ((Rabs (B2R max_float - B2R (of_int 1)) <= B2R max_float)%R ->
      is_finite d = true) /\
     (is_finite d = true ->
      (Rabs (B2R d - (B2R max_float - B2R (of_int 1)))
         <= bpow (-53) * Rabs (B2R max_float - B2R (of_int 1)))%R) /\
     rounds_to (B2R max_float - B2R (of_int 1)) d).
Proof.
  apply (add_subtract_rounding max_float (of_int 1)); reflexivity.
Defined.

(** X12: the product and the quotient of two finite floats are correctly
    rounded.  The result is never a NaN.  It is finite exactly when the
    exact result is below the overflow threshold [2^1024 - 2^970], so
    whenever the exact result is at most the largest float; it is then the
    float nearest to the exact result, the one of even mantissa on a tie,
    and so within [2^-53] of it, relative to it, or within [2^-1075] where
    the result is subnormal.  Otherwise it is the infinity of the sign of
    the exact result. *)
Theorem multiply_divide_rounding (a b : float) :
  valid a = true -> valid b = true -> is_finite a = true -> is_finite b = true ->
  (exists p, multiply a b = Ok p /\ valid p = true /\ is_nan p = false /\
     ((Rabs (B2R a * B2R b) <= B2R max_float)%R -> is_finite p = true) /\
     (is_finite p = true ->
      (Rabs (B2R p - B2R a * B2R b)
         <= Rmax (bpow (-53) * Rabs (B2R a * B2R b)) (bpow (-1075)))%R) /\
     rounds_to (B2R a * B2R b) p) /\
  (is_zero b = false ->
   exists q, divide a b = Ok q /\ valid q = true /\ is_nan q = false /\
     ((Rabs (B2R a / B2R b) <= B2R max_float)%R -> is_finite q = true) /\
     (is_finite q = true ->
      (Rabs (B2R q - B2R a / B2R b)
         <= Rmax (bpow (-53) * Rabs (B2R a / B2R b)) (bpow (-1075)))%R) /\
     rounds_to (B2R a / B2R b) q).
Proof.
  intros Va Vb Fa Fb. split.
  - exists (Float64.mul a b).
    destruct (mul_error a b Va Vb Fa Fb) as (V & E & _).
    split; [reflexivity | split; [exact V | split; [ | split; [ | split; [exact E | ]]]]].
    + destruct a as [sa | sa | | sa ma ea]; try discriminate;
        destruct b as [sb | sb | | sb mb eb]; try discriminate; try reflexivity.
      eapply sign_not_nan, mul_finite_sign.
    + now apply mul_below_max.
    + now apply mul_rounds_to.
  - intros Zb. exists (Float64.div a b).
    rewrite divide_nonzero by exact Zb.
    pose proof (div_rounds_to a b Va Vb Fa Fb Zb) as R.
    destruct b as [sb | sb | | sb mb eb]; try discriminate.
    destruct a as [sa | sa | | sa ma ea]; try discriminate.
    + split; [reflexivity | split; [reflexivity | split; [reflexivity | ]]].
      split; [reflexivity | split; [intros _ | exact R]].
      cbn [Float64.div SFdiv B2R]. unfold Rdiv.
      rewrite Rmult_0_l, Rminus_0_r, Rabs_R0.
      eapply Rle_trans; [ | apply Rmax_r]. apply Rlt_le, bpow_gt_0.
    + destruct (div_error sa ma ea sb mb eb) as [V E].
      split; [reflexivity | split; [exact V | split; [ | split; [ | split; [exact E | exact R]]]]].
      * eapply sign_not_nan, div_finite_sign.
      * now apply div_below_max.
Qed.

Lemma multiply_divide_rounding_witness :
  (exists p, multiply (of_int 1) (of_int 3) = Ok p /\ valid p = true /\
     is_nan p = false /\
     ((Rabs (B2R (of_int 1) * B2R (of_int 3)) <= B2R max_float)%R ->
      is_finite p = true) /\
     (is_finite p = true ->
      (Rabs (B2R p - B2R (of_int 1) * B2R (of_int 3))
         <= Rmax (bpow (-53) * Rabs (B2R (of_int 1) * B2R (of_int 3)))
                 (bpow (-1075)))%R) /\
     rounds_to (B2R (of_int 1) * B2R (of_int 3)) p) /\
  (exists q, divide (of_int 1) (of_int 3) = Ok q /\ valid q = true /\
     is_nan q = false /\
     ((Rabs (B2R (of_int 1) / B2R (of_int 3)) <= B2R max_float)%R ->
      is_finite q = true) /\
     (is_finite q = true ->
      (Rabs (B2R q - B2R (of_int 1) / B2R (of_int 3))
         <= Rmax (bpow (-53) * Rabs (B2R (of_int 1) / B2R (of_int 3)))
                 (bpow (-1075)))%R) /\
     rounds_to (B2R (of_int 1) / B2R (of_int 3)) q).
Proof.
  destruct (multiply_divide_rounding (of_int 1) (of_int 3)) as [M D];
    try reflexivity.
  split; [exact M | apply D; reflexivity].
Defined.

(** X13: a finite [percentage] is accurate: it differs from the exact
    [value * percent / 100] by at most [2^-51] of it (four units of
    round-off) plus [2^-1074] (the least subnormal), and it is never a NaN
    on finite arguments. *)
Theorem percentage_accuracy (value percent : float) :
  valid value = true -> valid percent = true ->
  is_finite value = true -> is_finite percent = true ->
  exists r,
    percentage value percent = Ok r /\ is_nan r = false /\
    (is_finite r = true ->
     (Rabs (B2R r - B2R value * B2R percent / 100)
        <= bpow (-51) * Rabs (B2R value * B2R percent / 100) + bpow (-1074))%R).
Proof.
  intros Vv Vp Fv Fp.
  exists (Float64.div (Float64.mul value percent) (of_int 100)).
  split; [reflexivity | ].
  destruct (mul_error value percent Vv Vp Fv Fp) as (V & E & _).
  assert (N : is_nan (Float64.mul value percent) = false).
  { destruct value as [sa | sa | | sa ma ea]; try discriminate;
      destruct percent as [sb | sb | | sb mb eb]; try discriminate; try reflexivity.
    eapply sign_not_nan, mul_finite_sign. }
  change (of_int 100) with (S754_finite false 7036874417766400 (-46)).
  assert (B100 : B2R (S754_finite false 7036874417766400 (-46)) = 100%R).
  { change (S754_finite false 7036874417766400 (-46)) with (of_int 100).
    now destruct (of_int_exact 100) as (_ & _ & ->). }
  set (c := S754_finite false 7036874417766400 (-46)) in *.
  destruct (Float64.mul value percent) as [s | s | | s m e] eqn:P;
    try discriminate.
  - split; [reflexivity | intros _].
    cbn [Float64.div SFdiv c]. specialize (E eq_refl). cbn [B2R] in E |- *.
    rewrite bpow_m51. change (bpow (-1074)) with (bpow (-1075 + 1)).
    rewrite bpow_succ.
    apply (real_percentage _ 0%R); trivial;
      [apply bpow_m53_le | apply Rlt_le, bpow_gt_0 | ].
    unfold Rdiv. rewrite Rmult_0_l, Rminus_0_r, Rabs_R0.
    eapply Rle_trans; [ | apply Rmax_r]. apply Rlt_le, bpow_gt_0.
  - split; [reflexivity | discriminate].
  - destruct (div_error s m e false 7036874417766400 (-46)) as [Vq Eq].
    fold c in Vq, Eq. split; [eapply sign_not_nan, div_finite_sign | ].
    intros Fr. specialize (E eq_refl). specialize (Eq Fr). rewrite B100 in Eq.
    rewrite bpow_m51. change (bpow (-1074)) with (bpow (-1075 + 1)).
    rewrite bpow_succ.
    apply (real_percentage _ (B2R (S754_finite s m e))); trivial;
      [apply bpow_m53_le | apply Rlt_le, bpow_gt_0].
Qed.

Lemma percentage_accuracy_witness :
  exists r,
    percentage (of_int 1) (of_int 3) = Ok r /\ is_nan r = false /\
    (is_finite r = true ->
     (Rabs (B2R r - B2R (of_int 1) * B2R (of_int 3) / 100)
        <= bpow (-51) * Rabs (B2R (of_int 1) * B2R (of_int 3) / 100)
           + bpow (-1074))%R).
Proof.
  apply (percentage_accuracy (of_int 1) (of_int 3)); reflexivity.
Defined.

(** X14: the difference of two nearby floats is exact (Sterbenz): when
    [b / 2 <= a <= 2 * b], [subtract] returns [a - b] with no rounding
    error at all. *)
Theorem subtract_nearby_exact (a b : float) :
  valid a = true -> valid b = true -> is_finite a = true -> is_finite b = true ->
  (B2R b / 2 <= B2R a <= 2 * B2R b)%R ->
  exists d,
    subtract a b = Ok d /\ valid d = true /\ is_finite d = true /\
    B2R d = (B2R a - B2R b)%R.
Proof.
  intros Va Vb Fa Fb H. exists (Float64.sub a b). split; [reflexivity | ].
  destruct a as [sa | sa | | sa ma ea]; try discriminate;
    destruct b as [sb | sb | | sb mb eb]; try discriminate.
  - destruct sa, sb; cbn; (split; [reflexivity | split; [reflexivity | ring]]).
  - exfalso. rewrite B2R_finite in H. cbn [B2R] in H.
    pose proof (finite_mag_pos mb eb). destruct sb; cbn [sgn] in H; lra.
  - exfalso. rewrite B2R_finite in H. cbn [B2R] in H.
    pose proof (finite_mag_pos ma ea). destruct sa; cbn [sgn] in H; lra.
  - rewrite sub_add_opp. cbn [opp SFopp].
    destruct (add_finite_sum sa ma ea (negb sb) mb eb) as (S & -> & HS).
    pose proof (finite_mag_pos ma ea) as Pa. pose proof (finite_mag_pos mb eb) as Pb.
    cbn [valid valid_binary] in Va, Vb.
    pose proof (bounded_inv _ _ Va) as [_ Ra]. pose proof (bounded_inv _ _ Vb) as [_ Rb].
    pose proof (bounded_digits _ _ Va) as Da. pose proof (bounded_digits _ _ Vb) as Db.
    rewrite !B2R_finite in H, HS.
    assert (sa = false) by (destruct sa, sb; cbn [sgn] in H; trivial; lra).
    assert (sb = false) by (destruct sa, sb; cbn [sgn] in H; trivial; lra).
    subst sa sb. cbn [negb sgn] in H, HS.
    set (ez := Z.min ea eb) in *. pose proof (bpow_gt_0 ez) as Pz.
    assert (HSa : (Rabs (IZR S * bpow ez) <= IZR (Zpos ma) * bpow ea)%R)
      by (rewrite HS; apply Rabs_le; lra).
    assert (HSb : (Rabs (IZR S * bpow ez) <= IZR (Zpos mb) * bpow eb)%R)
      by (rewrite HS; apply Rabs_le; lra).
    rewrite Rabs_mult, (Rabs_pos_eq (bpow ez)), <- abs_IZR in HSa, HSb by lra.
    assert (Hd : Zdigits2 (Z.abs S) <= 53).
    { destruct (Z.eq_dec S 0) as [-> | HS0]; [cbn; lia | ].
      destruct (Z_le_gt_dec ea eb) as [Hab | Hab].
      - replace ez with ea in HSa by (unfold ez; lia).
        apply Rmult_le_reg_r in HSa; [ | apply bpow_gt_0]. apply le_IZR in HSa.
        pose proof (Zdigits2_le (Z.abs S) (Zpos ma) ltac:(lia) HSa) as L.
        cbn [Zdigits2] in L. lia.
      - replace ez with eb in HSb by (unfold ez; lia).
        apply Rmult_le_reg_r in HSb; [ | apply bpow_gt_0]. apply le_IZR in HSb.
        pose proof (Zdigits2_le (Z.abs S) (Zpos mb) ltac:(lia) HSb) as L.
        cbn [Zdigits2] in L. lia. }
    destruct (binary_normalize_small S ez Hd ltac:(unfold ez; lia)) as (V & F & B).
    split; [exact V | split; [exact F | ]].
    rewrite B, HS, !B2R_finite. cbn [sgn]. ring.
Qed.

Lemma subtract_nearby_exact_witness :
  exists d,
    subtract (of_int 5) (of_int 3) = Ok d /\ valid d = true /\
    is_finite d = true /\ B2R d = (B2R (of_int 5) - B2R (of_int 3))%R.
Proof.
  apply (subtract_nearby_exact (of_int 5) (of_int 3)); try reflexivity.
  destruct (of_int_exact 5) as (_ & _ & ->); [reflexivity | ].
  destruct (of_int_exact 3) as (_ & _ & ->); [reflexivity | ].
  lra.
Defined.

(** ** The floored remainder *)

(** X15: on finite operands, the divisor not a zero, [modulo] returns the
    floored remainder rounded once: for an integer [q], the exact
    [a - q * b] has the sign of [b] (or is zero) and is smaller than [b] in
    magnitude, and the result is within [2^-53] of it, relative to it. *)
Theorem modulo_floored (a b : float) :
  valid a = true -> valid b = true -> is_finite a = true -> is_finite b = true ->
  is_zero b = false ->
  exists r q,
    modulo a b = Ok r /\ valid r = true /\ is_finite r = true /\
    (0 <= (B2R a - IZR q * B2R b) * B2R b)%R /\
    (Rabs (B2R a - IZR q * B2R b) < Rabs (B2R b))%R /\
    (Rabs (B2R r - (B2R a - IZR q * B2R b))
       <= bpow (-53) * Rabs (B2R a - IZR q * B2R b))%R.
Proof.
  intros Va Vb Fa Fb Zb. rewrite modulo_nonzero by exact Zb.
  destruct (rem_floored a b Va Vb Fa Fb Zb)
    as (r & q & Hr & Vr & Fr & H1 & H2 & _ & H4).
  exists r, q. auto 10.
Qed.

Lemma modulo_floored_witness :
  exists r q,
    modulo (of_int (-7)) (of_int 3) = Ok r /\ valid r = true /\
    is_finite r = true /\
    (0 <= (B2R (of_int (-7)) - IZR q * B2R (of_int 3)) * B2R (of_int 3))%R /\
    (Rabs (B2R (of_int (-7)) - IZR q * B2R (of_int 3)) < Rabs (B2R (of_int 3)))%R /\
    (Rabs (B2R r - (B2R (of_int (-7)) - IZR q * B2R (of_int 3)))
       <= bpow (-53) * Rabs (B2R (of_int (-7)) - IZR q * B2R (of_int 3)))%R.
Proof.
  apply (modulo_floored (of_int (-7)) (of_int 3)); reflexivity.
Defined.

(** X16: a dividend already in range is returned: when [a] is zero or has
    the sign of the divisor and is smaller than it in magnitude, [modulo]
    returns [a], as far as [==] tells. *)
Theorem modulo_in_range (a b : float) :
  valid a = true -> valid b = true -> is_finite a = true -> is_finite b = true ->
  (0 <= B2R a * B2R b)%R -> (Rabs (B2R a) < Rabs (B2R b))%R ->
  equals (modulo a b) a = true.
Proof.
  intros Va Vb Fa Fb Hs Hlt.
  assert (Zb : is_zero b = false).
  { destruct b; try discriminate; [ | reflexivity].
    exfalso. cbn [B2R] in Hlt. rewrite Rabs_R0 in Hlt.
    pose proof (Rabs_pos (B2R a)). lra. }
  rewrite modulo_nonzero by exact Zb.
  destruct (fmod_valid a b Va Vb Fa Fb Zb) as [Vf Ff].
  destruct b as [sy | sy | | sy my ey]; try discriminate.
  assert (Hv : B2R (Libm.fmod a (S754_finite sy my ey)) = B2R a).
  { destruct a as [sx | sx | | sx mx ex]; try discriminate; [reflexivity | ].
    destruct (fmod_exact sx mx ex sy my ey) as (q & H1 & _ & H3).
    rewrite H1.
    assert (q = 0).
    { destruct (Z.eq_dec q 0) as [ | Hq]; [assumption | exfalso].
      assert (1 <= Rabs (IZR q))%R.
      { rewrite <- abs_IZR. apply IZR_le. lia. }
      rewrite Rabs_mult in H3.
      pose proof (Rabs_pos (B2R (S754_finite sy my ey))). nra. }
    subst q. ring. }
  destruct (rem_cases a sy my ey Fa)
    as [[Z ->] | (sx & mz & ez & E & [[Es ->] | [Es ->]])].
  - cbn [equals]. apply eqb_zeros; [destruct sy; reflexivity | ].
    apply is_zero_B2R; [exact Fa | ]. rewrite <- Hv.
    destruct (Libm.fmod a (S754_finite sy my ey)); try discriminate; reflexivity.
  - cbn [equals]. now apply eqb_of_B2R.
  - exfalso. rewrite <- Hv, E, !B2R_finite in Hs.
    pose proof (finite_mag_pos mz ez). pose proof (finite_mag_pos my ey).
    destruct sx, sy; try congruence; cbn [sgn] in Hs; nra.
Qed.

Lemma modulo_in_range_witness :
  equals (modulo (of_int (-2)) (of_int (-5))) (of_int (-2)) = true.
Proof.
  apply (modulo_in_range (of_int (-2)) (of_int (-5))); try reflexivity.
  - destruct (of_int_exact (-2)) as (_ & _ & ->); [reflexivity | ].
    destruct (of_int_exact (-5)) as (_ & _ & ->); [reflexivity | ]. lra.
  - destruct (of_int_exact (-2)) as (_ & _ & ->); [reflexivity | ].
    destruct (of_int_exact (-5)) as (_ & _ & ->); [reflexivity | ].
    rewrite <- !abs_IZR. apply IZR_lt. reflexivity.
Defined.

(** ** Algebraic laws *)

(** X17: [multiply] is commutative, on all floats and as the same value, and
    so [percentage] takes its two arguments in either order. *)
Theorem multiply_commutes (a b : float) :
  multiply a b = multiply b a /\ percentage a b = percentage b a.
Proof.
  unfold multiply, percentage. now rewrite (mul_comm a b).
Qed.

(** X18: rounding treats the two signs alike, so the absolute value of a
    product is the product of the absolute values, and likewise for a
    quotient: [absolute] of the result of [multiply] (or of [divide]) is
    what the tool returns on the results of [absolute]. *)
Theorem absolute_of_product (a b : float) :
  exists a' b',
    absolute a = Ok a' /\ absolute b = Ok b' /\
    (exists p, multiply a b = Ok p /\ absolute p = multiply a' b') /\
    (is_zero b = false ->
     exists q, divide a b = Ok q /\ absolute q = divide a' b').
Proof.
  exists (abs a), (abs b). split; [reflexivity | split; [reflexivity | split]].
  - exists (Float64.mul a b). split; [reflexivity | ].
    unfold absolute, multiply. now rewrite abs_mul.
  - intros Zb. exists (Float64.div a b).
    assert (Zb' : is_zero (abs b) = false) by (destruct b; trivial).
    rewrite !divide_nonzero by assumption. split; [reflexivity | ].
    unfold absolute. now rewrite abs_div.
Qed.

(** X19: [subtract] is the sum with the negated second argument; a finite
    float less itself is [+0.0]; and swapping the arguments of a finite
    difference negates the result, as far as [==] tells. *)
Theorem subtract_antisymmetric (a b : float) :
  subtract a b = add a (opp b) /\
  (is_finite a = true -> subtract a a = Ok zero) /\
  (is_finite a = true -> is_finite b = true ->
   exists d d', subtract a b = Ok d /\ subtract b a = Ok d' /\
                eqb d (opp d') = true).
Proof.
  split; [ | split].
  - unfold subtract, add. now rewrite sub_add_opp.
  - intros Fa. unfold subtract. now rewrite sub_diag.
  - intros Fa Fb. exists (Float64.sub a b), (Float64.sub b a).
    split; [reflexivity | split; [reflexivity | ]].
    rewrite !sub_add_opp, (add_comm b (opp a)).
    rewrite <- (opp_opp a) at 1.
    apply add_opp_opp; now rewrite ?is_finite_opp.
Qed.

(** ** NaN and the identities *)

(** X20: the four arithmetic tools return a NaN rather than fail, and only
    where IEEE 754 says so: from a NaN argument, from the sum of opposite
    infinities (the difference of equal ones), from zero times infinity,
    and from infinity over infinity. *)
Theorem nan_results (a b : float) :
  (exists s, add a b = Ok s /\
     (is_nan s = true <->
      is_nan a = true \/ is_nan b = true \/
      (is_inf a = true /\ is_inf b = true /\ sign a <> sign b))) /\
  (exists d, subtract a b = Ok d /\
     (is_nan d = true <->
      is_nan a = true \/ is_nan b = true \/
      (is_inf a = true /\ is_inf b = true /\ sign a = sign b))) /\
  (exists p, multiply a b = Ok p /\
     (is_nan p = true <->
      is_nan a = true \/ is_nan b = true \/
      (is_inf a = true /\ is_zero b = true) \/
      (is_zero a = true /\ is_inf b = true))) /\
  (is_zero b = false ->
   exists q, divide a b = Ok q /\
     (is_nan q = true <->
      is_nan a = true \/ is_nan b = true \/
      (is_inf a = true /\ is_inf b = true))).
Proof.
  split; [ | split; [ | split]].
  - exists (Float64.add a b). split; [reflexivity | ].
    destruct a as [sa | sa | | sa ma ea], b as [sb | sb | | sb mb eb];
      try (cbn; intuition (discriminate || congruence)).
    + destruct sa, sb; cbn; intuition (discriminate || congruence).
    + destruct sa, sb; cbn; intuition (discriminate || congruence).
    + rewrite add_finite_not_nan by reflexivity.
      cbn; intuition (discriminate || congruence).
  - exists (Float64.sub a b). split; [reflexivity | ].
    destruct a as [sa | sa | | sa ma ea], b as [sb | sb | | sb mb eb];
      try (cbn; intuition (discriminate || congruence)).
    + destruct sa, sb; cbn; intuition (discriminate || congruence).
    + destruct sa, sb; cbn; intuition (discriminate || congruence).
    + rewrite sub_add_opp, add_finite_not_nan by reflexivity.
      cbn; intuition (discriminate || congruence).
  - exists (Float64.mul a b). split; [reflexivity | ].
    destruct a as [sa | sa | | sa ma ea], b as [sb | sb | | sb mb eb];
      try (cbn; intuition (discriminate || congruence)).
    rewrite (sign_not_nan _ _ (mul_finite_sign sa ma ea sb mb eb)).
    cbn; intuition (discriminate || congruence).
  - intros Zb. exists (Float64.div a b).
    rewrite divide_nonzero by exact Zb. split; [reflexivity | ].
    destruct a as [sa | sa | | sa ma ea], b as [sb | sb | | sb mb eb];
      try discriminate;
      try (cbn; intuition (discriminate || congruence)).
    rewrite (sign_not_nan _ _ (div_finite_sign sa ma ea sb mb eb)).
    cbn; intuition (discriminate || congruence).
Qed.

(** X21: zero and one are identities: on every valid float that is not a
    NaN, adding or subtracting [0] and multiplying or dividing by [1]
    return the argument, as far as [==] tells; a finite float times [0] is
    zero, and a finite float that is not a zero, divided by itself, is 1. *)
Theorem identity_elements (a : float) :
  valid a = true -> is_nan a = false ->
  equals (add a (of_int 0)) a = true /\
  equals (subtract a (of_int 0)) a = true /\
  equals (multiply a (of_int 1)) a = true /\
  equals (divide a (of_int 1)) a = true /\
  (is_finite a = true -> equals (multiply a (of_int 0)) (of_int 0) = true) /\
  (is_finite a = true -> is_zero a = false ->
   equals (divide a a) (of_int 1) = true).
Proof.
  intros Va Na.
  destruct (of_int_exact 1 ltac:(reflexivity)) as (V1 & F1 & B1).
  assert (R : eqb a a = true) by now apply eqb_refl_not_nan.
  destruct a as [sa | sa | | sa ma ea]; try discriminate.
  - destruct sa; repeat split; discriminate.
  - destruct sa; repeat split; discriminate.
  - rewrite !divide_nonzero by reflexivity.
    unfold add, subtract, multiply, equals.
    split; [exact R | split; [exact R | split; [ | split; [ | split]]]].
    + apply eqb_of_exact; [reflexivity | | discriminate].
      apply float_mul_exact; trivial. rewrite B1. ring.
    + apply eqb_of_exact; [reflexivity | | discriminate].
      apply float_div_exact; trivial. rewrite B1. ring.
    + intros _. destruct sa; reflexivity.
    + intros _ _. apply eqb_of_exact; [reflexivity | | discriminate].
      apply float_div_exact; trivial. rewrite B1. ring.
Qed.

Lemma identity_elements_witness :
  equals (add max_float (of_int 0)) max_float = true /\
  equals (subtract max_float (of_int 0)) max_float = true /\
  equals (multiply max_float (of_int 1)) max_float = true /\
  equals (divide max_float (of_int 1)) max_float = true /\
  equals (multiply max_float (of_int 0)) (of_int 0) = true /\
  equals (divide max_float max_float) (of_int 1) = true.
Proof.
  destruct (identity_elements max_float) as (A & S & M & D & Z & Q);
    try reflexivity.
  split; [exact A | split; [exact S | split; [exact M | split; [exact D | ]]]].
  split; [apply Z; reflexivity | apply Q; reflexivity].
Defined.
